(** * Candidate / job fit: scoring tools, PII redactor and orchestrator

    A shallow embedding of the deterministic core of the repository
    (src/tools, src/pii_redactor.py, src/orchestrator.py, src/models.py,
    src/config.py) together with the properties its specification states.

    Conventions of the embedding.
    - A Python [float] is an exact rational ([Q]); the rounding done by
      binary64 arithmetic is not modelled, except in module [binary64]
      where the specification's numeric scenarios are replayed on
      hardware floats.
    - A Python [str] is a [string] of 8-bit characters; character classes
      are those of Python on the ASCII range.
    - A Python call that may raise returns a [result]; only subclasses of
      [Exception] are modelled.
    - Collaborators that live outside the repository (the embedding model,
      the token classifier, the language-model agents, the document
      loader, the clock) are fields of records or section variables. *)

From Stdlib Require Import Bool Arith ZArith QArith Qround Qabs Lia List.
From Stdlib Require Import Ascii String Permutation Sorted.
From Stdlib Require Import Floats Lqa.
Import ListNotations.

Set Implicit Arguments.

Open Scope string_scope.
Open Scope list_scope.
Open Scope Q_scope.

(** ** Python values, exceptions and built-ins *)

Module Py.

(** The exceptions that occur in the modelled code. *)
Inductive exn : Type :=
| IndexError
| TypeError
| AttributeError
| ValueError (msg : string)
| ValidationError (field : string)
| Exception (msg : string)
| ProviderError (msg : string).

Inductive result (A : Type) : Type :=
| Ok (a : A)
| Raise (e : exn).
Arguments Ok {A} a.
Arguments Raise {A} e.

Definition bind {A B} (m : result A) (k : A -> result B) : result B :=
  match m with
  | Ok a => k a
  | Raise e => Raise e
  end.

(** [try: body except Exception as e: handler e] *)
Definition try_except {A} (body : result A) (handler : exn -> result A)
  : result A :=
  match body with
  | Ok a => Ok a
  | Raise e => handler e
  end.

(** [str(e)] for the message of an exception, abstracted to its text. *)
Definition exn_text (e : exn) : string :=
  match e with
  | IndexError => "list index out of range"
  | TypeError => "object is not callable"
  | AttributeError => "object has no such attribute"
  | ValueError m => m
  | ValidationError f => f
  | Exception m => m
  | ProviderError m => m
  end.

(** [l[i]] on a list, for a non-negative index. *)
Definition getitem {A} (l : list A) (i : nat) : result A :=
  match nth_error l i with
  | Some a => Ok a
  | None => Raise IndexError
  end.

(** *** Comparisons on floats *)

Definition Qleb (x y : Q) : bool := Qle_bool x y.
Definition Qltb (x y : Q) : bool := negb (Qle_bool y x).
Definition Qgeb (x y : Q) : bool := Qle_bool y x.
Definition Qgtb (x y : Q) : bool := negb (Qle_bool x y).

(** [max(a, b)]: the first argument unless the second is larger. *)
Definition max (a b : Q) : Q := if Qgtb b a then b else a.

(** [round(x, 2)]: to the nearest multiple of 1/100, halves to even. *)
Definition round_half_even (y : Q) : Z :=
  let f := Qfloor y in
  let d := (y - inject_Z f)%Q in
  if Qltb d (1 # 2) then f
  else if Qgtb d (1 # 2) then (f + 1)%Z
  else if Z.even f then f else (f + 1)%Z.

Definition round2 (x : Q) : Q :=
  (inject_Z (round_half_even (x * 100)) / 100)%Q.

(** *** Characters and strings *)

Definition code (c : ascii) : nat := nat_of_ascii c.

Definition between (lo hi : nat) (c : ascii) : bool :=
  (lo <=? code c)%nat && (code c <=? hi)%nat.

(** [str.isspace] on the ASCII range: TAB..CR, FS..US and the space. *)
Definition isspace (c : ascii) : bool :=
  between 9 13 c || between 28 32 c.

Definition isdigit (c : ascii) : bool := between 48 57 c.
Definition isupper (c : ascii) : bool := between 65 90 c.
Definition islower (c : ascii) : bool := between 97 122 c.
Definition isalpha (c : ascii) : bool := isupper c || islower c.
Definition isalnum (c : ascii) : bool := isalpha c || isdigit c.

(** The class [\w] of the [re] module. *)
Definition isword (c : ascii) : bool :=
  isalnum c || (code c =? 95)%nat.

Definition lower_char (c : ascii) : ascii :=
  if isupper c then ascii_of_nat (code c + 32) else c.
Definition upper_char (c : ascii) : ascii :=
  if islower c then ascii_of_nat (code c - 32) else c.

Fixpoint map_str (f : ascii -> ascii) (s : string) : string :=
  match s with
  | EmptyString => EmptyString
  | String c t => String (f c) (map_str f t)
  end.

Definition lower (s : string) : string := map_str lower_char s.
Definition upper (s : string) : string := map_str upper_char s.

Fixpoint lstrip (s : string) : string :=
  match s with
  | EmptyString => EmptyString
  | String c t => if isspace c then lstrip t else s
  end.

(** Drops the trailing white space; the result is empty exactly when
    the whole string is white space. *)
Fixpoint rstrip (s : string) : string :=
  match s with
  | EmptyString => EmptyString
  | String c t =>
      match rstrip t with
      | EmptyString => if isspace c then EmptyString else String c EmptyString
      | r => String c r
      end
  end.

Definition strip (s : string) : string := rstrip (lstrip s).

(** [re.sub(r"\s+", " ", s)]: every maximal run of white space becomes
    one space. *)
Fixpoint collapse_spaces (in_run : bool) (s : string) : string :=
  match s with
  | EmptyString => EmptyString
  | String c t =>
      if isspace c
      then if in_run then collapse_spaces true t
           else String " "%char (collapse_spaces true t)
      else String c (collapse_spaces false t)
  end.

(** Truth value of a string: [not s] holds for the empty string. *)
Definition truthy (s : string) : bool :=
  match s with
  | EmptyString => false
  | _ => true
  end.

(** [x in l] for a list of strings. *)
Definition contains (x : string) (l : list string) : bool :=
  existsb (String.eqb x) l.

(** *** Slices [s[:i]] and [s[i:]]

    A negative bound counts from the end; every bound is clamped to
    the length of the string. *)

Definition clamp (len : nat) (i : Z) : nat :=
  if (i <? 0)%Z then Z.to_nat (Z.of_nat len + i)
  else Nat.min (Z.to_nat i) len.

Definition slice_to (s : string) (i : Z) : string :=
  let l := list_ascii_of_string s in
  string_of_list_ascii (firstn (clamp (List.length l) i) l).

Definition slice_from (s : string) (i : Z) : string :=
  let l := list_ascii_of_string s in
  string_of_list_ascii (skipn (clamp (List.length l) i) l).

End Py.

Import Py.

Notation "x <- m ;; k" := (Py.bind m (fun x => k))
  (at level 61, m at next level, right associativity).

(** The [_norm] helper, defined identically in each tool module:
    [re.sub(r"\s+", " ", s.lower().strip())]. *)
Definition _norm (s : string) : string :=
  collapse_spaces false (strip (lower s)).

(** ** Dynamically typed values

    The tools return plain dictionaries with string keys; a dictionary
    keeps its keys in insertion order. *)

#[warnings="-register-all"]
Inductive value : Type :=
| VNone
| VStr (s : string)
| VInt (z : Z)
| VFloat (q : Q)
| VDict (items : list (string * value)).

Fixpoint lookup (k : string) (items : list (string * value)) : option value :=
  match items with
  | [] => None
  | (k', v) :: t => if String.eqb k k' then Some v else lookup k t
  end.

(** [d[k]] read off a returned value. *)
Definition field (k : string) (v : value) : option value :=
  match v with
  | VDict items => lookup k items
  | _ => None
  end.


(** The number carried by a value, for either numeric type. *)
Definition number (v : value) : option Q :=
  match v with
  | VInt z => Some (inject_Z z)
  | VFloat q => Some q
  | _ => None
  end.

(** *** Fixed-point formatting [f"{x:.2f}"] *)





(** ** src/config.py *)

Module config.

Record Thresholds : Type := {
  semantic_match : Q;
  skill_transferable_min : Q;
  education_partial_match_min : Q;
  experience_match_score : Q
}.

Record Weights : Type := {
  required_skills : Q;
  prefered_skills : Q;
  experience : Q;
  qualification : Q;
  seniority : Q;
  experience_years : Q;
  experience_kind : Q
}.

Definition THRESHOLDS : Thresholds := {|
  semantic_match := 0.80;
  skill_transferable_min := 0.50;
  education_partial_match_min := 0.50;
  experience_match_score := 0.80
|}.

Definition WEIGHTS : Weights := {|
  required_skills := 0.30;
  prefered_skills := 0.10;
  experience := 0.30;
  qualification := 0.15;
  seniority := 0.15;
  experience_years := 0.4;
  experience_kind := 0.6
|}.

End config.

Import config.

(** The external sentence-embedding model ([src/utils/embedding_model.py]
    only instantiates it).  [similarity a bs] is row 0 of the similarity
    matrix of one query vector against a batch. *)
Record SentenceTransformer : Type := {
  vector : Type;
  encode : string -> result vector;
  encode_batch : list string -> result (list vector);
  similarity : vector -> list vector -> result (list Q)
}.

(** [int(np.argmax(sims))]: the first position holding the largest
    entry; an empty array raises [ValueError]. *)
Fixpoint argmax_from (best_i : nat) (best : Q) (i : nat) (l : list Q) : nat :=
  match l with
  | [] => best_i
  | x :: t =>
      if Qgtb x best then argmax_from i x (S i) t
      else argmax_from best_i best (S i) t
  end.

Definition argmax (l : list Q) : result nat :=
  match l with
  | [] => Raise (ValueError "attempt to get an argmax of an empty sequence")
  | x :: t => Ok (argmax_from 0 x 1 t)
  end.

(** ** src/tools/experience_evaluator.py *)

Module experience_evaluator.


(** [not required_kind or not required_kind.strip()] *)
Definition kind_unspecified (required_kind : option string) : bool :=
  match required_kind with
  | None => true
  | Some k => negb (truthy k) || negb (truthy (strip k))
  end.

Definition of_option_str (o : option string) : value :=
  match o with
  | Some s => VStr s
  | None => VNone
  end.

(** The statements guarded by [try]. *)
Definition score_experience_kind_body (embed_model : SentenceTransformer)
    (required_kind : option string)
    (candidate_experience_texts : list string) : result value :=
  if kind_unspecified required_kind then
    first <- getitem candidate_experience_texts 0 ;;
    Ok (VDict [("ad_kind", VNone);
               ("candidate_matching_text", VStr first);
               ("score", VFloat 70.0);
               ("similarity", VFloat 0.0)])
  else
    match required_kind with
    | None => Raise TypeError
    | Some required_kind =>
        match candidate_experience_texts with
        | [] =>
            Ok (VDict [("ad_kind", VStr required_kind);
                       ("candidate_matching_text", VNone);
                       ("score", VFloat 30.0);
                       ("similarity", VFloat 0.0)])
        | _ =>
            if contains required_kind candidate_experience_texts then
              Ok (VDict [("ad_kind", VStr required_kind);
                         ("candidate_matching_text", VStr required_kind);
                         ("score", VFloat 100.0);
                         ("similarity", VFloat 1.0)])
            else
              let req := _norm required_kind in
              let cands_norm := map _norm candidate_experience_texts in
              req_embed <- encode embed_model req ;;
              cands_embed <- encode_batch embed_model cands_norm ;;
              sims <- similarity embed_model req_embed cands_embed ;;
              max_sim_idx <- argmax sims ;;
              max_sim_val <- getitem sims max_sim_idx ;;
              best_text <- getitem candidate_experience_texts max_sim_idx ;;
              let score :=
                if Qgeb max_sim_val (experience_match_score THRESHOLDS)
                then 100.0 else (max_sim_val * 100)%Q in
              Ok (VDict [("ad_required_kind", VStr required_kind);
                         ("candidate_matching_text", VStr best_text);
                         ("score", VFloat score);
                         ("similarity", VFloat max_sim_val)])
        end
    end.

(** The function: what it returns and the lines it prints.  The
    handler [except Exception as e: print("experience", e)] has no
    [return], so control leaves the function with [None]. *)
Definition score_experience_kind (embed_model : SentenceTransformer)
    (required_kind : option string)
    (candidate_experience_texts : list string)
  : result (value * list string) :=
  try_except
    (v <- score_experience_kind_body embed_model required_kind
            candidate_experience_texts ;;
     Ok (v, []))
    (fun e => Ok (VNone, [("experience " ++ exn_text e)%string])).

Definition combine_experience_scores (years_score kind_score : Q) : value :=
  let combined :=
    (years_score * experience_years WEIGHTS
     + kind_score * experience_kind WEIGHTS)%Q in
  VDict [("years_score", VFloat years_score);
         ("kind_score", VFloat kind_score);
         ("combined_score", VFloat (round2 combined))].

End experience_evaluator.

(** ** src/tools/overall_scoring.py *)

Module overall_scoring.

Definition weighted_sum
    (required_skill_score prefered_skill_score experience_score
     qualification_score seniority_score : Q) : Q :=
  (required_skill_score * required_skills WEIGHTS
   + prefered_skill_score * prefered_skills WEIGHTS
   + experience_score * experience WEIGHTS
   + qualification_score * qualification WEIGHTS
   + seniority_score * seniority WEIGHTS)%Q.


End overall_scoring.

(** ** src/tools/skill_evaluator.py *)

Module skill_evaluator.

Definition evaluate_single_skill (embed_model : SentenceTransformer)
    (job_skill : string) (candidate_skills : list string) : result value :=
  let job_norm := _norm job_skill in
  let cand_norm := map _norm candidate_skills in
  (* Lexical *)
  if contains job_norm cand_norm then
    Ok (VDict [("job_skill", VStr job_skill);
               ("best_candidate_skill", VStr job_skill);
               ("classification", VStr "match");
               ("similarity", VFloat 1.0)])
  else
    (* Semantic *)
    job_skill_embed <- encode embed_model job_norm ;;
    candidate_skill_embed <- encode_batch embed_model cand_norm ;;
    sims <- similarity embed_model job_skill_embed candidate_skill_embed ;;
    max_sim_idx <- argmax sims ;;
    max_sim_val <- getitem sims max_sim_idx ;;
    if Qgeb max_sim_val (semantic_match THRESHOLDS) then
      best <- getitem candidate_skills max_sim_idx ;;
      Ok (VDict [("job_skill", VStr job_skill);
                 ("best_candidate_skill", VStr best);
                 ("classification", VStr "match");
                 ("similarity", VFloat max_sim_val)])
    else if Qgtb max_sim_val (skill_transferable_min THRESHOLDS)
            && Qltb max_sim_val (semantic_match THRESHOLDS) then
      best <- getitem candidate_skills max_sim_idx ;;
      Ok (VDict [("job_skill", VStr job_skill);
                 ("best_candidate_skill", VStr best);
                 ("classification", VStr "transferable");
                 ("similarity", VFloat max_sim_val)])
    else
      best <- getitem candidate_skills max_sim_idx ;;
      Ok (VDict [("job_skill", VStr job_skill);
                 ("best_candidate_skill", VStr best);
                 ("classification", VStr "missing");
                 ("similarity", VInt 0)]).

End skill_evaluator.

(** ** src/tools/education_evaluator.py *)

Module education_evaluator.

(** [not ad_required_qualification]: [None] or the empty string. *)
Definition requirement_missing (ad_required_qualification : option string)
  : bool :=
  match ad_required_qualification with
  | None => true
  | Some s => negb (truthy s)
  end.

Definition score_education_and_qualification
    (embed_model : SentenceTransformer)
    (ad_required_qualification : option string)
    (candidate_qualification : list string)
    (education_or_qualification : string) : result value :=
  let key := (education_or_qualification ++ "_required")%string in
  if requirement_missing ad_required_qualification then
    (* Missing requirement: neutral *)
    first <- getitem candidate_qualification 0 ;;
    Ok (VDict [(key, VNone);
               ("best_candidate_match", VStr first);
               ("score", VFloat 70.0);
               ("note", VStr ("Job does not specify "
                                ++ education_or_qualification
                                ++ " requirement."))])
  else
    match ad_required_qualification with
    | None => Raise TypeError
    | Some required =>
        match candidate_qualification with
        | [] =>
            (* Candidate missing detail *)
            Ok (VDict [(key, VStr required);
                       ("best_candidate_match", VNone);
                       ("score", VFloat 50.0);
                       ("note", VStr ("Candidate "
                                        ++ education_or_qualification
                                        ++ " not specified."))])
        | _ =>
            let ad_norm := _norm required in
            let cand_norm := map _norm candidate_qualification in
            (* Lexical *)
            if contains ad_norm cand_norm then
              Ok (VDict [(key, VStr required);
                         ("best_candidate_match", VStr required);
                         ("score", VInt 100);
                         ("note", VStr ("Job does not specify "
                                          ++ education_or_qualification
                                          ++ " requirement."))])
            else
              (* Semantic *)
              ad_education_embed <- encode embed_model ad_norm ;;
              candidate_education_embed <-
                encode_batch embed_model cand_norm ;;
              sims <- similarity embed_model ad_education_embed
                        candidate_education_embed ;;
              max_sim_idx <- argmax sims ;;
              max_sim_val <- getitem sims max_sim_idx ;;
              if Qgeb max_sim_val (semantic_match THRESHOLDS) then
                best <- getitem candidate_qualification max_sim_idx ;;
                Ok (VDict [(key, VStr required);
                           ("best_candidate_match", VStr best);
                           ("score", VInt 100);
                           ("note", VStr "Candidate meets requirement.")])
              else if Qgtb max_sim_val
                        (education_partial_match_min THRESHOLDS)
                      && Qltb max_sim_val (semantic_match THRESHOLDS) then
                best <- getitem candidate_qualification max_sim_idx ;;
                Ok (VDict [(key, VStr required);
                           ("best_candidate_match", VStr best);
                           ("score", VInt 70);
                           ("note",
                            VStr "Candidate partially meets requirement.")])
              else
                best <- getitem candidate_qualification max_sim_idx ;;
                Ok (VDict [(key, VStr required);
                           ("best_candidate_match", VStr best);
                           ("score", VInt 0);
                           ("note",
                            VStr "Candidate does not meet requirement.")])
        end
    end.

End education_evaluator.

(** ** src/models.py

    One module per Pydantic class, so that the fields keep their names.
    [datetime] values are opaque instants. *)

Definition datetime : Type := Z.

Module PIIEntity.
Record t : Type := {
  entity_type : string;
  text : string;
  start_char : Z;
  end_char : Z;
  confidence : Q;
  replacement : string
}.

(** The constructor validates [confidence] ([ge=0.0, le=100.0]). *)
Definition new (entity_type text : string) (start_char end_char : Z)
    (confidence : Q) (replacement : string) : result t :=
  if Qleb 0 confidence && Qleb confidence 100 then
    Ok {| entity_type := entity_type; text := text;
          start_char := start_char; end_char := end_char;
          confidence := confidence; replacement := replacement |}
  else Raise (ValidationError "confidence").
End PIIEntity.

Module CandidateDetail.
Record t : Type := {
  id : string;
  name : string;
  email : string;
  phone : string;
  url : list string;
  location : string
}.

(** [CandidateDetail(id=...)], every other field at its default. *)
Definition new (id : string) : t :=
  {| id := id; name := EmptyString; email := EmptyString;
     phone := EmptyString; url := []; location := EmptyString |}.

Definition set_name (d : t) (v : string) : t :=
  {| id := id d; name := v; email := email d; phone := phone d;
     url := url d; location := location d |}.
Definition set_email (d : t) (v : string) : t :=
  {| id := id d; name := name d; email := v; phone := phone d;
     url := url d; location := location d |}.
Definition set_phone (d : t) (v : string) : t :=
  {| id := id d; name := name d; email := email d; phone := v;
     url := url d; location := location d |}.
Definition set_url (d : t) (v : list string) : t :=
  {| id := id d; name := name d; email := email d; phone := phone d;
     url := v; location := location d |}.
Definition set_location (d : t) (v : string) : t :=
  {| id := id d; name := name d; email := email d; phone := phone d;
     url := url d; location := v |}.
End CandidateDetail.

Module RedacteddResume.
Record t : Type := {
  id : string;
  original_text : string;
  redacted_text : string;
  pii_entities : list PIIEntity.t;
  processed_at : datetime
}.
End RedacteddResume.

Module EntityEvidence.
Record t : Type := {
  evidence_text : string;
  llm_confidence : Q
}.
End EntityEvidence.

Module Education.
Record t : Type := {
  institution : string;
  degree : option string;
  field_of_study : option string;
  graduation_year : option Z;
  evidence : EntityEvidence.t
}.
End Education.

Module Experience.
Record t : Type := {
  company : string;
  title : string;
  start_date : option string;
  end_date : option string;
  duration_months : option Z;
  description : option string;
  responsibilities : list string;
  evidence : EntityEvidence.t
}.
End Experience.

Module ParsedResume.
Record t : Type := {
  candidate_id : string;
  summary : option string;
  skills : list string;
  skills_evidence : list (string * EntityEvidence.t);
  education : list Education.t;
  experience : list Experience.t;
  qualifications : list string;
  qualifications_evidence : list (string * EntityEvidence.t);
  total_experience_years : option Q;
  total_experience_evidence : EntityEvidence.t;
  llm_confidence_overall : Q
}.

Definition set_candidate_id (r : t) (v : string) : t :=
  {| candidate_id := v; summary := summary r; skills := skills r;
     skills_evidence := skills_evidence r; education := education r;
     experience := experience r; qualifications := qualifications r;
     qualifications_evidence := qualifications_evidence r;
     total_experience_years := total_experience_years r;
     total_experience_evidence := total_experience_evidence r;
     llm_confidence_overall := llm_confidence_overall r |}.
End ParsedResume.

Module ParsedJob.
Record t : Type := {
  job_id : string;
  company : option string;
  role_title : list string;
  role_title_evidence : list EntityEvidence.t;
  seniority : list string;
  seniority_evidence : list EntityEvidence.t;
  industry : list string;
  industry_evidence : list EntityEvidence.t;
  required_skills : list string;
  required_skills_evidence : list EntityEvidence.t;
  preferred_skills : list string;
  preferred_skills_evidence : list EntityEvidence.t;
  required_experience_years : option Q;
  required_experience_years_evidence : option EntityEvidence.t;
  required_experience_kind : option string;
  required_experience_kind_evidence : option EntityEvidence.t;
  education_requirement : option string;
  education_requirement_evidence : option EntityEvidence.t;
  other_qualifications : list string;
  other_qualifications_evidence : list EntityEvidence.t;
  responsibilities : list string;
  responsibilities_evidence : list EntityEvidence.t;
  llm_confidence_overall : Q;
  description : string
}.

Definition set_job_id (j : t) (v : string) : t :=
  {| job_id := v; company := company j; role_title := role_title j;
     role_title_evidence := role_title_evidence j;
     seniority := seniority j; seniority_evidence := seniority_evidence j;
     industry := industry j; industry_evidence := industry_evidence j;
     required_skills := required_skills j;
     required_skills_evidence := required_skills_evidence j;
     preferred_skills := preferred_skills j;
     preferred_skills_evidence := preferred_skills_evidence j;
     required_experience_years := required_experience_years j;
     required_experience_years_evidence :=
       required_experience_years_evidence j;
     required_experience_kind := required_experience_kind j;
     required_experience_kind_evidence :=
       required_experience_kind_evidence j;
     education_requirement := education_requirement j;
     education_requirement_evidence := education_requirement_evidence j;
     other_qualifications := other_qualifications j;
     other_qualifications_evidence := other_qualifications_evidence j;
     responsibilities := responsibilities j;
     responsibilities_evidence := responsibilities_evidence j;
     llm_confidence_overall := llm_confidence_overall j;
     description := description j |}.
End ParsedJob.

Module SkillMatch.
Record t : Type := {
  skill : string;
  result_ : string;
  similarity : option Q;
  resume_evidence : option EntityEvidence.t;
  job_evidence : option EntityEvidence.t
}.
End SkillMatch.

Module ExperienceAssessment.
Record t : Type := {
  years_score : Q;
  kind_score : Q;
  experience_match_score : Q;
  llm_confidence : Q;
  evidence : option EntityEvidence.t
}.
End ExperienceAssessment.

Module QualificationsAssessment.
Record t : Type := {
  education_match_score : Q;
  other_qualifications_score : Q;
  llm_confidence : Q;
  evidence : option EntityEvidence.t
}.
End QualificationsAssessment.

Module SeniorityAssessment.
Record t : Type := {
  status : string;
  llm_confidence : Q;
  evidence : option EntityEvidence.t;
  note : string
}.
End SeniorityAssessment.

Module FitAnalysis.
Record t : Type := {
  candidate_id : string;
  job_id : string;
  overall_fit_score : Q;
  key_strengths : list string;
  recommendation : string;
  recommendation_confidence : Q;
  skill_match_score : Q;
  experience_match_score : Q;
  education_match_score : Q;
  skill_match : SkillMatch.t;
  experience_match : ExperienceAssessment.t;
  qualifications_match : QualificationsAssessment.t;
  seniority_match : SeniorityAssessment.t;
  analysed_at : datetime
}.

Definition set_ids (f : t) (cid jid : string) : t :=
  {| candidate_id := cid; job_id := jid;
     overall_fit_score := overall_fit_score f;
     key_strengths := key_strengths f;
     recommendation := recommendation f;
     recommendation_confidence := recommendation_confidence f;
     skill_match_score := skill_match_score f;
     experience_match_score := experience_match_score f;
     education_match_score := education_match_score f;
     skill_match := skill_match f;
     experience_match := experience_match f;
     qualifications_match := qualifications_match f;
     seniority_match := seniority_match f;
     analysed_at := analysed_at f |}.
End FitAnalysis.

Module SummaryGenerated.
Record t : Type := {
  candidate_id : string;
  job_id : string;
  summary : string
}.

Definition set_ids (s : t) (cid jid : string) : t :=
  {| candidate_id := cid; job_id := jid; summary := summary s |}.
End SummaryGenerated.

(** What the name [candidate_details] may be bound to when the report is
    built: an instance of the class, or the class object itself. *)
Inductive contact_binding : Type :=
| Instance (d : CandidateDetail.t)
| ClassObject.

Module AnalysisReport.
Record t : Type := {
  candidate_details : CandidateDetail.t;
  job_id : string;
  summary : SummaryGenerated.t;
  fit_analysis : FitAnalysis.t;
  resume : ParsedResume.t;
  job : ParsedJob.t;
  generated_at : datetime
}.

(** The constructor validates each argument against the declared
    field type: a [CandidateDetail] field takes an instance of the
    class, and nothing else that is modelled here. *)
Definition new (candidate_details : contact_binding) (job_id : string)
    (summary : SummaryGenerated.t) (fit_analysis : FitAnalysis.t)
    (resume : ParsedResume.t) (job : ParsedJob.t)
    (generated_at : datetime) : result t :=
  match candidate_details with
  | Instance d =>
      Ok {| candidate_details := d; job_id := job_id; summary := summary;
            fit_analysis := fit_analysis; resume := resume; job := job;
            generated_at := generated_at |}
  | ClassObject => Raise (ValidationError "candidate_details")
  end.

(** [report.summary = v] *)
Definition set_summary (r : t) (v : SummaryGenerated.t) : t :=
  {| candidate_details := candidate_details r; job_id := job_id r;
     summary := v; fit_analysis := fit_analysis r; resume := resume r;
     job := job r; generated_at := generated_at r |}.
End AnalysisReport.

(** ** Regular expressions

    The fragment of Python's [re] that the three patterns of
    [PIIDetector] use: a backtracking matcher with greedy quantifiers
    and ordered alternation.  Bounded repetitions are unfolded into
    nested optional parts, which keeps the order in which [re] tries
    them. *)

Module re.

Inductive regex : Type :=
| Eps
| Class (p : ascii -> bool)
| Seq (r1 r2 : regex)
| Alt (r1 r2 : regex)
| Opt (r : regex)
| Star (r : regex)
| WordBoundary
| NotAfter (c : ascii).

(** A position in the subject: the character before it, the rest of
    the subject, and its offset. *)
Record cursor : Type := {
  prev : option ascii;
  rest : list ascii;
  pos : nat
}.

Definition at_start (s : string) : cursor :=
  {| prev := None; rest := list_ascii_of_string s; pos := 0 |}.

Definition advance (c : cursor) : option cursor :=
  match rest c with
  | [] => None
  | a :: t => Some {| prev := Some a; rest := t; pos := S (pos c) |}
  end.

Definition word_before (c : cursor) : bool :=
  match prev c with
  | Some a => isword a
  | None => false
  end.

Definition word_after (c : cursor) : bool :=
  match rest c with
  | a :: _ => isword a
  | [] => false
  end.

Definition orelse {A} (x : option A) (y : option A) : option A :=
  match x with
  | Some _ => x
  | None => y
  end.

(** [run r c k]: match [r] at [c], then continue with [k]; the first
    alternative whose continuation succeeds wins.  An iteration of a
    star that consumes nothing is abandoned. *)
Fixpoint run (r : regex) (c : cursor) (k : cursor -> option cursor)
  {struct r} : option cursor :=
  match r with
  | Eps => k c
  | Class p =>
      match rest c with
      | a :: t =>
          if p a then k {| prev := Some a; rest := t; pos := S (pos c) |}
          else None
      | [] => None
      end
  | Seq r1 r2 => run r1 c (fun c' => run r2 c' k)
  | Alt r1 r2 => orelse (run r1 c k) (run r2 c k)
  | Opt r1 => orelse (run r1 c k) (k c)
  | Star r1 =>
      (fix loop (fuel : nat) (c : cursor) {struct fuel} : option cursor :=
         match fuel with
         | O => k c
         | S fuel' =>
             orelse
               (run r1 c (fun c' =>
                  if (pos c <? pos c')%nat then loop fuel' c' else None))
               (k c)
         end) (List.length (rest c)) c
  | WordBoundary => if xorb (word_before c) (word_after c) then k c else None
  | NotAfter a =>
      match prev c with
      | Some b => if Ascii.eqb a b then None else k c
      | None => k c
      end
  end.

(** A match object: [start()], [end()] and [group()]. *)
Record Match : Type := {
  start : nat;
  end_ : nat;
  group : string
}.

Fixpoint skip (n : nat) (c : cursor) : cursor :=
  match n with
  | O => c
  | S n' =>
      match advance c with
      | Some c' => skip n' c'
      | None => c
      end
  end.

(** [pattern.finditer(text)]: the leftmost match, then the leftmost
    match starting where it ended, and so on. *)
Fixpoint finditer_from (fuel : nat) (r : regex) (c : cursor) : list Match :=
  match fuel with
  | O => []
  | S fuel' =>
      match run r c (fun c' => Some c') with
      | Some c' =>
          let m := {| start := pos c; end_ := pos c';
                      group := string_of_list_ascii
                                 (firstn (pos c' - pos c) (rest c)) |} in
          if (pos c <? pos c')%nat
          then m :: finditer_from fuel' r c'
          else m :: finditer_from fuel' r (skip 1 c)
      | None =>
          match advance c with
          | Some c' => finditer_from fuel' r c'
          | None => []
          end
      end
  end.

Definition finditer (r : regex) (s : string) : list Match :=
  finditer_from (S (String.length s)) r (at_start s).

(** *** Pattern syntax *)

Definition chr (a : ascii) : regex := Class (Ascii.eqb a).
Definition plus (r : regex) : regex := Seq r (Star r).

Fixpoint seqs (rs : list regex) : regex :=
  match rs with
  | [] => Eps
  | [r] => r
  | r :: t => Seq r (seqs t)
  end.

Fixpoint lit (s : string) : regex :=
  match s with
  | EmptyString => Eps
  | String a EmptyString => chr a
  | String a t => Seq (chr a) (lit t)
  end.

(** [r{m,m+n}] *)
Fixpoint upto (n : nat) (r : regex) : regex :=
  match n with
  | O => Eps
  | S n' => Opt (Seq r (upto n' r))
  end.

Fixpoint exactly (m : nat) (r : regex) : regex :=
  match m with
  | O => Eps
  | S m' => Seq r (exactly m' r)
  end.

Definition repeat (m n : nat) (r : regex) : regex :=
  Seq (exactly m r) (upto (n - m) r).

Definition at_least (m : nat) (r : regex) : regex :=
  Seq (exactly m r) (Star r).

(** [re.IGNORECASE]: a character is tried in both cases. *)
Fixpoint ignorecase (r : regex) : regex :=
  match r with
  | Class p => Class (fun a => p a || p (lower_char a) || p (upper_char a))
  | Seq r1 r2 => Seq (ignorecase r1) (ignorecase r2)
  | Alt r1 r2 => Alt (ignorecase r1) (ignorecase r2)
  | Opt r1 => Opt (ignorecase r1)
  | Star r1 => Star (ignorecase r1)
  | _ => r
  end.

End re.

(** ** What a match consumes *)

Module re_facts.

Import re.

(** A lower bound on the number of characters a pattern consumes. *)
Fixpoint min_len (r : regex) : nat :=
  match r with
  | Class _ => 1
  | Seq r1 r2 => min_len r1 + min_len r2
  | Alt r1 r2 => Nat.min (min_len r1) (min_len r2)
  | _ => 0
  end.

(** [c'] lies at least [m] characters after [c] in the same subject. *)
Definition advanced (m : nat) (c c' : cursor) : Prop :=
  exists n,
    (m <= n)%nat /\ (n <= List.length (rest c))%nat
    /\ pos c' = (pos c + n)%nat /\ rest c' = skipn n (rest c).

End re_facts.

(** ** src/pii_redactor.py *)

Module pii_redactor.

Import re.

(** One aggregated span of the token-classification pipeline. *)
Record ner_span : Type := {
  entity_group : string;
  word : string;
  start : Z;
  end_ : Z;
  score : Q
}.

Definition in_set (chars : string) (a : ascii) : bool :=
  existsb (Ascii.eqb a) (list_ascii_of_string chars).

Definition quote : ascii := ascii_of_nat 34.

(** [\b[A-Za-z0-9._%+-]+@[A-Za-z0-9.-]+\.[A-Za-z]{2,}\b] *)
Definition email_pattern : regex :=
  seqs [WordBoundary;
        plus (Class (fun a => isalnum a || in_set "._%+-" a));
        chr "@";
        plus (Class (fun a => isalnum a || in_set ".-" a));
        chr ".";
        at_least 2 (Class isalpha);
        WordBoundary].

Definition sep : regex := Opt (Class (fun a => isspace a || in_set "-" a)).

(** [\b(?:\+?\d{1,3}[\s-]?)?(?:\(?\d{2,4}\)?[\s-]?)?\d{3,4}[\s-]?\d{3,4}\b] *)
Definition phone_pattern : regex :=
  seqs [WordBoundary;
        Opt (seqs [Opt (chr "+"); repeat 1 3 (Class isdigit); sep]);
        Opt (seqs [Opt (chr "("); repeat 2 4 (Class isdigit);
                   Opt (chr ")"); sep]);
        repeat 3 4 (Class isdigit);
        sep;
        repeat 3 4 (Class isdigit);
        WordBoundary].

Definition domain_char : regex :=
  Class (fun a => islower a || isdigit a || in_set "-" a).
Definition domain : regex :=
  Seq (plus domain_char) (plus (Seq (chr ".") (plus domain_char))).
Definition path_char : regex :=
  Class (fun a => negb (isspace a || in_set "<>'" a || Ascii.eqb a quote)).

(** Not after an at-sign, at a word boundary: either a scheme
    ([http://], [https://]) or [www.], a dotted domain and an optional
    path; or a bare dotted domain followed by a non-empty path; then a
    word boundary.  Compiled with [re.IGNORECASE]. *)
Definition url_pattern : regex :=
  ignorecase
    (seqs [NotAfter "@";
           WordBoundary;
           Alt (seqs [Alt (seqs [lit "http"; Opt (chr "s"); lit "://"])
                          (lit "www.");
                      domain;
                      Opt (Seq (chr "/") (Star path_char))])
               (seqs [domain; chr "/"; plus path_char]);
           WordBoundary]).

(** The detector object: the loaded pipeline and the three compiled
    patterns. *)
Record PIIDetector : Type := {
  ner : string -> result (list ner_span)
}.

Definition mapping : list (string * string) :=
  [("PERSON", "NAME"); ("FIRSTNAME", "NAME"); ("LASTNAME", "NAME");
   ("NAME", "NAME"); ("EMAIL", "EMAIL"); ("PHONE_NUM", "PHONE");
   ("URL", "URL"); ("ADDRESS", "LOCATION"); ("LOCATION", "LOCATION");
   ("LOC", "LOCATION"); ("GPE", "LOCATION")].

Fixpoint get (k : string) (m : list (string * string)) (default : string)
  : string :=
  match m with
  | [] => default
  | (k', v) :: t => if String.eqb k k' then v else get k t default
  end.

Definition _normalise_label (label : string) : string :=
  get (upper label) mapping (upper label).

Definition patterns : list (string * regex) :=
  [("EMAIL", email_pattern); ("PHONE", phone_pattern);
   ("URL", url_pattern)].

(** [results.append(x)] for each element produced by a fallible
    constructor, left to right. *)
Fixpoint collect {A B} (f : A -> result B) (l : list A) : result (list B) :=
  match l with
  | [] => Ok []
  | a :: t => b <- f a ;; bs <- collect f t ;; Ok (b :: bs)
  end.

Definition entity_of_match (entity_type : string) (m : Match)
  : result PIIEntity.t :=
  PIIEntity.new entity_type (group m) (Z.of_nat (re.start m))
    (Z.of_nat (re.end_ m)) 1.0 ("[" ++ entity_type ++ "]").

Fixpoint _detect_with_regex_loop (ps : list (string * regex)) (text : string)
  : result (list PIIEntity.t) :=
  match ps with
  | [] => Ok []
  | (entity_type, pattern) :: t =>
      here <- collect (entity_of_match entity_type) (finditer pattern text) ;;
      later <- _detect_with_regex_loop t text ;;
      Ok (here ++ later)
  end.

Definition _detect_with_regex (text : string) : result (list PIIEntity.t) :=
  _detect_with_regex_loop patterns text.

(** The dictionary [current_entity]. *)
Record buffer : Type := {
  b_entity_type : string;
  b_entity_group : string;
  b_text : string;
  b_start_char : Z;
  b_end_char : Z;
  b_confidence : Q;
  b_replacement : string
}.

(** The entity built from the buffer's keys; the key [entity_group] is
    not a field of the class and is ignored. *)
Definition entity_of_buffer (b : buffer) : result PIIEntity.t :=
  PIIEntity.new (b_entity_type b) (b_text b) (b_start_char b)
    (b_end_char b) (b_confidence b) (b_replacement b).

(** The variables of the loop of [detect_pii]. *)
Record loop_state : Type := {
  pii_entities : list PIIEntity.t;
  occupied_spans : list (Z * Z);
  current_entity : option buffer
}.

(** [any(not (end <= s or start >= e) for s, e in occupied_spans)] *)
Definition overlaps_occupied (start end_ : Z) (occupied : list (Z * Z))
  : bool :=
  existsb (fun se => negb ((end_ <=? fst se)%Z || (start >=? snd se)%Z))
    occupied.

Definition is_name_or_location (normalised : string) : bool :=
  String.eqb normalised "NAME" || String.eqb normalised "LOCATION".

(** The condition under which the span opens a new buffer. *)
Definition starts_new (cur : option buffer) (normalised : string)
    (start : Z) : bool :=
  match cur with
  | None => true
  | Some b =>
      negb (String.eqb (b_entity_type b) normalised)
      || (start >? b_end_char b + 1)%Z
  end.

Definition flush (st : loop_state) : result loop_state :=
  match current_entity st with
  | None => Ok st
  | Some b =>
      e <- entity_of_buffer b ;;
      Ok {| pii_entities := pii_entities st ++ [e];
            occupied_spans :=
              occupied_spans st ++ [(b_start_char b, b_end_char b)];
            current_entity := Some b |}
  end.

Definition new_buffer (normalised : string) (ent : ner_span) : buffer :=
  {| b_entity_type := normalised;
     b_entity_group := entity_group ent;
     b_text := word ent;
     b_start_char := start ent;
     b_end_char := end_ ent;
     b_confidence := score ent;
     b_replacement := "[" ++ normalised ++ "]" |}.

Definition merge (b : buffer) (ent : ner_span) : buffer :=
  let text :=
    if String.eqb (entity_group ent) (b_entity_group b)
    then word ent else (" " ++ word ent)%string in
  {| b_entity_type := b_entity_type b;
     b_entity_group := entity_group ent;
     b_text := (b_text b ++ text)%string;
     b_start_char := b_start_char b;
     b_end_char := end_ ent;
     b_confidence := Py.max (b_confidence b) (score ent);
     b_replacement := b_replacement b |}.

(** One iteration of [for ent in entities]. *)
Definition step (st : loop_state) (ent : ner_span) : result loop_state :=
  let normalised := _normalise_label (entity_group ent) in
  if negb (is_name_or_location normalised) then Ok st
  else if overlaps_occupied (start ent) (end_ ent) (occupied_spans st)
  then Ok st
  else if starts_new (current_entity st) normalised (start ent) then
    st' <- flush st ;;
    Ok {| pii_entities := pii_entities st';
          occupied_spans := occupied_spans st';
          current_entity := Some (new_buffer normalised ent) |}
  else
    match current_entity st with
    | Some b =>
        Ok {| pii_entities := pii_entities st;
              occupied_spans := occupied_spans st;
              current_entity := Some (merge b ent) |}
    | None => Ok st
    end.

Fixpoint run_loop (st : loop_state) (entities : list ner_span)
  : result loop_state :=
  match entities with
  | [] => Ok st
  | ent :: t => st' <- step st ent ;; run_loop st' t
  end.

Definition detect_pii (self : PIIDetector) (text : string)
  : result (list PIIEntity.t) :=
  (* Regex-based detection (EMAIL, PHONE, URL) *)
  regex_entities <- _detect_with_regex text ;;
  let occupied :=
    map (fun e => (PIIEntity.start_char e, PIIEntity.end_char e))
      regex_entities in
  (* NER-based detection (NAME, LOCATION) *)
  entities <- ner self text ;;
  st <- run_loop {| pii_entities := regex_entities;
                    occupied_spans := occupied;
                    current_entity := None |} entities ;;
  (* Flush final entity *)
  st' <- flush st ;;
  Ok (pii_entities st').

(** [sorted(l, key=lambda e: e.start_char, reverse=True)]: stable, so
    entities with the same start keep their relative order. *)
Fixpoint insert_desc (e : PIIEntity.t) (l : list PIIEntity.t)
  : list PIIEntity.t :=
  match l with
  | [] => [e]
  | h :: t =>
      if (PIIEntity.start_char e <? PIIEntity.start_char h)%Z
      then h :: insert_desc e t
      else e :: l
  end.

Fixpoint sorted_desc (l : list PIIEntity.t) : list PIIEntity.t :=
  match l with
  | [] => []
  | e :: t => insert_desc e (sorted_desc t)
  end.

(** The body of the redaction loop. *)
Definition splice (redacted_text : string) (entity : PIIEntity.t) : string :=
  (slice_to redacted_text (PIIEntity.start_char entity)
   ++ PIIEntity.replacement entity
   ++ slice_from redacted_text (PIIEntity.end_char entity))%string.

Definition redact (text : string) (pii_entities : list PIIEntity.t)
  : string :=
  fold_left splice (sorted_desc pii_entities) text.

(** One iteration of the loop that fills the contact card. *)
Definition fill (detail : CandidateDetail.t) (entity : PIIEntity.t)
  : CandidateDetail.t :=
  let ty := PIIEntity.entity_type entity in
  let is_a t := String.eqb ty t in
  if is_a "NAME" && negb (truthy (CandidateDetail.name detail)) then
    CandidateDetail.set_name detail (PIIEntity.text entity)
  else if is_a "EMAIL" && negb (truthy (CandidateDetail.email detail)) then
    CandidateDetail.set_email detail (PIIEntity.text entity)
  else if is_a "PHONE" && negb (truthy (CandidateDetail.phone detail)) then
    CandidateDetail.set_phone detail (PIIEntity.text entity)
  else if is_a "LOCATION"
          && negb (truthy (CandidateDetail.location detail)) then
    CandidateDetail.set_location detail (PIIEntity.text entity)
  else if is_a "URL"
          && match CandidateDetail.url detail with [] => true | _ => false end
  then CandidateDetail.set_url detail [PIIEntity.text entity]
  else if is_a "URL" then
    CandidateDetail.set_url detail
      (CandidateDetail.url detail ++ [PIIEntity.text entity])
  else detail.

(** [now] stands for [datetime.now()], [stamp] for its rendering by
    [strftime('%Y%m%d_%H%M%S')]. *)
Definition process_resume (self : PIIDetector) (now : datetime)
    (stamp : string) (text : string) (candidate_id : string)
  : result (RedacteddResume.t * CandidateDetail.t) :=
  (* Extract PII *)
  pii_entities <- detect_pii self text ;;
  (* Redact resume *)
  let redacted_text := redact text pii_entities in
  let resume_id :=
    if truthy candidate_id then candidate_id
    else ("cand_" ++ stamp)%string in
  let processed_resume :=
    {| RedacteddResume.id := resume_id;
       RedacteddResume.original_text := text;
       RedacteddResume.redacted_text := redacted_text;
       RedacteddResume.pii_entities := pii_entities;
       RedacteddResume.processed_at := now |} in
  (* Process candidate details *)
  let detail := fold_left fill pii_entities (CandidateDetail.new resume_id) in
  Ok (processed_resume, detail).

End pii_redactor.

(** ** Spans and substitution

    The vocabulary of the statements about redaction.  [substitute] is
    the reference meaning of redaction: it reads the original text once,
    left to right, and does not depend on any processing order. *)

(** The span lies in the text and is not empty. *)
Definition valid_span (text : string) (e : PIIEntity.t) : Prop :=
  (0 <= PIIEntity.start_char e < PIIEntity.end_char e)%Z
  /\ (PIIEntity.end_char e <= Z.of_nat (String.length text))%Z.

(** Two spans that do not overlap, in the sense of the test applied by
    [detect_pii]. *)
Definition disjoint (a b : PIIEntity.t) : Prop :=
  (PIIEntity.end_char a <= PIIEntity.start_char b)%Z
  \/ (PIIEntity.end_char b <= PIIEntity.start_char a)%Z.

Definition non_overlapping (l : list PIIEntity.t) : Prop :=
  ForallOrdPairs disjoint l.

Definition starts_at (i : nat) (e : PIIEntity.t) : bool :=
  (PIIEntity.start_char e =? Z.of_nat i)%Z.

Definition covers (i : nat) (e : PIIEntity.t) : bool :=
  (PIIEntity.start_char e <=? Z.of_nat i)%Z
  && (Z.of_nat i <? PIIEntity.end_char e)%Z.

(** At offset [i]: the replacement of the entity that starts there, if
    any; then the character itself unless a span covers it. *)
Fixpoint substitute_from (i : nat) (chars : list ascii)
    (ents : list PIIEntity.t) : list ascii :=
  match chars with
  | [] => []
  | a :: t =>
      match find (starts_at i) ents with
      | Some e => list_ascii_of_string (PIIEntity.replacement e)
      | None => []
      end
      ++ (if existsb (covers i) ents then [] else [a])
      ++ substitute_from (S i) t ents
  end.

Definition substitute (text : string) (ents : list PIIEntity.t) : string :=
  string_of_list_ascii
    (substitute_from 0 (list_ascii_of_string text) ents).

(** The loop body of the redaction on lists of characters, for spans
    with non-negative bounds. *)
Definition splice_chars (chars : list ascii) (e : PIIEntity.t) : list ascii :=
  firstn (Z.to_nat (PIIEntity.start_char e)) chars
  ++ list_ascii_of_string (PIIEntity.replacement e)
  ++ skipn (Z.to_nat (PIIEntity.end_char e)) chars.

(** Every later element ends where an earlier one starts, or before. *)
Definition chain (l : list PIIEntity.t) : Prop :=
  StronglySorted
    (fun a b => (PIIEntity.end_char b <= PIIEntity.start_char a)%Z) l.

Definition descending (l : list PIIEntity.t) : Prop :=
  StronglySorted
    (fun a b => (PIIEntity.start_char b <= PIIEntity.start_char a)%Z) l.

Definition entity (ty txt : string) (s e : Z) (c : Q) : PIIEntity.t :=
  {| PIIEntity.entity_type := ty; PIIEntity.text := txt;
     PIIEntity.start_char := s; PIIEntity.end_char := e;
     PIIEntity.confidence := c;
     PIIEntity.replacement := "[" ++ ty ++ "]" |}.

(** A non-empty span that misses the segment [i, i + n). *)
Definition misses (i n : nat) (e : PIIEntity.t) : Prop :=
  (PIIEntity.start_char e < PIIEntity.end_char e)%Z
  /\ ((PIIEntity.end_char e <= Z.of_nat i)%Z
      \/ (Z.of_nat (i + n) <= PIIEntity.start_char e)%Z).

(** The span lies in a text of [n] characters; it may be empty. *)
Definition within (n : nat) (e : PIIEntity.t) : Prop :=
  (0 <= PIIEntity.start_char e <= PIIEntity.end_char e)%Z
  /\ (PIIEntity.end_char e <= Z.of_nat n)%Z.

(** The entity that [_detect_with_regex] builds from a match. *)
Definition of_match (entity_type : string) (m : re.Match) : PIIEntity.t :=
  entity entity_type (re.group m) (Z.of_nat (re.start m))
    (Z.of_nat (re.end_ m)) 1.0.

(** The matches of the three patterns, in the order of detection. *)
Definition regex_entities (text : string) : list PIIEntity.t :=
  map (of_match "EMAIL") (re.finditer pii_redactor.email_pattern text)
  ++ map (of_match "PHONE") (re.finditer pii_redactor.phone_pattern text)
  ++ map (of_match "URL") (re.finditer pii_redactor.url_pattern text).

Definition placeholder (e : PIIEntity.t) : string :=
  "[" ++ PIIEntity.entity_type e ++ "]".

Definition regex_type (ty : string) : Prop :=
  ty = "EMAIL" \/ ty = "PHONE" \/ ty = "URL".

(** ** Runs of statistical spans *)

(** The span is of a kept type and clear of every occupied span. *)
Definition kept (occupied : list (Z * Z)) (ent : pii_redactor.ner_span)
    (normalised : string) : Prop :=
  pii_redactor._normalise_label (pii_redactor.entity_group ent) = normalised
  /\ (normalised = "NAME" \/ normalised = "LOCATION")
  /\ forall s e, In (s, e) occupied ->
       (pii_redactor.end_ ent <= s)%Z \/ (pii_redactor.start ent >= e)%Z.

(** The span overlaps an occupied span. *)
Definition hits (occupied : list (Z * Z)) (ent : pii_redactor.ner_span)
  : Prop :=
  exists s e,
    In (s, e) occupied
    /\ ~ ((pii_redactor.end_ ent <= s)%Z \/ (pii_redactor.start ent >= e)%Z).

(** Each span of the run is kept, has the type [normalised], and starts
    at most one character after the end of the one before it. *)
Fixpoint adjacent_run (occupied : list (Z * Z)) (normalised : string)
    (end_prev : Z) (toks : list pii_redactor.ner_span) : Prop :=
  match toks with
  | [] => True
  | t :: rest =>
      kept occupied t normalised
      /\ (pii_redactor.start t <= end_prev + 1)%Z
      /\ adjacent_run occupied normalised (pii_redactor.end_ t) rest
  end.

(** The largest of [q] and the entries of [l], as [max] folds them. *)
Definition max_of (q : Q) (l : list Q) : Q := fold_left Py.max l q.

Definition span (group word : string) (s e : Z) (score : Q)
  : pii_redactor.ner_span :=
  {| pii_redactor.entity_group := group; pii_redactor.word := word;
     pii_redactor.start := s; pii_redactor.end_ := e;
     pii_redactor.score := score |}.

(** A detector whose pipeline returns the given spans. *)
Definition detector_returning (spans : list pii_redactor.ner_span)
  : pii_redactor.PIIDetector :=
  {| pii_redactor.ner := fun _ => Ok spans |}.

Definition detector_raising (e : exn) : pii_redactor.PIIDetector :=
  {| pii_redactor.ner := fun _ => Raise e |}.

(** The spans claimed by the regex detectors. *)
Definition regex_spans (text : string) : list (Z * Z) :=
  map (fun e => (PIIEntity.start_char e, PIIEntity.end_char e))
    (regex_entities text).

(** The entity that a run of spans [first :: rest] is flushed as. *)
Definition merged_entity (normalised : string)
    (first : pii_redactor.ner_span) (rest : list pii_redactor.ner_span)
  : PIIEntity.t :=
  let b := fold_left pii_redactor.merge rest
             (pii_redactor.new_buffer normalised first) in
  {| PIIEntity.entity_type := normalised;
     PIIEntity.text := pii_redactor.b_text b;
     PIIEntity.start_char := pii_redactor.start first;
     PIIEntity.end_char :=
       last (map pii_redactor.end_ rest) (pii_redactor.end_ first);
     PIIEntity.confidence :=
       max_of (pii_redactor.score first) (map pii_redactor.score rest);
     PIIEntity.replacement := "[" ++ normalised ++ "]" |}.

(** ** The language-model agents (src/agents)

    An agent run is an external call: it receives the prompt that the
    source formats from its arguments and returns a validated instance
    of its output type, or raises. *)

Module agents.

(** The ordered log of messages that a run returns. *)
Definition thread : Type := list string.

(** The prompts, by what the source interpolates into them. *)
Inductive prompt : Type :=
| ParseResume (candidate_id resume_text : string)
| ParseJob (job_id job_ad_text : string)
| Match (resume : ParsedResume.t) (job : ParsedJob.t)
| Summarise (resume : ParsedResume.t) (job : ParsedJob.t)
    (fit_analysis : FitAnalysis.t)
| Revise (resume : ParsedResume.t) (job : ParsedJob.t)
    (fit_analysis : FitAnalysis.t) (recruiter_feedback : string).

Record Agents : Type := {
  resume_agent : prompt -> result ParsedResume.t;
  job_agent : prompt -> result ParsedJob.t;
  matcher_agent : prompt -> result FitAnalysis.t;
  summary_agent :
    prompt -> option thread -> result (SummaryGenerated.t * thread)
}.

(** Each function re-raises what the run raised ([except ...: raise])
    and then overwrites the identifiers of the output. *)

Definition parse_resume (a : Agents) (resume_text candidate_id : string)
  : result ParsedResume.t :=
  r <- resume_agent a (ParseResume candidate_id resume_text) ;;
  Ok (ParsedResume.set_candidate_id r candidate_id).

Definition parse_job (a : Agents) (job_ad_text job_id : string)
  : result ParsedJob.t :=
  r <- job_agent a (ParseJob job_id job_ad_text) ;;
  Ok (ParsedJob.set_job_id r job_id).

Definition match_candidate_to_job (a : Agents) (resume : ParsedResume.t)
    (job : ParsedJob.t) : result FitAnalysis.t :=
  r <- matcher_agent a (Match resume job) ;;
  Ok (FitAnalysis.set_ids r (ParsedResume.candidate_id resume)
        (ParsedJob.job_id job)).

Definition generate_summary (a : Agents) (fit_analysis : FitAnalysis.t)
    (resume : ParsedResume.t) (job : ParsedJob.t)
    (recruiter_feedback : option string) (message_history : option thread)
  : result (SummaryGenerated.t * thread) :=
  r <- match recruiter_feedback with
       | None => summary_agent a (Summarise resume job fit_analysis) None
       | Some feedback =>
           summary_agent a (Revise resume job fit_analysis feedback)
             message_history
       end ;;
  let '(result_output, result_message_thread) := r in
  Ok (SummaryGenerated.set_ids result_output
        (ParsedResume.candidate_id resume) (ParsedJob.job_id job),
      result_message_thread).

End agents.

(** ** src/orchestrator.py *)

Module orchestrator.

Import agents.

Record MatchingOrchestrator : Type := {
  pii_detector : pii_redactor.PIIDetector;
  message_thread : option thread
}.

(** The mutable state a call can touch: the orchestrator object, the
    report objects (a report is referred to by its position in
    [reports]) and the status lines delivered to the progress sink. *)
Record world : Type := {
  self : MatchingOrchestrator;
  reports : list AnalysisReport.t;
  delivered : list string
}.

(** A computation that reads and writes the world and may raise; what
    it wrote before raising stays written. *)
Definition M (A : Type) : Type := world -> result A * world.

Definition ret {A} (a : A) : M A := fun w => (Ok a, w).
Definition raise {A} (e : exn) : M A := fun w => (Raise e, w).
Definition lift {A} (r : result A) : M A := fun w => (r, w).

Definition bindM {A B} (m : M A) (k : A -> M B) : M B :=
  fun w =>
    match m w with
    | (Ok a, w') => k a w'
    | (Raise e, w') => (Raise e, w')
    end.

Definition try_exceptM {A} (body : M A) (handler : exn -> M A) : M A :=
  fun w =>
    match body w with
    | (Ok a, w') => (Ok a, w')
    | (Raise e, w') => handler e w'
    end.

Notation "x <<- m ;; k" := (bindM m (fun x => k))
  (at level 61, m at next level, right associativity).

Definition set_message_thread (t : thread) : M unit :=
  fun w =>
    (Ok tt,
     {| self := {| pii_detector := pii_detector (self w);
                   message_thread := Some t |};
        reports := reports w; delivered := delivered w |}).

Definition get_self : M MatchingOrchestrator := fun w => (Ok (self w), w).

(** Allocation of a new report object. *)
Definition alloc (r : AnalysisReport.t) : M nat :=
  fun w =>
    (Ok (List.length (reports w)),
     {| self := self w; reports := reports w ++ [r];
        delivered := delivered w |}).

Definition deref (ref : nat) : M AnalysisReport.t :=
  fun w =>
    match nth_error (reports w) ref with
    | Some r => (Ok r, w)
    | None => (Raise AttributeError, w)
    end.

Fixpoint update {A} (l : list A) (i : nat) (f : A -> A) : list A :=
  match l, i with
  | [], _ => []
  | a :: t, O => f a :: t
  | a :: t, S i' => a :: update t i' f
  end.

(** [report.summary = summary] on the object behind [ref]. *)
Definition assign_summary (ref : nat) (s : SummaryGenerated.t) : M unit :=
  fun w =>
    (Ok tt,
     {| self := self w;
        reports :=
          update (reports w) ref (fun r => AnalysisReport.set_summary r s);
        delivered := delivered w |}).

(** [progress_callback(msg)]; the default argument [None] is not
    callable. *)
Definition call (progress_callback : option (string -> result unit))
    (msg : string) : M unit :=
  fun w =>
    match progress_callback with
    | None => (Raise TypeError, w)
    | Some f =>
        match f msg with
        | Ok _ =>
            (Ok tt,
             {| self := self w; reports := reports w;
                delivered := delivered w ++ [msg] |})
        | Raise e => (Raise e, w)
        end
    end.

(** The collaborators of a run that are neither agents nor the
    detector. *)
Record Env : Type := {
  the_agents : Agents;
  load_document : string -> result string;
  now : datetime;
  strftime : datetime -> string
}.

Definition analyse (env : Env)
    (resume_source job_source candidate_id job_id : string)
    (progress_callback : option (string -> result unit)) : M nat :=
  (* Generate IDs if not provided *)
  let timestamp := strftime env (now env) in
  let candidate_id :=
    if truthy candidate_id then candidate_id
    else ("cand_" ++ timestamp)%string in
  let job_id :=
    if truthy job_id then job_id else ("job_" ++ timestamp)%string in
  (* Step 1: Load documents *)
  resume_text <<-
    try_exceptM
      (t <<- lift (load_document env resume_source) ;;
       _ <<- call progress_callback
               "**Status:** Resume loaded ... **Now:** Loading job ad" ;;
       ret t)
      (fun e =>
         _ <<- call progress_callback "**Status:** Resume load failed" ;;
         raise (ValueError ("Failed to load resume from " ++ resume_source
                              ++ ": " ++ exn_text e))) ;;
  job_text <<-
    try_exceptM
      (t <<- lift (load_document env job_source) ;;
       _ <<- call progress_callback
               "**Status:** Job loaded ... **Now:** Redacting resume" ;;
       ret t)
      (fun e =>
         _ <<- call progress_callback "**Status:** Job load failed" ;;
         raise (ValueError ("Failed to load job from " ++ job_source
                              ++ ": " ++ exn_text e))) ;;
  (* Step 2: Redact PII from resume *)
  redaction <<-
    try_exceptM
      (me <<- get_self ;;
       pr <<- lift (pii_redactor.process_resume (pii_detector me) (now env)
                      timestamp resume_text candidate_id) ;;
       _ <<- call progress_callback
               "**Status:** Resume Redacted ... **Now:** Parsing resume" ;;
       ret (fst pr, Instance (snd pr)))
      (fun e =>
         _ <<- call progress_callback "**Status:** Resume Redaction failed" ;;
         (* Continue with original text if PII detection fails *)
         let processed_resume :=
           {| RedacteddResume.id := candidate_id;
              RedacteddResume.original_text := resume_text;
              RedacteddResume.redacted_text := resume_text;
              RedacteddResume.pii_entities := [];
              RedacteddResume.processed_at := now env |} in
         ret (processed_resume, ClassObject)) ;;
  let '(processed_resume, candidate_details) := redaction in
  (* Step 3: Parse resume *)
  parsed_resume <<-
    try_exceptM
      (r <<- lift (parse_resume (the_agents env)
                     (RedacteddResume.redacted_text processed_resume)
                     candidate_id) ;;
       _ <<- call progress_callback
               "**Status:** Resume parsed ... **Now:** Parsing job ad" ;;
       ret r)
      (fun e =>
         _ <<- call progress_callback "**Status:** Resume parse failed" ;;
         raise (Exception ("Resume parsing failed: " ++ exn_text e))) ;;
  (* Step 4: Parse job *)
  parsed_job <<-
    try_exceptM
      (r <<- lift (parse_job (the_agents env) job_text job_id) ;;
       _ <<- call progress_callback
               "**Status:** Job ad parsed ... **Now:** Computing fit" ;;
       ret r)
      (fun e =>
         _ <<- call progress_callback "**Status:** Job ad parsing failed" ;;
         raise (Exception ("Job parsing failed: " ++ exn_text e))) ;;
  (* Step 5: Analyse fit *)
  fit_analysis <<-
    try_exceptM
      (r <<- lift (match_candidate_to_job (the_agents env) parsed_resume
                     parsed_job) ;;
       _ <<- call progress_callback
               "**Status:** Candidate fit analysed ... **Now:** Generating summary" ;;
       ret r)
      (fun e =>
         _ <<- call progress_callback
                 "**Status:** Candidate fit analysis failed" ;;
         raise (Exception ("Matching failed: " ++ exn_text e))) ;;
  (* Step 6: Generate summary *)
  summary <<-
    try_exceptM
      (r <<- lift (generate_summary (the_agents env) fit_analysis
                     parsed_resume parsed_job None None) ;;
       _ <<- set_message_thread (snd r) ;;
       ret (fst r))
      (fun e =>
         raise (Exception ("Summary generation failed: " ++ exn_text e))) ;;
  (* Step 7: Create complete report *)
  report <<- lift (AnalysisReport.new candidate_details job_id summary
                     fit_analysis parsed_resume parsed_job (now env)) ;;
  alloc report.

Definition regenerate_summary (env : Env) (report : nat)
    (recruiter_feedback : string) : M SummaryGenerated.t :=
  try_exceptM
    (r <<- deref report ;;
     me <<- get_self ;;
     st <<- lift (generate_summary (the_agents env)
                    (AnalysisReport.fit_analysis r)
                    (AnalysisReport.resume r) (AnalysisReport.job r)
                    (Some recruiter_feedback) (message_thread me)) ;;
     let '(summary, new_thread) := st in
     _ <<- assign_summary report summary ;;
     _ <<- set_message_thread new_thread ;;
     ret summary)
    (fun e =>
       raise (Exception ("Summary generation failed: " ++ exn_text e))).

End orchestrator.

(** ** The numeric scenarios on hardware floats

    The arithmetic of [score_experience_years] and of
    [compute_overall_fit_score] on IEEE 754 binary64 values, as the
    interpreter evaluates it. *)

Module binary64.

Definition years_score (candidate_years required_years : float) : float :=
  let ratio := (candidate_years / required_years)%float in
  (ratio * 100)%float.

#[warnings="-inexact-float"]
Definition overall (required_skill_score prefered_skill_score
    experience_score qualification_score seniority_score : float) : float :=
  (required_skill_score * 0.30
   + prefered_skill_score * 0.10
   + experience_score * 0.30
   + qualification_score * 0.15
   + seniority_score * 0.15)%float.

End binary64.

(** ** Reading results *)

(** The dictionary [v] has the number [q] under [k]. *)
Definition has_number (k : string) (v : value) (q : Q) : Prop :=
  exists x n, field k v = Some x /\ number x = Some n /\ n == q.

Definition has_string (k : string) (v : value) (s : string) : Prop :=
  field k v = Some (VStr s).

(** [v] is the largest entry of [l] and [i] the first position that
    holds it. *)
Definition first_max (l : list Q) (i : nat) (v : Q) : Prop :=
  nth_error l i = Some v
  /\ (forall j x, nth_error l j = Some x -> x <= v)
  /\ (forall j x, (j < i)%nat -> nth_error l j = Some x -> x < v).

(** The provider answers the query [q] against the batch [cs] with the
    similarity row [sims]. *)
Definition answers (m : SentenceTransformer) (q : string) (cs : list string)
    (sims : list Q) : Prop :=
  exists v vs,
    encode m q = Ok v /\ encode_batch m cs = Ok vs
    /\ similarity m v vs = Ok sims.

(** Providers for examples: every text is its own vector and the
    similarity row is fixed; or every call fails. *)
Definition constant_model (row : list Q) : SentenceTransformer :=
  {| vector := string;
     encode := fun s => Ok s;
     encode_batch := fun l => Ok l;
     similarity := fun _ _ => Ok row |}.

Definition failing_model : SentenceTransformer :=
  {| vector := string;
     encode := fun _ => Raise (ProviderError "model unavailable");
     encode_batch := fun _ => Raise (ProviderError "model unavailable");
     similarity := fun _ _ => Raise (ProviderError "model unavailable") |}.

(** The dictionary returned by [evaluate_single_skill]. *)
Definition skill_result (job_skill best : string) (classification : string)
    (similarity : value) : value :=
  VDict [("job_skill", VStr job_skill);
         ("best_candidate_skill", VStr best);
         ("classification", VStr classification);
         ("similarity", similarity)].

(** The dictionary returned by [score_education_and_qualification]. *)
Definition education_result (education_or_qualification : string)
    (required : value) (best : value) (score : value) (note : string)
  : value :=
  VDict [((education_or_qualification ++ "_required")%string, required);
         ("best_candidate_match", best);
         ("score", score);
         ("note", VStr note)].

(** A string that is empty or consists of white space only. *)
Definition blank (s : string) : Prop :=
  forall a, In a (list_ascii_of_string s) -> isspace a = true.

(** One of the three provider calls of the semantic stage raises [e];
    the calls before it succeed. *)
Definition provider_fails (m : SentenceTransformer) (q : string)
    (cs : list string) (e : exn) : Prop :=
  encode m q = Raise e
  \/ (exists v, encode m q = Ok v /\ encode_batch m cs = Raise e)
  \/ (exists v vs, encode m q = Ok v /\ encode_batch m cs = Ok vs
                   /\ similarity m v vs = Raise e).


(** The dictionary returned by [score_experience_kind]; the key of the
    requirement differs between the early returns and the last one. *)
Definition kind_result (key : string) (required : value) (matching : value)
    (score similarity : Q) : value :=
  VDict [(key, required);
         ("candidate_matching_text", matching);
         ("score", VFloat score);
         ("similarity", VFloat similarity)].

(** ** Sample data

    Concrete inputs on which the statements below are exercised. *)

Module sample.

Import pii_redactor agents orchestrator.

Definition contact_line : string := "Contact: jane@x.com, +1 415 555 0100".

Definition mail : PIIEntity.t := entity "EMAIL" "jane@x.com" 9 19 1.0.
Definition phone : PIIEntity.t := entity "PHONE" "1 415 555 0100" 22 36 1.0.
Definition name : PIIEntity.t := entity "NAME" "Con" 0 3 0.5.

(** An address made of digits is both an e-mail address and, up to the
    at-sign, a telephone number. *)
Definition digits_mail : string := "1234567@x.com".

Definition john : ner_span := span "FIRSTNAME" "John" 0 4 0.9.
Definition smith : ner_span := span "LASTNAME" "Smith" 5 10 0.95.
Definition smith_far : ner_span := span "LASTNAME" "Smith" 6 11 0.95.
Definition jo : ner_span := span "FIRSTNAME" "Jo" 0 2 0.9.
Definition hn : ner_span := span "FIRSTNAME" "hn" 2 4 0.95.

Definition evidence : EntityEvidence.t :=
  {| EntityEvidence.evidence_text := "five years of Python";
     EntityEvidence.llm_confidence := 90 |}.

Definition resume : ParsedResume.t :=
  {| ParsedResume.candidate_id := "from the model";
     ParsedResume.summary := None;
     ParsedResume.skills := ["python"];
     ParsedResume.skills_evidence := [("python", evidence)];
     ParsedResume.education := [];
     ParsedResume.experience := [];
     ParsedResume.qualifications := [];
     ParsedResume.qualifications_evidence := [];
     ParsedResume.total_experience_years := Some 5;
     ParsedResume.total_experience_evidence := evidence;
     ParsedResume.llm_confidence_overall := 90 |}.

Definition job : ParsedJob.t :=
  {| ParsedJob.job_id := "from the model";
     ParsedJob.company := None;
     ParsedJob.role_title := ["Engineer"];
     ParsedJob.role_title_evidence := [evidence];
     ParsedJob.seniority := [];
     ParsedJob.seniority_evidence := [];
     ParsedJob.industry := [];
     ParsedJob.industry_evidence := [];
     ParsedJob.required_skills := ["python"];
     ParsedJob.required_skills_evidence := [evidence];
     ParsedJob.preferred_skills := [];
     ParsedJob.preferred_skills_evidence := [];
     ParsedJob.required_experience_years := Some 5;
     ParsedJob.required_experience_years_evidence := None;
     ParsedJob.required_experience_kind := None;
     ParsedJob.required_experience_kind_evidence := None;
     ParsedJob.education_requirement := None;
     ParsedJob.education_requirement_evidence := None;
     ParsedJob.other_qualifications := [];
     ParsedJob.other_qualifications_evidence := [];
     ParsedJob.responsibilities := [];
     ParsedJob.responsibilities_evidence := [];
     ParsedJob.llm_confidence_overall := 90;
     ParsedJob.description := "Engineer wanted" |}.

Definition fit : FitAnalysis.t :=
  {| FitAnalysis.candidate_id := "from the model";
     FitAnalysis.job_id := "from the model";
     FitAnalysis.overall_fit_score := 80;
     FitAnalysis.key_strengths := [];
     FitAnalysis.recommendation := "Consider";
     FitAnalysis.recommendation_confidence := 70;
     FitAnalysis.skill_match_score := 80;
     FitAnalysis.experience_match_score := 80;
     FitAnalysis.education_match_score := 80;
     FitAnalysis.skill_match :=
       {| SkillMatch.skill := "python"; SkillMatch.result_ := "match";
          SkillMatch.similarity := Some 1;
          SkillMatch.resume_evidence := None;
          SkillMatch.job_evidence := None |};
     FitAnalysis.experience_match :=
       {| ExperienceAssessment.years_score := 100;
          ExperienceAssessment.kind_score := 70;
          ExperienceAssessment.experience_match_score := 82;
          ExperienceAssessment.llm_confidence := 80;
          ExperienceAssessment.evidence := None |};
     FitAnalysis.qualifications_match :=
       {| QualificationsAssessment.education_match_score := 70;
          QualificationsAssessment.other_qualifications_score := 70;
          QualificationsAssessment.llm_confidence := 80;
          QualificationsAssessment.evidence := None |};
     FitAnalysis.seniority_match :=
       {| SeniorityAssessment.status := "qualified";
          SeniorityAssessment.llm_confidence := 80;
          SeniorityAssessment.evidence := None;
          SeniorityAssessment.note := "none" |};
     FitAnalysis.analysed_at := 0%Z |}.

Definition first_summary : SummaryGenerated.t :=
  {| SummaryGenerated.candidate_id := "from the model";
     SummaryGenerated.job_id := "from the model";
     SummaryGenerated.summary := "A solid match." |}.

Definition revised_summary : SummaryGenerated.t :=
  {| SummaryGenerated.candidate_id := "from the model";
     SummaryGenerated.job_id := "from the model";
     SummaryGenerated.summary := "A solid match; leadership unproven." |}.

(** Agents that always answer; the summary agent appends one turn to
    the history it is given. *)
Definition the_agents : Agents :=
  {| resume_agent := fun _ => Ok resume;
     job_agent := fun _ => Ok job;
     matcher_agent := fun _ => Ok fit;
     summary_agent := fun p history =>
       match p with
       | Revise _ _ _ feedback =>
           Ok (revised_summary,
               match history with
               | Some h => h
               | None => []
               end ++ [feedback])
       | _ => Ok (first_summary, ["first summary"])
       end |}.

(** The summary agent is out of reach. *)
Definition agents_offline : Agents :=
  {| resume_agent := fun _ => Ok resume;
     job_agent := fun _ => Ok job;
     matcher_agent := fun _ => Ok fit;
     summary_agent := fun _ _ => Raise (ProviderError "model unavailable") |}.

Definition env : Env :=
  {| orchestrator.the_agents := the_agents;
     load_document := fun source =>
       if String.eqb source "resume.txt" then Ok contact_line
       else if String.eqb source "job.txt" then Ok "Engineer wanted"
       else Raise (Exception ("Document not found: " ++ source));
     now := 1700000000%Z;
     strftime := fun _ => "20231114_221320" |}.

Definition env_offline : Env :=
  {| orchestrator.the_agents := agents_offline;
     load_document := load_document env;
     now := now env;
     strftime := strftime env |}.

Definition sink (msg : string) : result unit := Ok tt.

(** A fresh orchestrator whose token classifier works, and one whose
    classifier raises. *)
Definition fresh (detector : PIIDetector) : world :=
  {| self := {| pii_detector := detector; message_thread := None |};
     reports := [];
     delivered := [] |}.

Definition card : CandidateDetail.t :=
  {| CandidateDetail.id := "c_001"; CandidateDetail.name := EmptyString;
     CandidateDetail.email := "jane@x.com";
     CandidateDetail.phone := "1 415 555 0100";
     CandidateDetail.url := []; CandidateDetail.location := EmptyString |}.

Definition report : AnalysisReport.t :=
  {| AnalysisReport.candidate_details := card;
     AnalysisReport.job_id := "j_001";
     AnalysisReport.summary :=
       SummaryGenerated.set_ids first_summary "c_001" "j_001";
     AnalysisReport.fit_analysis := FitAnalysis.set_ids fit "c_001" "j_001";
     AnalysisReport.resume := ParsedResume.set_candidate_id resume "c_001";
     AnalysisReport.job := ParsedJob.set_job_id job "j_001";
     AnalysisReport.generated_at := 1700000000%Z |}.

(** The world after a completed analysis: one report, one thread. *)
Definition completed : world :=
  {| self := {| pii_detector := detector_returning [];
                message_thread := Some ["first summary"] |};
     reports := [report];
     delivered := [] |}.

End sample.

(** ** Normal forms of text *)

(** After a space ([after_space]) a word must follow; every character
    is a single space between two words or a character that is neither
    white space nor upper case. *)
Fixpoint single_spaced (after_space : bool) (t : string) : bool :=
  match t with
  | EmptyString => negb after_space
  | String c t' =>
      if Ascii.eqb c " "
      then negb after_space && single_spaced true t'
      else negb (isspace c) && Ascii.eqb (lower_char c) c
           && single_spaced false t'
  end.

(** Lower-case words separated by single spaces, or nothing. *)
Definition normalised (t : string) : bool :=
  match t with
  | EmptyString => true
  | _ => single_spaced true t
  end.

(** All characters are their own lower case. *)
Definition lowered (s : string) : Prop :=
  forall a, In a (list_ascii_of_string s) -> lower_char a = a.

(** ** Labels, entities and contact cards *)

(** The labels of the token classifier that [detect_pii] keeps, in
    upper case. *)
Definition kept_labels : list string :=
  ["PERSON"; "FIRSTNAME"; "LASTNAME"; "NAME";
   "ADDRESS"; "LOCATION"; "LOC"; "GPE"].

(** [text[i:j]] for bounds that are not negative. *)
Definition slice (text : string) (i j : Z) : string :=
  slice_from (slice_to text j) i.

(** The text of the first entity of the given type whose text is not
    empty; the empty string when there is none. *)
Fixpoint first_text (ty : string) (ents : list PIIEntity.t) : string :=
  match ents with
  | [] => EmptyString
  | e :: rest =>
      if String.eqb (PIIEntity.entity_type e) ty
         && truthy (PIIEntity.text e)
      then PIIEntity.text e
      else first_text ty rest
  end.

(** The texts of all entities of the given type, in order. *)
Definition texts_of (ty : string) (ents : list PIIEntity.t) : list string :=
  map PIIEntity.text
    (filter (fun e => String.eqb (PIIEntity.entity_type e) ty) ents).

(** The length of the text and of the replacement, and their
    difference summed over a list of entities. *)
Definition growth (e : PIIEntity.t) : Z :=
  Z.of_nat (String.length (PIIEntity.replacement e))
  - (PIIEntity.end_char e - PIIEntity.start_char e).

Definition total_growth (l : list PIIEntity.t) : Z :=
  fold_right (fun e acc => (growth e + acc)%Z) 0%Z l.

(** An entity as the statistical path of [detect_pii] builds it. *)
Definition statistical (e : PIIEntity.t) : Prop :=
  (PIIEntity.entity_type e = "NAME" \/ PIIEntity.entity_type e = "LOCATION")
  /\ PIIEntity.replacement e = placeholder e
  /\ 0 <= PIIEntity.confidence e /\ PIIEntity.confidence e <= 100.

Definition well_tagged (b : pii_redactor.buffer) : Prop :=
  (pii_redactor.b_entity_type b = "NAME"
   \/ pii_redactor.b_entity_type b = "LOCATION")
  /\ pii_redactor.b_replacement b
     = ("[" ++ pii_redactor.b_entity_type b ++ "]")%string.

(** The loop of [detect_pii] has only added statistical entities to the
    list [base], and its buffer is well tagged. *)
Definition extends (base : list PIIEntity.t) (st : pii_redactor.loop_state)
  : Prop :=
  (exists extra,
      pii_redactor.pii_entities st = base ++ extra
      /\ Forall statistical extra)
  /\ forall b, pii_redactor.current_entity st = Some b -> well_tagged b.

(** The cursor stands at its own offset in the subject [L]. *)
Definition inside (L : list ascii) (c : re.cursor) : Prop :=
  re.rest c = skipn (re.pos c) L.

(** Entities of one type come in the order of the text and do not
    overlap. *)
Definition in_text_order (l : list PIIEntity.t) : Prop :=
  ForallOrdPairs
    (fun a b =>
       PIIEntity.entity_type a = PIIEntity.entity_type b ->
       (PIIEntity.end_char a <= PIIEntity.start_char b)%Z) l.

(** The fewest characters that a match of a pattern spans: six for an
    address or a number, five for a link. *)
Definition least_span (entity_type : string) : Z :=
  if String.eqb entity_type "URL" then 5%Z else 6%Z.
(** A field that is set keeps its value; an empty one takes the text
    of the first entity of its type that has one. *)
Definition pick (current : string) (ty : string) (ents : list PIIEntity.t)
  : string :=
  if truthy current then current else first_text ty ents.

(** ** Frames of a run of the orchestrator *)

(** The world with more status lines delivered. *)
Definition told (w : orchestrator.world) (msgs : list string)
  : orchestrator.world :=
  {| orchestrator.self := orchestrator.self w;
     orchestrator.reports := orchestrator.reports w;
     orchestrator.delivered := orchestrator.delivered w ++ msgs |}.

(** From [w] to [w']: the reports and the detector are the same and
    status lines were only added. *)
Definition quiet_step (w w' : orchestrator.world) : Prop :=
  orchestrator.reports w' = orchestrator.reports w
  /\ orchestrator.pii_detector (orchestrator.self w')
     = orchestrator.pii_detector (orchestrator.self w)
  /\ exists msgs,
       orchestrator.delivered w'
       = orchestrator.delivered w ++ msgs.

(** A computation that neither adds nor changes a report. *)
Definition quiet {A} (m : orchestrator.M A) : Prop :=
  forall w r w', m w = (r, w') -> quiet_step w w'.

(** A computation that at most appends one report, and only when it
    returns; the value returned is then the position of that report. *)
Definition appends_on_return (m : orchestrator.M nat) : Prop :=
  forall w r w',
    m w = (r, w') ->
    orchestrator.pii_detector (orchestrator.self w')
    = orchestrator.pii_detector (orchestrator.self w)
    /\ (exists msgs,
           orchestrator.delivered w'
           = orchestrator.delivered w ++ msgs)
    /\ match r with
       | Ok ref =>
           ref = List.length (orchestrator.reports w)
           /\ exists report,
                orchestrator.reports w'
                = orchestrator.reports w ++ [report]
       | Raise _ => orchestrator.reports w' = orchestrator.reports w
       end.

(** ** Spans that stay clear of the regex entities *)

(** The span from [s] to [e] overlaps none of the entities of [R]. *)
Definition clear_of (R : list PIIEntity.t) (s e : Z) : Prop :=
  forall r,
    In r R ->
    (e <= PIIEntity.start_char r \/ PIIEntity.end_char r <= s)%Z.

(** The loop of [detect_pii] knows the spans of [R] as occupied, and
    what it has added to [R] and what it holds in its buffer is clear
    of them. *)
Definition guarded (R : list PIIEntity.t) (st : pii_redactor.loop_state)
  : Prop :=
  (forall r,
      In r R ->
      In (PIIEntity.start_char r, PIIEntity.end_char r)
        (pii_redactor.occupied_spans st))
  /\ (exists extra,
         pii_redactor.pii_entities st = R ++ extra
         /\ Forall
              (fun e =>
                 clear_of R (PIIEntity.start_char e) (PIIEntity.end_char e))
              extra)
  /\ forall b,
       pii_redactor.current_entity st = Some b ->
       clear_of R (pii_redactor.b_start_char b) (pii_redactor.b_end_char b).

(** ** src/tools/parse_dates_and_duration.py *)

Module dates.

(** A [datetime] value: its instant in microseconds (in universal time
    when the value knows its zone, on the wall clock otherwise) and
    whether it knows its zone. *)
Record moment : Type := {
  micros : Z;
  aware : bool
}.

(** What the function takes from outside: [dateutil.parser.parse] with
    the default of 1 January 1900, the successive readings of
    [datetime.now()], which do not know their zone, and [isoformat]. *)
Record Env : Type := {
  parser_parse : string -> result moment;
  now : nat -> Z;
  isoformat : moment -> string
}.

Definition day : Z := 86400000000.

(** [a < b]: values of which only one knows its zone do not compare. *)
Definition lt (a b : moment) : result bool :=
  if Bool.eqb (aware a) (aware b) then Ok (micros a <? micros b)%Z
  else Raise TypeError.

(** [(a - b).days] *)
Definition days_between (a b : moment) : Z := ((micros a - micros b) / day)%Z.

(** The inner function [_parse]; [reads] counts the readings of the
    clock so far. *)
Definition _parse (env : Env) (reads : nat) (d : option string)
  : option moment * nat :=
  match d with
  | None => (None, reads)
  | Some d =>
      if negb (truthy d) then (None, reads)
      else
        let d_clean := lower (strip d) in
        if contains d_clean ["present"; "current"; "now"]
        then (Some {| micros := now env reads; aware := false |}, S reads)
        else
          match parser_parse env d with
          | Ok m => (Some m, reads)
          | Raise _ => (None, reads)
          end
  end.

Definition iso (env : Env) (m : option moment) : value :=
  match m with
  | Some m => VStr (isoformat env m)
  | None => VNone
  end.

(** The dictionary returned when the duration is not computed. *)
Definition unreliable (env : Env) (start end_ : option moment) : value :=
  VDict
    [("start_date_parsed", iso env start);
     ("end_date_parsed", iso env end_);
     ("duration_years", VNone);
     ("note",
      VStr "Could not reliably compute duration from provided dates.")].

Definition parse_dates_and_duration (env : Env)
    (start_date end_date : option string) : result value :=
  let '(start, reads) := _parse env 0 start_date in
  let '(end_, _) := _parse env reads end_date in
  match start, end_ with
  | Some s, Some e =>
      earlier <- lt e s ;;
      if earlier then Ok (unreliable env start end_)
      else
        let duration_years := round2 (inject_Z (days_between e s) / 365) in
        Ok (VDict
              [("start_date_parsed", VStr (isoformat env s));
               ("end_date_parsed", VStr (isoformat env e));
               ("duration_years", VFloat duration_years);
               ("note",
                VStr "Duration computed from parsed start/end dates.")])
  | _, _ => Ok (unreliable env start end_)
  end.

(** The words that stand for the present, as [_parse] recognises
    them. *)
Definition means_now (d : string) : Prop :=
  contains (lower (strip d)) ["present"; "current"; "now"] = true.

End dates.

(** ** src/tools/nli_entailment.py *)

Module nli_entailment.





End nli_entailment.

(** ** Sample collaborators of the tools *)

Module sample_tools.

(** A parser that knows two dates, the second with a zone, counted in
    microseconds from the first; a clock that reads 400 and then 401
    days after it. *)
Definition env : dates.Env :=
  {| dates.parser_parse := fun d =>
       if String.eqb d "Jan 2020"
       then Ok {| dates.micros := 0; dates.aware := false |}
       else if String.eqb d "2020-03-01T00:00:00Z"
       then Ok {| dates.micros := 60 * dates.day; dates.aware := true |}
       else Raise (ValueError "Unknown string format");
     dates.now := fun reads => ((400 + Z.of_nat reads) * dates.day)%Z;
     dates.isoformat := fun m => "isoformat" |}.



End sample_tools.

(** * Properties *)

Unset Implicit Arguments.

(** ** Comparisons and rounding *)

Lemma Qleb_le (x y : Q) : Qleb x y = true <-> x <= y.
Proof. unfold Qleb. apply Qle_bool_iff. Qed.

Lemma Qleb_gt (x y : Q) : Qleb x y = false <-> y < x.
Proof.
  unfold Qleb. split; intro H.
  - apply Qnot_le_lt. intro Hle. apply Qle_bool_iff in Hle. congruence.
  - destruct (Qle_bool x y) eqn:E; [|reflexivity].
    apply Qle_bool_iff in E. exfalso. apply (Qlt_not_le _ _ H E).
Qed.

Lemma Qgeb_ge (x y : Q) : Qgeb x y = true <-> y <= x.
Proof. unfold Qgeb. apply Qle_bool_iff. Qed.

Lemma Qgeb_lt (x y : Q) : Qgeb x y = false <-> x < y.
Proof. unfold Qgeb. apply (Qleb_gt y x). Qed.

Lemma Qltb_lt (x y : Q) : Qltb x y = true <-> x < y.
Proof.
  unfold Qltb. rewrite negb_true_iff. apply (Qleb_gt y x).
Qed.

Lemma Qltb_ge (x y : Q) : Qltb x y = false <-> y <= x.
Proof.
  unfold Qltb. rewrite negb_false_iff. apply Qle_bool_iff.
Qed.

Lemma Qgtb_gt (x y : Q) : Qgtb x y = true <-> y < x.
Proof.
  unfold Qgtb. rewrite negb_true_iff. apply (Qleb_gt x y).
Qed.

Lemma Qgtb_le (x y : Q) : Qgtb x y = false <-> x <= y.
Proof.
  unfold Qgtb. rewrite negb_false_iff. apply Qle_bool_iff.
Qed.

(** Rounding to an integer moves a number by at most one half. *)
Lemma round_half_even_near (y : Q) :
  y - (1 # 2) <= inject_Z (round_half_even y) <= y + (1 # 2).
Proof.
  unfold round_half_even.
  pose proof (Qfloor_le y) as Hlo.
  pose proof (Qlt_floor y) as Hhi.
  rewrite inject_Z_plus in Hhi. change (inject_Z 1) with 1 in Hhi.
  destruct (Qltb (y - inject_Z (Qfloor y)) (1 # 2)) eqn:E1.
  - apply Qltb_lt in E1. split; lra.
  - apply Qltb_ge in E1.
    assert (Hup : y - (1 # 2) <= inject_Z (Qfloor y + 1)
                  <= y + (1 # 2)).
    { rewrite inject_Z_plus. change (inject_Z 1) with 1. split; lra. }
    destruct (Qgtb (y - inject_Z (Qfloor y)) (1 # 2)) eqn:E2.
    + exact Hup.
    + apply Qgtb_le in E2.
      destruct (Z.even (Qfloor y)); [split; lra | exact Hup].
Qed.



(** A number that already has two decimals is left alone. *)
Lemma round_half_even_inject (z : Z) : round_half_even (inject_Z z) = z.
Proof.
  unfold round_half_even. rewrite Qfloor_Z.
  assert (E : Qltb (inject_Z z - inject_Z z) (1 # 2) = true).
  { apply Qltb_lt. lra. }
  now rewrite E.
Qed.

Lemma round_half_even_compat (x y : Q) :
  x == y -> round_half_even x = round_half_even y.
Proof.
  intro H. unfold round_half_even.
  assert (Ef : Qfloor x = Qfloor y) by (now rewrite H).
  rewrite Ef.
  assert (El : Qltb (x - inject_Z (Qfloor y)) (1 # 2)
               = Qltb (y - inject_Z (Qfloor y)) (1 # 2)).
  { unfold Qltb. f_equal. apply Qleb_comp; [reflexivity | now rewrite H]. }
  assert (Eg : Qgtb (x - inject_Z (Qfloor y)) (1 # 2)
               = Qgtb (y - inject_Z (Qfloor y)) (1 # 2)).
  { unfold Qgtb. f_equal. apply Qleb_comp; [now rewrite H | reflexivity]. }
  now rewrite El, Eg.
Qed.

Lemma round2_fixed (z : Z) (x : Q) :
  x * 100 == inject_Z z -> round2 x == x.
Proof.
  intro H. unfold round2.
  rewrite (round_half_even_compat _ _ H), round_half_even_inject.
  rewrite <- H. field.
Qed.

(** ** Experience years (src/tools/experience_evaluator.py) *)

Section ExperienceYears.

Import experience_evaluator.


Lemma has_number_int (k : string) (items : list (string * value))
    (z : Z) (q' : Q) :
  lookup k items = Some (VInt z) -> inject_Z z == q' ->
  has_number k (VDict items) q'.
Proof.
  intros Hl Hq. exists (VInt z), (inject_Z z). repeat split; assumption.
Qed.






(** The two scenarios on binary64 floats: the quotient and the product
    are exact there. *)
Lemma years_score_binary64 :
  binary64.years_score 10 5 = 200%float
  /\ binary64.years_score 2.5 5 = 50%float.
Proof. split; reflexivity. Qed.


End ExperienceYears.

(** ** Overall fit (src/tools/overall_scoring.py) *)

Section OverallFit.

Import overall_scoring.


Lemma weighted_sum_default (r p e q s : Q) :
  weighted_sum r p e q s
  == r * 0.30 + p * 0.10 + e * 0.30 + q * 0.15 + s * 0.15.
Proof. reflexivity. Qed.



(** Five components of 80 on binary64 floats: every product and every
    partial sum rounds to the exact value. *)
Lemma overall_binary64 : binary64.overall 80 80 80 80 80 = 80%float.
Proof. reflexivity. Qed.


End OverallFit.

(** ** Membership and the stable arg-max *)

Lemma contains_In (x : string) (l : list string) :
  contains x l = true <-> In x l.
Proof.
  unfold contains. rewrite existsb_exists. split.
  - intros (y & Hy & E). apply String.eqb_eq in E. now subst.
  - intro H. exists x. split; [exact H | apply String.eqb_refl].
Qed.

Lemma contains_map_norm (x : string) (l : list string) :
  contains (_norm x) (map _norm l) = true
  <-> exists c, In c l /\ _norm c = _norm x.
Proof.
  rewrite contains_In, in_map_iff.
  split; intros (c & H1 & H2); exists c; split; assumption.
Qed.

Lemma first_max_snoc_new (pre : list Q) (bi : nat) (b x : Q) :
  first_max pre bi b -> b < x ->
  first_max (pre ++ [x]) (List.length pre) x.
Proof.
  intros (Hb & Hall & Hfirst) Hlt. repeat split.
  - rewrite nth_error_app2, Nat.sub_diag; [reflexivity | lia].
  - intros j y Hj.
    destruct (Nat.lt_ge_cases j (List.length pre)) as [Hin | Hout].
    + rewrite nth_error_app1 in Hj by exact Hin.
      apply Qlt_le_weak. apply Qle_lt_trans with b; [eauto | exact Hlt].
    + rewrite nth_error_app2 in Hj by exact Hout.
      destruct (j - List.length pre)%nat as [|k]; simpl in Hj.
      * injection Hj as <-. apply Qle_refl.
      * destruct k; discriminate.
  - intros j y Hj Hy.
    rewrite nth_error_app1 in Hy by exact Hj.
    apply Qle_lt_trans with b; [eauto | exact Hlt].
Qed.

Lemma first_max_snoc_keep (pre : list Q) (bi : nat) (b x : Q) :
  first_max pre bi b -> x <= b ->
  first_max (pre ++ [x]) bi b.
Proof.
  intros (Hb & Hall & Hfirst) Hle.
  assert (Hbi : (bi < List.length pre)%nat).
  { apply nth_error_Some. congruence. }
  repeat split.
  - rewrite nth_error_app1 by exact Hbi. exact Hb.
  - intros j y Hj.
    destruct (Nat.lt_ge_cases j (List.length pre)) as [Hin | Hout].
    + rewrite nth_error_app1 in Hj by exact Hin. eauto.
    + rewrite nth_error_app2 in Hj by exact Hout.
      destruct (j - List.length pre)%nat as [|k]; simpl in Hj.
      * injection Hj as <-. exact Hle.
      * destruct k; discriminate.
  - intros j y Hj Hy.
    rewrite nth_error_app1 in Hy by lia. eauto.
Qed.

Lemma argmax_from_first_max (l pre : list Q) (bi : nat) (b : Q) :
  first_max pre bi b ->
  exists v,
    first_max (pre ++ l) (argmax_from bi b (List.length pre) l) v.
Proof.
  revert pre bi b.
  induction l as [|x t IH]; intros pre bi b H.
  - exists b. rewrite app_nil_r. exact H.
  - simpl. destruct (Qgtb x b) eqn:E.
    + apply Qgtb_gt in E.
      destruct (IH (pre ++ [x]) (List.length pre) x
                  (first_max_snoc_new _ _ _ _ H E)) as (v & Hv).
      exists v. rewrite <- app_assoc, length_app, Nat.add_1_r in Hv.
      exact Hv.
    + apply Qgtb_le in E.
      destruct (IH (pre ++ [x]) bi b (first_max_snoc_keep _ _ _ _ H E))
        as (v & Hv).
      exists v. rewrite <- app_assoc, length_app, Nat.add_1_r in Hv.
      exact Hv.
Qed.

(** On a non-empty array [argmax] returns the first position of the
    largest entry. *)
Lemma argmax_first_max (l : list Q) :
  l <> [] -> exists i v, argmax l = Ok i /\ first_max l i v.
Proof.
  destruct l as [|x t]; [congruence | intros _].
  assert (H0 : first_max [x] 0 x).
  { repeat split.
    - intros [|j] y Hy; simpl in Hy.
      + injection Hy as <-. apply Qle_refl.
      + destruct j; discriminate.
    - intros j y Hj. lia. }
  destruct (argmax_from_first_max t _ _ _ H0) as (v & Hv).
  exists (argmax_from 0 x 1 t), v. split; [reflexivity | exact Hv].
Qed.

Lemma argmax_empty :
  argmax [] = Raise (ValueError "attempt to get an argmax of an empty sequence").
Proof. reflexivity. Qed.

Lemma first_max_in_range (l : list Q) (i : nat) (v : Q) :
  first_max l i v -> (i < List.length l)%nat.
Proof.
  intros (H & _). apply nth_error_Some. congruence.
Qed.

(** The position and the value are determined by the array, the value
    up to equality of rationals. *)
Lemma first_max_unique (l : list Q) (i j : nat) (v w : Q) :
  first_max l i v -> first_max l j w -> i = j /\ v = w.
Proof.
  intros (Hi & Ha & Hf) (Hj & Ha' & Hf').
  assert (E : i = j).
  { destruct (Nat.lt_trichotomy i j) as [Hlt | [Heq | Hgt]].
    - pose proof (Hf' _ _ Hlt Hi) as H1. pose proof (Ha _ _ Hj) as H2.
      exfalso. apply (Qlt_not_le _ _ H1 H2).
    - exact Heq.
    - pose proof (Hf _ _ Hgt Hj) as H1. pose proof (Ha' _ _ Hi) as H2.
      exfalso. apply (Qlt_not_le _ _ H1 H2). }
  split; [exact E |]. subst j. congruence.
Qed.

(** ** Skill matching (src/tools/skill_evaluator.py) *)

Section SkillMatcher.

Import skill_evaluator.

Lemma getitem_nth (A : Type) (l : list A) (i : nat) (a : A) :
  nth_error l i = Some a -> getitem l i = Ok a.
Proof. unfold getitem. now intros ->. Qed.

Lemma nth_error_same_length (A B : Type) (l : list A) (l' : list B) (i : nat) (a : A) :
  List.length l = List.length l' -> nth_error l i = Some a ->
  exists b, nth_error l' i = Some b.
Proof.
  intros Hlen Hi.
  assert (Hlt : (i < List.length l')%nat).
  { rewrite <- Hlen. apply nth_error_Some. congruence. }
  destruct (nth_error l' i) as [b|] eqn:E; [now exists b |].
  apply nth_error_None in E. lia.
Qed.

(** What the semantic stage hands to the threshold tests. *)
Lemma semantic_stage (m : SentenceTransformer) (q : string)
    (cs : list string) (sims : list Q) (A : Type) (items : list A) :
  answers m q cs sims -> List.length sims = List.length items ->
  items <> [] ->
  exists i s best,
    first_max sims i s /\ nth_error items i = Some best
    /\ forall (B : Type) (k : nat -> Q -> result B),
         (v <- encode m q ;;
          vs <- encode_batch m cs ;;
          row <- similarity m v vs ;;
          idx <- argmax row ;;
          val <- getitem row idx ;;
          k idx val) = k i s.
Proof.
  intros (v & vs & Hv & Hvs & Hs) Hlen Hne.
  assert (Hsims : sims <> []).
  { intro E. subst sims. destruct items; [congruence | discriminate]. }
  destruct (argmax_first_max sims Hsims) as (i & s & Hi & Hmax).
  destruct (nth_error_same_length _ _ sims items i s Hlen (proj1 Hmax)) as (best & Hb).
  exists i, s, best. repeat split; try apply Hmax; try exact Hb.
  intros B k. rewrite Hv. simpl. rewrite Hvs. simpl. rewrite Hs. simpl.
  rewrite Hi. simpl. rewrite (getitem_nth _ _ _ _ (proj1 Hmax)). reflexivity.
Qed.

Lemma skill_exact_match (m : SentenceTransformer) (job_skill : string)
    (candidate_skills : list string) :
  (exists c, In c candidate_skills /\ _norm c = _norm job_skill) ->
  evaluate_single_skill m job_skill candidate_skills
  = Ok (skill_result job_skill job_skill "match" (VFloat 1.0)).
Proof.
  intro H. apply contains_map_norm in H.
  unfold evaluate_single_skill. rewrite H. reflexivity.
Qed.

Lemma skill_semantic (m : SentenceTransformer) (job_skill : string)
    (candidate_skills : list string) (sims : list Q) :
  ~ (exists c, In c candidate_skills /\ _norm c = _norm job_skill) ->
  answers m (_norm job_skill) (map _norm candidate_skills) sims ->
  List.length sims = List.length candidate_skills ->
  candidate_skills <> [] ->
  exists i s best,
    first_max sims i s /\ nth_error candidate_skills i = Some best
    /\ (0.80 <= s ->
        evaluate_single_skill m job_skill candidate_skills
        = Ok (skill_result job_skill best "match" (VFloat s)))
    /\ (0.50 < s -> s < 0.80 ->
        evaluate_single_skill m job_skill candidate_skills
        = Ok (skill_result job_skill best "transferable" (VFloat s)))
    /\ (s <= 0.50 ->
        evaluate_single_skill m job_skill candidate_skills
        = Ok (skill_result job_skill best "missing" (VInt 0))).
Proof.
  intros Hno Hans Hlen Hne.
  assert (Hc : contains (_norm job_skill) (map _norm candidate_skills)
               = false).
  { destruct (contains _ _) eqn:E; [| reflexivity].
    apply contains_map_norm in E. contradiction. }
  destruct (semantic_stage _ _ _ _ _ candidate_skills Hans Hlen Hne)
    as (i & s & best & Hmax & Hb & Hrun).
  exists i, s, best.
  split; [exact Hmax |]. split; [exact Hb |].
  unfold evaluate_single_skill. rewrite Hc, Hrun.
  cbn [semantic_match skill_transferable_min THRESHOLDS].
  rewrite (getitem_nth _ _ _ _ Hb). cbn [bind].
  split; [| split].
  - intro H. apply Qgeb_ge in H. rewrite H. reflexivity.
  - intros Hlo Hhi.
    assert (E1 : Qgeb s 0.80 = false) by (now apply Qgeb_lt).
    assert (E2 : Qgtb s 0.50 = true) by (now apply Qgtb_gt).
    assert (E3 : Qltb s 0.80 = true) by (now apply Qltb_lt).
    rewrite E1, E2, E3. reflexivity.
  - intro H.
    assert (E1 : Qgeb s 0.80 = false) by (apply Qgeb_lt; lra).
    assert (E2 : Qgtb s 0.50 = false) by (now apply Qgtb_le).
    rewrite E1, E2. reflexivity.
Qed.

(** C1.  [evaluate_single_skill]: when the normalised job skill equals
    some normalised candidate skill the result is a "match" with
    similarity 1.0, whatever the embedding provider does.  Otherwise,
    with [s] the largest entry of the provider's similarity row (one
    entry per candidate skill) and [i] its first position: [s >= 0.80]
    gives "match" with similarity [s], [0.50 < s < 0.80] gives
    "transferable" with similarity [s], and [s <= 0.50] gives "missing"
    with similarity 0; the reported candidate skill is the one at [i]. *)
Theorem evaluate_single_skill_classification :
  (forall m job_skill candidate_skills,
      (exists c, In c candidate_skills /\ _norm c = _norm job_skill) ->
      evaluate_single_skill m job_skill candidate_skills
      = Ok (skill_result job_skill job_skill "match" (VFloat 1.0)))
  /\ (forall m job_skill candidate_skills sims,
        ~ (exists c, In c candidate_skills /\ _norm c = _norm job_skill) ->
        answers m (_norm job_skill) (map _norm candidate_skills) sims ->
        List.length sims = List.length candidate_skills ->
        candidate_skills <> [] ->
        exists i s best,
          first_max sims i s /\ nth_error candidate_skills i = Some best
          /\ (0.80 <= s ->
              evaluate_single_skill m job_skill candidate_skills
              = Ok (skill_result job_skill best "match" (VFloat s)))
          /\ (0.50 < s -> s < 0.80 ->
              evaluate_single_skill m job_skill candidate_skills
              = Ok (skill_result job_skill best "transferable" (VFloat s)))
          /\ (s <= 0.50 ->
              evaluate_single_skill m job_skill candidate_skills
              = Ok (skill_result job_skill best "missing" (VInt 0)))).
Proof.
  split.
  - exact skill_exact_match.
  - exact skill_semantic.
Qed.


Lemma evaluate_single_skill_classification_witness :
  evaluate_single_skill failing_model "  Python " ["java"; "python"]
  = Ok (skill_result "  Python " "  Python " "match" (VFloat 1.0))
  /\ exists i s best,
       first_max [0.3; 0.9; 0.9] i s
       /\ nth_error ["java"; "golang"; "Go lang"] i = Some best
       /\ (0.80 <= s ->
           evaluate_single_skill (constant_model [0.3; 0.9; 0.9]) "go"
             ["java"; "golang"; "Go lang"]
           = Ok (skill_result "go" best "match" (VFloat s)))
       /\ (0.50 < s -> s < 0.80 ->
           evaluate_single_skill (constant_model [0.3; 0.9; 0.9]) "go"
             ["java"; "golang"; "Go lang"]
           = Ok (skill_result "go" best "transferable" (VFloat s)))
       /\ (s <= 0.50 ->
           evaluate_single_skill (constant_model [0.3; 0.9; 0.9]) "go"
             ["java"; "golang"; "Go lang"]
           = Ok (skill_result "go" best "missing" (VInt 0))).
Proof.
  destruct evaluate_single_skill_classification as [H1 H2]. split.
  - apply H1. exists "python". split; [simpl; tauto | reflexivity].
  - apply (H2 (constant_model [0.3; 0.9; 0.9]) "go"
             ["java"; "golang"; "Go lang"] [0.3; 0.9; 0.9]).
    + intros (c & Hin & E). simpl in Hin.
      destruct Hin as [<- | [<- | [<- | []]]]; vm_compute in E;
        discriminate.
    + exists "go", ["java"; "golang"; "go lang"]. repeat split.
    + reflexivity.
    + discriminate.
Defined.

End SkillMatcher.

(** ** Education and qualifications (src/tools/education_evaluator.py) *)

Section EducationMatcher.

Import education_evaluator.

Lemma education_no_requirement (m : SentenceTransformer)
    (ad_required_qualification : option string) (first : string)
    (others : list string) (kind : string) :
  requirement_missing ad_required_qualification = true ->
  score_education_and_qualification m ad_required_qualification
    (first :: others) kind
  = Ok (education_result kind VNone (VStr first) (VFloat 70.0)
          ("Job does not specify " ++ kind ++ " requirement.")).
Proof.
  intro H. unfold score_education_and_qualification. rewrite H.
  reflexivity.
Qed.

Lemma education_no_requirement_no_candidate (m : SentenceTransformer)
    (ad_required_qualification : option string) (kind : string) :
  requirement_missing ad_required_qualification = true ->
  score_education_and_qualification m ad_required_qualification [] kind
  = Raise IndexError.
Proof.
  intro H. unfold score_education_and_qualification. rewrite H.
  reflexivity.
Qed.

Lemma requirement_missing_iff (r : option string) :
  requirement_missing r = true <-> r = None \/ r = Some EmptyString.
Proof.
  destruct r as [[|a s]|]; simpl; split; intro H; auto;
    try discriminate; destruct H as [H | H]; discriminate.
Qed.

Lemma education_empty_candidates (m : SentenceTransformer)
    (required kind : string) :
  required <> EmptyString ->
  score_education_and_qualification m (Some required) [] kind
  = Ok (education_result kind (VStr required) VNone (VFloat 50.0)
          ("Candidate " ++ kind ++ " not specified.")).
Proof.
  intro H. unfold score_education_and_qualification.
  destruct required as [|a s]; [congruence | reflexivity].
Qed.

Lemma education_exact (m : SentenceTransformer) (required kind : string)
    (candidate_qualification : list string) :
  required <> EmptyString ->
  (exists c, In c candidate_qualification /\ _norm c = _norm required) ->
  score_education_and_qualification m (Some required)
    candidate_qualification kind
  = Ok (education_result kind (VStr required) (VStr required) (VInt 100)
          ("Job does not specify " ++ kind ++ " requirement.")).
Proof.
  intros Hreq H.
  assert (Hne : candidate_qualification <> []).
  { destruct H as (c & Hin & _). intro E. subst. contradiction. }
  apply contains_map_norm in H.
  unfold score_education_and_qualification.
  destruct required as [|a s]; [congruence |].
  cbn [requirement_missing truthy negb].
  destruct candidate_qualification as [|c0 cs]; [congruence |].
  rewrite H. reflexivity.
Qed.

Lemma education_semantic (m : SentenceTransformer) (required kind : string)
    (candidate_qualification : list string) (sims : list Q) :
  required <> EmptyString ->
  ~ (exists c, In c candidate_qualification /\ _norm c = _norm required) ->
  answers m (_norm required) (map _norm candidate_qualification) sims ->
  List.length sims = List.length candidate_qualification ->
  candidate_qualification <> [] ->
  exists i s best,
    first_max sims i s /\ nth_error candidate_qualification i = Some best
    /\ (0.80 <= s ->
        score_education_and_qualification m (Some required)
          candidate_qualification kind
        = Ok (education_result kind (VStr required) (VStr best) (VInt 100)
                "Candidate meets requirement."))
    /\ (0.50 < s -> s < 0.80 ->
        score_education_and_qualification m (Some required)
          candidate_qualification kind
        = Ok (education_result kind (VStr required) (VStr best) (VInt 70)
                "Candidate partially meets requirement."))
    /\ (s <= 0.50 ->
        score_education_and_qualification m (Some required)
          candidate_qualification kind
        = Ok (education_result kind (VStr required) (VStr best) (VInt 0)
                "Candidate does not meet requirement.")).
Proof.
  intros Hreq Hno Hans Hlen Hne.
  assert (Hc : contains (_norm required) (map _norm candidate_qualification)
               = false).
  { destruct (contains _ _) eqn:E; [| reflexivity].
    apply contains_map_norm in E. contradiction. }
  destruct (semantic_stage _ _ _ _ _ candidate_qualification Hans Hlen Hne)
    as (i & s & best & Hmax & Hb & Hrun).
  exists i, s, best.
  split; [exact Hmax |]. split; [exact Hb |].
  unfold score_education_and_qualification.
  destruct required as [|a r]; [congruence |].
  cbn [requirement_missing truthy negb].
  destruct candidate_qualification as [|c0 cs]; [congruence |].
  rewrite Hc, Hrun.
  cbn [semantic_match education_partial_match_min THRESHOLDS].
  rewrite (getitem_nth _ _ _ _ Hb). cbn [bind].
  split; [| split].
  - intro H. apply Qgeb_ge in H. rewrite H. reflexivity.
  - intros Hlo Hhi.
    assert (E1 : Qgeb s 0.80 = false) by (now apply Qgeb_lt).
    assert (E2 : Qgtb s 0.50 = true) by (now apply Qgtb_gt).
    assert (E3 : Qltb s 0.80 = true) by (now apply Qltb_lt).
    rewrite E1, E2, E3. reflexivity.
  - intro H.
    assert (E1 : Qgeb s 0.80 = false) by (apply Qgeb_lt; lra).
    assert (E2 : Qgtb s 0.50 = false) by (now apply Qgtb_le).
    rewrite E1, E2. reflexivity.
Qed.

(** C8.  The neutral branch of [score_education_and_qualification]
    reads element 0 of the candidate list before the list is tested for
    emptiness: with no requirement and an empty candidate list the call
    raises [IndexError] instead of returning the neutral score 70.
    (The lemmas above establish every other case of the scoring table.) *)
Theorem education_no_requirement_empty_list_raises :
  forall m : SentenceTransformer,
    score_education_and_qualification m None [] "Education"
    = Raise IndexError.
Proof.
  intro m. apply education_no_requirement_no_candidate. reflexivity.
Qed.

End EducationMatcher.

(** ** Experience kind (src/tools/experience_evaluator.py) *)

Section ExperienceKind.

Import experience_evaluator.

Lemma rstrip_empty_iff (s : string) : rstrip s = EmptyString <-> blank s.
Proof.
  unfold blank. induction s as [|c t IH]; simpl.
  - split; [intros _ a [] | reflexivity].
  - split.
    + intro H. destruct (rstrip t) eqn:E; [| discriminate].
      destruct (isspace c) eqn:Ec; [| discriminate].
      intros a [<- | Ha]; [exact Ec | now apply IH].
    + intro H.
      assert (Ht : rstrip t = EmptyString).
      { apply IH. intros a Ha. apply H. now right. }
      rewrite Ht, (H c (or_introl eq_refl)). reflexivity.
Qed.

Lemma lstrip_blank_iff (s : string) : blank (lstrip s) <-> blank s.
Proof.
  unfold blank. induction s as [|c t IH]; simpl; [reflexivity |].
  destruct (isspace c) eqn:Ec.
  - rewrite IH. split.
    + intros H a [<- | Ha]; [exact Ec | now apply H].
    + intros H a Ha. apply H. now right.
  - reflexivity.
Qed.

Lemma strip_empty_iff (s : string) : strip s = EmptyString <-> blank s.
Proof.
  unfold strip. rewrite rstrip_empty_iff. apply lstrip_blank_iff.
Qed.

Lemma truthy_false_iff (s : string) : truthy s = false <-> s = EmptyString.
Proof. destruct s; simpl; split; congruence. Qed.

(** The requirement is taken as unspecified exactly when it is [None],
    empty, or white space only. *)
Lemma kind_unspecified_iff (k : option string) :
  kind_unspecified k = true
  <-> k = None \/ exists s, k = Some s /\ blank s.
Proof.
  destruct k as [s|]; simpl.
  - rewrite orb_true_iff, !negb_true_iff, !truthy_false_iff,
      strip_empty_iff.
    split.
    + intros [H | H]; right; exists s; split; trivial.
      subst s. intros a [].
    + intros [H | (s' & E & H)]; [discriminate |].
      injection E as <-. now right.
  - split; auto.
Qed.

Lemma kind_returns_none_on_error (m : SentenceTransformer)
    (k : option string) (cands : list string) (e : exn) :
  score_experience_kind_body m k cands = Raise e ->
  score_experience_kind m k cands
  = Ok (VNone, [("experience " ++ exn_text e)%string]).
Proof.
  intro H. unfold score_experience_kind. rewrite H. reflexivity.
Qed.

Lemma kind_returns_dictionary (m : SentenceTransformer)
    (k : option string) (cands : list string) (v : value) :
  score_experience_kind_body m k cands = Ok v ->
  score_experience_kind m k cands = Ok (v, []).
Proof.
  intro H. unfold score_experience_kind. rewrite H. reflexivity.
Qed.

Lemma kind_never_raises (m : SentenceTransformer) (k : option string)
    (cands : list string) :
  exists v out, score_experience_kind m k cands = Ok (v, out).
Proof.
  destruct (score_experience_kind_body m k cands) as [v | e] eqn:E.
  - exists v, []. now apply kind_returns_dictionary.
  - exists VNone, [("experience " ++ exn_text e)%string].
    now apply kind_returns_none_on_error.
Qed.

Lemma kind_unspecified_empty_history (m : SentenceTransformer)
    (k : option string) :
  (k = None \/ exists s, k = Some s /\ blank s) ->
  score_experience_kind_body m k [] = Raise IndexError.
Proof.
  intro H. apply kind_unspecified_iff in H.
  unfold score_experience_kind_body. rewrite H. reflexivity.
Qed.

Lemma kind_provider_failure (m : SentenceTransformer) (k : string)
    (cands : list string) (e : exn) :
  ~ blank k -> cands <> [] -> ~ In k cands ->
  provider_fails m (_norm k) (map _norm cands) e ->
  score_experience_kind_body m (Some k) cands = Raise e.
Proof.
  intros Hk Hne Hin Hfail.
  assert (E1 : kind_unspecified (Some k) = false).
  { destruct (kind_unspecified (Some k)) eqn:E; [| reflexivity].
    apply kind_unspecified_iff in E.
    destruct E as [E | (s & E & Hs)]; [discriminate |].
    injection E as <-. contradiction. }
  assert (E2 : contains k cands = false).
  { destruct (contains k cands) eqn:E; [| reflexivity].
    apply contains_In in E. contradiction. }
  unfold score_experience_kind_body. rewrite E1.
  destruct cands as [|c cs]; [congruence |]. rewrite E2.
  destruct Hfail as [H | [(v & Hv & H) | (v & vs & Hv & Hvs & H)]].
  - rewrite H. reflexivity.
  - rewrite Hv. cbn [bind]. rewrite H. reflexivity.
  - rewrite Hv. cbn [bind]. rewrite Hvs. cbn [bind]. rewrite H. reflexivity.
Qed.

(** C10.  [score_experience_kind] never raises: it always returns.
    Whenever a statement of its body raises, the handler prints the
    error and the function returns [None] in place of the score
    dictionary.  This covers a requirement that is [None], empty or
    white space together with an empty candidate history (element 0 of
    the empty list is read), and a failure of any of the three calls to
    the embedding provider. *)
Theorem score_experience_kind_swallows_errors :
  (forall m k cands,
      exists v out, score_experience_kind m k cands = Ok (v, out))
  /\ (forall m k cands e,
        score_experience_kind_body m k cands = Raise e ->
        score_experience_kind m k cands
        = Ok (VNone, [("experience " ++ exn_text e)%string]))
  /\ (forall m k,
        (k = None \/ exists s, k = Some s /\ blank s) ->
        score_experience_kind m k []
        = Ok (VNone, ["experience list index out of range"]))
  /\ (forall m k cands e,
        ~ blank k -> cands <> [] -> ~ In k cands ->
        provider_fails m (_norm k) (map _norm cands) e ->
        score_experience_kind m (Some k) cands
        = Ok (VNone, [("experience " ++ exn_text e)%string])).
Proof.
  split; [exact kind_never_raises |].
  split; [exact kind_returns_none_on_error |].
  split.
  - intros m k H.
    apply (kind_returns_none_on_error m k [] IndexError).
    now apply kind_unspecified_empty_history.
  - intros m k cands e Hk Hne Hin Hfail.
    apply kind_returns_none_on_error.
    now apply kind_provider_failure.
Qed.

Lemma score_experience_kind_swallows_errors_witness :
  score_experience_kind failing_model (Some "   ") []
  = Ok (VNone, ["experience list index out of range"])
  /\ score_experience_kind failing_model (Some "backend development")
       ["frontend work"]
     = Ok (VNone, ["experience model unavailable"]).
Proof.
  destruct score_experience_kind_swallows_errors as (_ & H2 & H3 & H4).
  split.
  - apply H3. right. exists "   ". split; [reflexivity |].
    intros a Ha. simpl in Ha.
    destruct Ha as [<- | [<- | [<- | []]]]; reflexivity.
  - apply (H4 failing_model "backend development" ["frontend work"]
             (ProviderError "model unavailable")).
    + intro Hb. specialize (Hb "b"%char (or_introl eq_refl)). discriminate.
    + discriminate.
    + simpl. intros [E | []]. discriminate.
    + left. reflexivity.
Defined.

End ExperienceKind.

(** ** Redaction (src/pii_redactor.py, [process_resume]) *)

Section Redaction.

Import pii_redactor.

Local Open Scope Z_scope.

(** *** The processing order *)

Lemma insert_desc_perm (e : PIIEntity.t) (l : list PIIEntity.t) :
  Permutation (e :: l) (insert_desc e l).
Proof.
  induction l as [|h t IH]; simpl; [apply Permutation_refl |].
  destruct (PIIEntity.start_char e <? PIIEntity.start_char h).
  - apply perm_trans with (h :: e :: t); [apply perm_swap |].
    now apply perm_skip.
  - apply Permutation_refl.
Qed.

Lemma sorted_desc_perm (l : list PIIEntity.t) :
  Permutation l (sorted_desc l).
Proof.
  induction l as [|e t IH]; simpl; [apply perm_nil |].
  apply perm_trans with (e :: sorted_desc t).
  - now apply perm_skip.
  - apply insert_desc_perm.
Qed.

Lemma insert_desc_descending (e : PIIEntity.t) (l : list PIIEntity.t) :
  descending l -> descending (insert_desc e l).
Proof.
  unfold descending. induction l as [|h t IH]; intro H; simpl.
  - repeat constructor.
  - apply StronglySorted_inv in H. destruct H as [Ht Hh].
    destruct (PIIEntity.start_char e <? PIIEntity.start_char h) eqn:E.
    + apply Z.ltb_lt in E. constructor; [now apply IH |].
      apply Forall_forall. intros x Hx.
      apply (Permutation_in _ (Permutation_sym (insert_desc_perm e t)))
        in Hx.
      destruct Hx as [<- | Hx]; [lia |].
      rewrite Forall_forall in Hh. now apply Hh.
    + apply Z.ltb_ge in E. constructor.
      * now constructor.
      * constructor; [exact E |].
        rewrite Forall_forall in Hh |- *. intros x Hx.
        specialize (Hh x Hx). lia.
Qed.

Lemma sorted_desc_descending (l : list PIIEntity.t) :
  descending (sorted_desc l).
Proof.
  induction l as [|e t IH]; simpl.
  - constructor.
  - now apply insert_desc_descending.
Qed.

(** *** Non-overlapping spans *)

Lemma disjoint_sym (a b : PIIEntity.t) : disjoint a b -> disjoint b a.
Proof. unfold disjoint. tauto. Qed.

Lemma non_overlapping_pairs (text : string) (l : list PIIEntity.t) :
  Forall (valid_span text) l -> non_overlapping l ->
  NoDup l /\ forall a b, In a l -> In b l -> a = b \/ disjoint a b.
Proof.
  intros Hv Hn. split.
  - induction Hn as [|a l Ha Hl IH]; constructor.
    + intro Hin. rewrite Forall_forall in Ha. specialize (Ha a Hin).
      apply Forall_inv in Hv. destruct Hv as [Hv _].
      unfold disjoint in Ha. lia.
    + apply IH. now apply Forall_inv_tail in Hv.
  - intros a b Ha Hb.
    destruct (ForallOrdPairs_In Hn a b Ha Hb) as [E | [H | H]]; auto.
    right. now apply disjoint_sym.
Qed.

(** Sorted by descending start, spans that do not overlap form a
    chain. *)
Lemma descending_chain (text : string) (l : list PIIEntity.t) :
  Forall (valid_span text) l -> NoDup l ->
  (forall a b, In a l -> In b l -> a = b \/ disjoint a b) ->
  descending l -> chain l.
Proof.
  unfold descending, chain. intros Hv Hnd Hpair Hs.
  induction Hs as [|a l Hl IH Ha]; constructor.
  - apply IH.
    + now apply Forall_inv_tail in Hv.
    + now inversion Hnd.
    + intros x y Hx Hy. apply Hpair; now right.
  - rewrite Forall_forall in Ha |- *. intros b Hb.
    specialize (Ha b Hb).
    destruct (Hpair a b (or_introl eq_refl) (or_intror Hb)) as [E | D].
    + subst b. inversion Hnd. contradiction.
    + rewrite Forall_forall in Hv.
      destruct (Hv a (or_introl eq_refl)) as [Hva _].
      destruct (Hv b (or_intror Hb)) as [Hvb _].
      unfold disjoint in D. lia.
Qed.

Lemma sorted_desc_chain (text : string) (l : list PIIEntity.t) :
  Forall (valid_span text) l -> non_overlapping l ->
  chain (sorted_desc l).
Proof.
  intros Hv Hn.
  destruct (non_overlapping_pairs text l Hv Hn) as [Hnd Hpair].
  pose proof (sorted_desc_perm l) as Hp.
  apply descending_chain with (text := text).
  - rewrite Forall_forall in Hv |- *. intros x Hx. apply Hv.
    apply (Permutation_in _ (Permutation_sym Hp) Hx).
  - apply (Permutation_NoDup Hp Hnd).
  - intros a b Ha Hb.
    apply Hpair; apply (Permutation_in _ (Permutation_sym Hp));
      assumption.
  - apply sorted_desc_descending.
Qed.

(** *** Substitution, segment by segment *)

Lemma substitute_from_app (i : nat) (a b : list ascii)
    (l : list PIIEntity.t) :
  substitute_from i (a ++ b) l
  = (substitute_from i a l
     ++ substitute_from (i + List.length a) b l)%list.
Proof.
  revert i. induction a as [|c t IH]; intro i; simpl.
  - now rewrite Nat.add_0_r.
  - rewrite IH, <- !app_assoc, Nat.add_succ_r. reflexivity.
Qed.

Lemma find_none_all {A} (p : A -> bool) (l : list A) :
  (forall x, In x l -> p x = false) -> find p l = None.
Proof.
  intro H. destruct (find p l) as [x|] eqn:E; [| reflexivity].
  apply find_some in E. destruct E as [Hin Hp].
  rewrite (H x Hin) in Hp. discriminate.
Qed.

Lemma existsb_false_all {A} (p : A -> bool) (l : list A) :
  (forall x, In x l -> p x = false) -> existsb p l = false.
Proof.
  intro H. destruct (existsb p l) eqn:E; [| reflexivity].
  apply existsb_exists in E. destruct E as (x & Hin & Hp).
  rewrite (H x Hin) in Hp. discriminate.
Qed.

Lemma misses_tail (i n : nat) (e : PIIEntity.t) :
  misses i (S n) e -> misses (S i) n e.
Proof. unfold misses. lia. Qed.

Lemma misses_head (i n : nat) (e : PIIEntity.t) :
  misses i (S n) e -> starts_at i e = false /\ covers i e = false.
Proof.
  unfold misses, starts_at, covers. intros [Hv H]. split.
  - apply Z.eqb_neq. lia.
  - apply andb_false_iff.
    destruct H; [right; apply Z.ltb_ge | left; apply Z.leb_gt]; lia.
Qed.

(** A segment that every span misses is copied. *)
Lemma substitute_from_untouched (seg : list ascii) (i : nat)
    (l : list PIIEntity.t) :
  (forall e, In e l -> misses i (List.length seg) e) ->
  substitute_from i seg l = seg.
Proof.
  revert i. induction seg as [|a t IH]; intros i H; simpl; [reflexivity |].
  rewrite find_none_all, existsb_false_all.
  - simpl. f_equal. apply IH. intros e He. apply misses_tail. now apply H.
  - intros e He. now apply (misses_head i (List.length t)), H.
  - intros e He. now apply (misses_head i (List.length t)), H.
Qed.

(** A span that misses the segment plays no part in it. *)
Lemma substitute_from_skip (seg : list ascii) (i : nat)
    (d : PIIEntity.t) (l : list PIIEntity.t) :
  misses i (List.length seg) d ->
  substitute_from i seg (d :: l) = substitute_from i seg l.
Proof.
  revert i. induction seg as [|a t IH]; intros i H; simpl; [reflexivity |].
  destruct (misses_head i (List.length t) d H) as [E1 E2].
  rewrite E1, E2. simpl. rewrite IH; [reflexivity |].
  now apply misses_tail.
Qed.

(** Strictly inside the span of [d] nothing is written. *)
Lemma substitute_from_inside (seg : list ascii) (j : nat)
    (d : PIIEntity.t) (l : list PIIEntity.t) :
  PIIEntity.start_char d < Z.of_nat j ->
  Z.of_nat (j + List.length seg) <= PIIEntity.end_char d ->
  (forall e, In e l ->
     PIIEntity.start_char e < PIIEntity.end_char e /\ disjoint e d) ->
  substitute_from j seg (d :: l) = [].
Proof.
  revert j. induction seg as [|a t IH]; intros j Hlo Hhi Hl; simpl;
    [reflexivity |].
  simpl in Hhi.
  assert (E1 : starts_at j d = false).
  { unfold starts_at. apply Z.eqb_neq. lia. }
  assert (E2 : covers j d = true).
  { unfold covers. apply andb_true_iff.
    split; [apply Z.leb_le | apply Z.ltb_lt]; lia. }
  rewrite E1, E2. simpl.
  rewrite find_none_all.
  - simpl. apply IH; [lia | lia | exact Hl].
  - intros e He. destruct (Hl e He) as [Hv Hd].
    unfold starts_at. apply Z.eqb_neq. unfold disjoint in Hd. lia.
Qed.

(** The segment under the span of [d] becomes its replacement. *)
Lemma substitute_from_span (seg : list ascii) (d : PIIEntity.t)
    (l : list PIIEntity.t) :
  0 <= PIIEntity.start_char d ->
  Z.of_nat (List.length seg)
  = PIIEntity.end_char d - PIIEntity.start_char d ->
  seg <> [] ->
  (forall e, In e l ->
     PIIEntity.start_char e < PIIEntity.end_char e /\ disjoint e d) ->
  substitute_from (Z.to_nat (PIIEntity.start_char d)) seg (d :: l)
  = list_ascii_of_string (PIIEntity.replacement d).
Proof.
  intros H0 Hlen Hne Hl.
  destruct seg as [|a t]; [congruence |]. simpl in *.
  assert (E1 : starts_at (Z.to_nat (PIIEntity.start_char d)) d = true).
  { unfold starts_at. apply Z.eqb_eq. lia. }
  assert (E2 : covers (Z.to_nat (PIIEntity.start_char d)) d = true).
  { unfold covers. apply andb_true_iff.
    split; [apply Z.leb_le | apply Z.ltb_lt]; lia. }
  rewrite E1, E2. simpl.
  rewrite substitute_from_inside; [apply app_nil_r | lia | lia | exact Hl].
Qed.

(** *** The loop on a chain *)

Lemma splice_chars_frame (a x : list ascii) (e : PIIEntity.t) :
  within (List.length a) e ->
  splice_chars (a ++ x) e = (splice_chars a e ++ x)%list.
Proof.
  unfold within, splice_chars. intros [H1 H2].
  rewrite firstn_app, skipn_app.
  replace (Z.to_nat (PIIEntity.start_char e) - List.length a)%nat
    with 0%nat by lia.
  replace (Z.to_nat (PIIEntity.end_char e) - List.length a)%nat
    with 0%nat by lia.
  simpl. rewrite app_nil_r, <- !app_assoc. reflexivity.
Qed.

Lemma splice_chars_length (a : list ascii) (e : PIIEntity.t) :
  within (List.length a) e ->
  (Z.to_nat (PIIEntity.start_char e) <= List.length (splice_chars a e))%nat.
Proof.
  unfold within, splice_chars. intros [H1 H2].
  rewrite length_app, firstn_length_le by lia. lia.
Qed.

(** What lies to the right of every span of the chain is carried
    along unchanged. *)
Lemma fold_splice_frame (ds : list PIIEntity.t) (a x : list ascii) :
  chain ds -> Forall (within (List.length a)) ds ->
  fold_left splice_chars ds (a ++ x)
  = (fold_left splice_chars ds a ++ x)%list.
Proof.
  unfold chain. intro Hc. revert a.
  induction Hc as [|e r Hr IH He]; intros a Hw; simpl; [reflexivity |].
  pose proof (Forall_inv Hw) as Hwe.
  rewrite splice_chars_frame by exact Hwe.
  apply IH.
  apply Forall_forall. intros e' He'.
  rewrite Forall_forall in He. specialize (He e' He').
  apply Forall_inv_tail in Hw. rewrite Forall_forall in Hw.
  destruct (Hw e' He') as [H1 H2].
  pose proof (splice_chars_length a e Hwe) as Hlen.
  unfold within in *. lia.
Qed.

Lemma three_parts {A} (t : list A) (s n : nat) :
  (s <= n)%nat ->
  t = (firstn s t ++ firstn (n - s) (skipn s t) ++ skipn n t)%list.
Proof.
  intro H.
  rewrite <- (firstn_skipn s t) at 1. f_equal.
  rewrite <- (firstn_skipn (n - s) (skipn s t)) at 1. f_equal.
  rewrite skipn_skipn. f_equal. lia.
Qed.

Lemma valid_within (n : nat) (e : PIIEntity.t) :
  0 <= PIIEntity.start_char e < PIIEntity.end_char e ->
  PIIEntity.end_char e <= Z.of_nat n -> within n e.
Proof. unfold within. lia. Qed.

(** On a chain of non-empty spans of the text, the loop computes the
    substitution. *)
Lemma fold_splice_substitute (ds : list PIIEntity.t) (t : list ascii) :
  chain ds ->
  Forall (fun e => 0 <= PIIEntity.start_char e < PIIEntity.end_char e
                   /\ PIIEntity.end_char e <= Z.of_nat (List.length t)) ds ->
  fold_left splice_chars ds t = substitute_from 0 t ds.
Proof.
  unfold chain. intro Hc. revert t.
  induction Hc as [|d r Hr IH Hd]; intros t Hv.
  - simpl. symmetry. apply substitute_from_untouched. intros e [].
  - pose proof (Forall_inv Hv) as [Hd1 Hd2].
    apply Forall_inv_tail in Hv.
    rewrite Forall_forall in Hv, Hd.
    set (s := Z.to_nat (PIIEntity.start_char d)).
    set (n := Z.to_nat (PIIEntity.end_char d)).
    assert (Hlen : List.length (firstn s t) = s).
    { apply firstn_length_le. lia. }
    assert (Hrest : Forall (fun e =>
               0 <= PIIEntity.start_char e < PIIEntity.end_char e
               /\ PIIEntity.end_char e
                  <= Z.of_nat (List.length (firstn s t))) r).
    { apply Forall_forall. intros e He.
      destruct (Hv e He) as [H1 H2]. specialize (Hd e He).
      rewrite Hlen. split; [exact H1 | lia]. }
    change (fold_left splice_chars (d :: r) t)
      with (fold_left splice_chars r
              (firstn s t
               ++ (list_ascii_of_string (PIIEntity.replacement d)
                   ++ skipn n t))%list).
    rewrite fold_splice_frame.
    + rewrite (IH (firstn s t) Hrest).
      rewrite (three_parts t s n) at 3 by lia.
      rewrite !substitute_from_app.
      assert (Hseg : List.length (firstn (n - s) (skipn s t)) = (n - s)%nat).
      { rewrite length_firstn, length_skipn. lia. }
      rewrite substitute_from_skip by (unfold misses; rewrite Hlen; lia).
      simpl Nat.add. rewrite Hlen, Hseg. f_equal.
      assert (Hspan : substitute_from s (firstn (n - s) (skipn s t)) (d :: r)
                      = list_ascii_of_string (PIIEntity.replacement d)).
      { apply substitute_from_span.
        - lia.
        - rewrite Hseg. lia.
        - intro E. apply (f_equal (@List.length ascii)) in E.
          rewrite Hseg in E. simpl in E. lia.
        - intros e He. destruct (Hv e He) as [H1 H2].
          specialize (Hd e He). unfold disjoint. lia. }
      rewrite Hspan. f_equal. symmetry.
      apply substitute_from_untouched.
      intros e [<- | He]; unfold misses.
      * lia.
      * destruct (Hv e He) as [H1 H2]. specialize (Hd e He). lia.
    + exact Hr.
    + apply Forall_forall. intros e He.
      rewrite Forall_forall in Hrest. destruct (Hrest e He) as [H1 H2].
      unfold within. lia.
Qed.

(** *** From strings to lists of characters *)

Lemma list_ascii_of_string_app (a b : string) :
  list_ascii_of_string (a ++ b)
  = (list_ascii_of_string a ++ list_ascii_of_string b)%list.
Proof.
  induction a as [|c t IH]; simpl; [reflexivity | now rewrite IH].
Qed.

Lemma length_list_ascii (s : string) :
  List.length (list_ascii_of_string s) = String.length s.
Proof.
  induction s as [|c t IH]; simpl; [reflexivity | now rewrite IH].
Qed.

Lemma clamp_nonneg (len : nat) (i : Z) :
  0 <= i -> clamp len i = Nat.min (Z.to_nat i) len.
Proof.
  intro H. unfold clamp.
  destruct (i <? 0) eqn:E; [apply Z.ltb_lt in E; lia | reflexivity].
Qed.

Lemma firstn_min {A} (k : nat) (l : list A) :
  firstn (Nat.min k (List.length l)) l = firstn k l.
Proof.
  destruct (Nat.le_ge_cases k (List.length l)) as [H | H].
  - now rewrite Nat.min_l.
  - rewrite Nat.min_r by exact H. now rewrite !firstn_all2.
Qed.

Lemma skipn_min {A} (k : nat) (l : list A) :
  skipn (Nat.min k (List.length l)) l = skipn k l.
Proof.
  destruct (Nat.le_ge_cases k (List.length l)) as [H | H].
  - now rewrite Nat.min_l.
  - rewrite Nat.min_r by exact H. now rewrite !skipn_all2.
Qed.

Lemma splice_as_chars (t : string) (e : PIIEntity.t) :
  0 <= PIIEntity.start_char e -> 0 <= PIIEntity.end_char e ->
  list_ascii_of_string (splice t e)
  = splice_chars (list_ascii_of_string t) e.
Proof.
  intros Hs He. unfold splice, splice_chars, slice_to, slice_from.
  rewrite !list_ascii_of_string_app, !list_ascii_of_string_of_list_ascii.
  rewrite !clamp_nonneg by assumption.
  now rewrite firstn_min, skipn_min.
Qed.

Lemma fold_splice_as_chars (ds : list PIIEntity.t) (t : string) :
  Forall (fun e => 0 <= PIIEntity.start_char e
                   /\ 0 <= PIIEntity.end_char e) ds ->
  list_ascii_of_string (fold_left splice ds t)
  = fold_left splice_chars ds (list_ascii_of_string t).
Proof.
  revert t. induction ds as [|e r IH]; intros t H; simpl; [reflexivity |].
  pose proof (Forall_inv H) as [Hs He]. apply Forall_inv_tail in H.
  rewrite IH by exact H. now rewrite splice_as_chars.
Qed.

(** *** The order of the entity list does not matter *)

Lemma find_perm_unique {A} (p : A -> bool) (l l' : list A) :
  Permutation l l' ->
  (forall x y, In x l -> In y l -> p x = true -> p y = true -> x = y) ->
  find p l = find p l'.
Proof.
  intro Hp. induction Hp as [| x l l' Hp IH | x y l | l l' l'' H1 IH1 H2 IH2];
    intro Hu.
  - reflexivity.
  - simpl. destruct (p x); [reflexivity |].
    apply IH. intros a b Ha Hb. apply Hu; now right.
  - simpl. destruct (p x) eqn:Ex, (p y) eqn:Ey; try reflexivity.
    f_equal. apply Hu; simpl; auto.
  - rewrite IH1 by exact Hu. apply IH2.
    intros a b Ha Hb. apply Hu;
      apply (Permutation_in _ (Permutation_sym H1)); assumption.
Qed.

Lemma existsb_perm {A} (p : A -> bool) (l l' : list A) :
  Permutation l l' -> existsb p l = existsb p l'.
Proof.
  intro Hp. induction Hp as [| x l l' Hp IH | x y l | l l' l'' H1 IH1 H2 IH2];
    simpl.
  - reflexivity.
  - now rewrite IH.
  - destruct (p x), (p y); reflexivity.
  - now rewrite IH1.
Qed.

Lemma substitute_from_perm (t : list ascii) (i : nat)
    (l l' : list PIIEntity.t) :
  Permutation l l' ->
  (forall a b, In a l -> In b l ->
     PIIEntity.start_char a = PIIEntity.start_char b -> a = b) ->
  substitute_from i t l = substitute_from i t l'.
Proof.
  intros Hp Hu. revert i.
  induction t as [|c t IH]; intro i; simpl; [reflexivity |].
  rewrite (find_perm_unique (starts_at i) l l' Hp).
  - rewrite (existsb_perm (covers i) l l' Hp). now rewrite IH.
  - intros a b Ha Hb Ea Eb. apply Hu; try assumption.
    unfold starts_at in Ea, Eb.
    apply Z.eqb_eq in Ea, Eb. congruence.
Qed.

Lemma starts_unique (text : string) (l : list PIIEntity.t) :
  Forall (valid_span text) l -> non_overlapping l ->
  forall a b, In a l -> In b l ->
    PIIEntity.start_char a = PIIEntity.start_char b -> a = b.
Proof.
  intros Hv Hn a b Ha Hb E.
  destruct (non_overlapping_pairs text l Hv Hn) as [_ Hpair].
  destruct (Hpair a b Ha Hb) as [Heq | D]; [exact Heq |].
  rewrite Forall_forall in Hv.
  destruct (Hv a Ha) as [Hva _]. destruct (Hv b Hb) as [Hvb _].
  unfold disjoint in D. lia.
Qed.

(** The redaction loop computes the substitution. *)
Lemma redact_substitute (text : string) (l : list PIIEntity.t) :
  Forall (valid_span text) l -> non_overlapping l ->
  redact text l = substitute text l.
Proof.
  intros Hv Hn. unfold redact, substitute.
  pose proof (sorted_desc_perm l) as Hp.
  assert (Hv' : Forall (valid_span text) (sorted_desc l)).
  { rewrite Forall_forall in Hv |- *. intros x Hx. apply Hv.
    apply (Permutation_in _ (Permutation_sym Hp) Hx). }
  rewrite <- (string_of_list_ascii_of_string
                (fold_left splice (sorted_desc l) text)).
  f_equal.
  rewrite fold_splice_as_chars.
  - rewrite fold_splice_substitute.
    + symmetry. apply substitute_from_perm; [exact Hp |].
      now apply (starts_unique text).
    + now apply (sorted_desc_chain text).
    + rewrite Forall_forall in Hv' |- *. intros e He.
      destruct (Hv' e He) as [H1 H2]. rewrite length_list_ascii.
      split; assumption.
  - rewrite Forall_forall in Hv' |- *. intros e He.
    destruct (Hv' e He) as [H1 H2]. lia.
Qed.

Lemma non_overlapping_perm (text : string) (l l' : list PIIEntity.t) :
  Forall (valid_span text) l -> non_overlapping l -> Permutation l l' ->
  Forall (valid_span text) l' /\ non_overlapping l'.
Proof.
  intros Hv Hn Hp.
  destruct (non_overlapping_pairs text l Hv Hn) as [Hnd Hpair].
  split.
  - rewrite Forall_forall in Hv |- *. intros x Hx. apply Hv.
    apply (Permutation_in _ (Permutation_sym Hp) Hx).
  - assert (Hnd' : NoDup l') by (apply (Permutation_NoDup Hp Hnd)).
    assert (Hpair' : forall a b, In a l' -> In b l' -> a = b \/ disjoint a b).
    { intros a b Ha Hb.
      apply Hpair; apply (Permutation_in _ (Permutation_sym Hp));
        assumption. }
    clear - Hnd' Hpair'. unfold non_overlapping.
    induction l' as [|a r IH]; constructor.
    + apply Forall_forall. intros b Hb.
      destruct (Hpair' a b (or_introl eq_refl) (or_intror Hb)) as [E | D];
        [| exact D].
      subst b. inversion Hnd'. contradiction.
    + apply IH; [now inversion Hnd' |].
      intros x y Hx Hy. apply Hpair'; now right.
Qed.

Lemma process_resume_redacts (self : PIIDetector) (now : datetime)
    (stamp text candidate_id : string) (r : RedacteddResume.t)
    (d : CandidateDetail.t) :
  process_resume self now stamp text candidate_id = Ok (r, d) ->
  exists ents,
    detect_pii self text = Ok ents
    /\ RedacteddResume.pii_entities r = ents
    /\ RedacteddResume.original_text r = text
    /\ RedacteddResume.redacted_text r = redact text ents.
Proof.
  unfold process_resume.
  destruct (detect_pii self text) as [ents | e]; simpl; [| discriminate].
  intro H. injection H as <- <-. exists ents. repeat split.
Qed.

(** C5.  The redacted text of [process_resume] is [redact] applied to
    the detected entities.  For every text and every list of entities
    whose spans are non-empty spans of the text and pairwise
    non-overlapping, [redact] gives the same text for every permutation
    of the list (in particular for the reversed list), and that text is
    the original with each span [start_char, end_char) replaced by the
    entity's replacement; the loop visits the entities by descending
    [start_char]. *)
Theorem redaction_order_independent :
  (forall self now stamp text candidate_id r d,
      process_resume self now stamp text candidate_id = Ok (r, d) ->
      exists ents,
        detect_pii self text = Ok ents
        /\ RedacteddResume.pii_entities r = ents
        /\ RedacteddResume.redacted_text r = redact text ents)
  /\ (forall text l l',
        Forall (valid_span text) l -> non_overlapping l ->
        Permutation l l' ->
        redact text l' = redact text l
        /\ redact text (rev l) = redact text l
        /\ redact text l = substitute text l
        /\ redact text l = fold_left splice (sorted_desc l) text
        /\ Permutation l (sorted_desc l)
        /\ descending (sorted_desc l)).
Proof.
  split.
  - intros self now stamp text cid r d H.
    destruct (process_resume_redacts self now stamp text cid r d H)
      as (ents & H1 & H2 & _ & H3).
    exists ents. repeat split; assumption.
  - intros text l l' Hv Hn Hp.
    assert (Hsame : forall m, Permutation l m ->
                      redact text m = redact text l).
    { intros m Hm.
      destruct (non_overlapping_perm text l m Hv Hn Hm) as [Hv' Hn'].
      rewrite (redact_substitute text m Hv' Hn').
      rewrite (redact_substitute text l Hv Hn).
      unfold substitute. f_equal. symmetry.
      apply substitute_from_perm; [exact Hm |].
      now apply (starts_unique text). }
    split; [now apply Hsame |].
    split; [apply Hsame, Permutation_rev |].
    split; [now apply redact_substitute |].
    split; [reflexivity |].
    split; [apply sorted_desc_perm | apply sorted_desc_descending].
Qed.

Lemma redaction_order_independent_witness :
  redact sample.contact_line [sample.phone; sample.name; sample.mail]
  = redact sample.contact_line [sample.name; sample.mail; sample.phone]
  /\ redact sample.contact_line (rev [sample.name; sample.mail; sample.phone])
     = redact sample.contact_line [sample.name; sample.mail; sample.phone]
  /\ redact sample.contact_line [sample.name; sample.mail; sample.phone]
     = "[NAME]tact: [EMAIL], +[PHONE]".
Proof.
  destruct redaction_order_independent as [_ H].
  destruct (H sample.contact_line [sample.name; sample.mail; sample.phone]
              [sample.phone; sample.name; sample.mail])
    as (H1 & H2 & H3 & _).
  - repeat constructor; unfold valid_span; simpl; lia.
  - repeat constructor; unfold disjoint; simpl; lia.
  - apply Permutation_sym.
    apply (Permutation_cons_app [sample.name; sample.mail] [] sample.phone).
    apply Permutation_refl.
  - split; [exact H1 |]. split; [exact H2 |].
    rewrite H3. reflexivity.
Defined.

End Redaction.

(** ** Matches are non-empty spans of the subject *)

Section RegexSpans.

Import re re_facts.

Lemma advanced_refl (c : cursor) : advanced 0 c c.
Proof.
  exists 0%nat. repeat split; try lia.
Qed.

Lemma advanced_trans (m1 m2 : nat) (c1 c2 c3 : cursor) :
  advanced m1 c1 c2 -> advanced m2 c2 c3 -> advanced (m1 + m2) c1 c3.
Proof.
  intros (n1 & H1 & H2 & H3 & H4) (n2 & G1 & G2 & G3 & G4).
  rewrite H4, length_skipn in G2.
  exists (n1 + n2)%nat. repeat split; try lia.
  rewrite G4, H4, skipn_skipn. f_equal. lia.
Qed.

Lemma advanced_weaken (m m' : nat) (c c' : cursor) :
  (m' <= m)%nat -> advanced m c c' -> advanced m' c c'.
Proof.
  intros H (n & H1 & H2 & H3 & H4). exists n. repeat split; try lia.
  exact H4.
Qed.

Lemma advanced_step (c : cursor) (a : ascii) (t : list ascii) :
  rest c = a :: t ->
  advanced 1 c {| prev := Some a; rest := t; pos := S (pos c) |}.
Proof.
  intro H. exists 1%nat. rewrite H. simpl. repeat split; lia.
Qed.

Lemma orelse_some {A} (x y : option A) (a : A) :
  orelse x y = Some a -> x = Some a \/ y = Some a.
Proof. destruct x; simpl; auto. Qed.

(** Whatever [run] returns, it got from its continuation, called at a
    position at least [min_len r] characters further. *)
Lemma run_advances (r : regex) :
  forall c k c',
    run r c k = Some c' ->
    exists c1, advanced (min_len r) c c1 /\ k c1 = Some c'.
Proof.
  induction r as [| p | r1 IH1 r2 IH2 | r1 IH1 r2 IH2 | r1 IH1 | r1 IH1
                 | | a]; intros c k c' H; simpl in H.
  - exists c. split; [apply advanced_refl | exact H].
  - destruct (rest c) as [|a t] eqn:E; [discriminate |].
    destruct (p a); [| discriminate].
    eexists. split; [apply (advanced_step c a t E) | exact H].
  - destruct (IH1 _ _ _ H) as (c1 & A1 & H1).
    destruct (IH2 _ _ _ H1) as (c2 & A2 & H2).
    exists c2. split; [apply (advanced_trans _ _ _ _ _ A1 A2) | exact H2].
  - destruct (orelse_some _ _ _ H) as [H' | H'].
    + destruct (IH1 _ _ _ H') as (c1 & A1 & H1). exists c1.
      split; [| exact H1].
      apply (advanced_weaken (min_len r1)); [apply Nat.le_min_l | exact A1].
    + destruct (IH2 _ _ _ H') as (c1 & A1 & H1). exists c1.
      split; [| exact H1].
      apply (advanced_weaken (min_len r2)); [apply Nat.le_min_r | exact A1].
  - destruct (orelse_some _ _ _ H) as [H' | H'].
    + destruct (IH1 _ _ _ H') as (c1 & A1 & H1). exists c1.
      split; [| exact H1].
      apply (advanced_weaken (min_len r1)); [simpl; lia | exact A1].
    + exists c. split; [apply advanced_refl | exact H'].
  - revert H. generalize (List.length (rest c)) as fuel. revert c.
    intros c fuel. revert c.
    induction fuel as [|fuel IHf]; intros c H.
    + exists c. split; [apply advanced_refl | exact H].
    + destruct (orelse_some _ _ _ H) as [H' | H'].
      * destruct (IH1 _ _ _ H') as (c1 & A1 & H1).
        destruct (pos c <? pos c1)%nat; [| discriminate].
        destruct (IHf _ H1) as (c2 & A2 & H2).
        exists c2. split; [| exact H2].
        apply (advanced_weaken (min_len r1 + 0)); [simpl; lia |].
        apply (advanced_trans _ _ _ _ _ A1 A2).
      * exists c. split; [apply advanced_refl | exact H'].
  - destruct (xorb (word_before c) (word_after c)); [| discriminate].
    exists c. split; [apply advanced_refl | exact H].
  - exists c. split; [apply advanced_refl |].
    destruct (prev c) as [b|]; [| exact H].
    destruct (Ascii.eqb a b); [discriminate | exact H].
Qed.

Lemma advance_total (c c' : cursor) :
  advance c = Some c' ->
  (pos c' + List.length (rest c') = pos c + List.length (rest c))%nat.
Proof.
  unfold advance. destruct (rest c) as [|a t] eqn:E; [discriminate |].
  intro H. injection H as <-. simpl. lia.
Qed.

Lemma skip_one_total (c : cursor) :
  (pos (skip 1 c) + List.length (rest (skip 1 c))
   = pos c + List.length (rest c))%nat.
Proof.
  simpl. destruct (advance c) as [c'|] eqn:E; [| reflexivity].
  now apply advance_total.
Qed.

(** Every match of [finditer] consumes at least [min_len r] characters
    and ends inside the subject. *)
Lemma finditer_from_spans (r : regex) (total fuel : nat) :
  forall c m,
    (pos c + List.length (rest c) = total)%nat ->
    In m (finditer_from fuel r c) ->
    (start m + min_len r <= end_ m)%nat /\ (end_ m <= total)%nat.
Proof.
  induction fuel as [|fuel IH]; intros c m Hc Hin; simpl in Hin;
    [contradiction |].
  destruct (run r c (fun c' => Some c')) as [c'|] eqn:E.
  - destruct (run_advances r c _ c' E) as (c1 & (n & H1 & H2 & H3 & H4) & Hk).
    injection Hk as ->.
    assert (Hhere :
      forall m0,
        m0 = {| start := pos c; end_ := pos c';
                group := string_of_list_ascii
                           (firstn (pos c' - pos c) (rest c)) |} ->
        (start m0 + min_len r <= end_ m0)%nat /\ (end_ m0 <= total)%nat).
    { intros m0 ->. simpl. lia. }
    destruct (pos c <? pos c')%nat.
    + destruct Hin as [<- | Hin]; [now apply Hhere |].
      apply (IH c' m); [| exact Hin].
      rewrite H3, H4, length_skipn. lia.
    + destruct Hin as [<- | Hin]; [now apply Hhere |].
      apply (IH (skip 1 c) m); [| exact Hin].
      rewrite skip_one_total. exact Hc.
  - destruct (advance c) as [c'|] eqn:Ea; [| contradiction].
    apply (IH c' m); [| exact Hin].
    rewrite (advance_total c c' Ea). exact Hc.
Qed.

Lemma finditer_spans (r : regex) (s : string) (m : Match) :
  In m (finditer r s) ->
  (start m + min_len r <= end_ m)%nat /\ (end_ m <= String.length s)%nat.
Proof.
  unfold finditer. intro H.
  apply (finditer_from_spans r (String.length s) (S (String.length s))
           (at_start s) m);
    [| exact H].
  simpl. apply length_list_ascii.
Qed.

End RegexSpans.

(** ** The regex detectors (src/pii_redactor.py, [_detect_with_regex]) *)

Section RegexDetectors.

Import re re_facts pii_redactor.

Lemma collect_ok {A B} (f : A -> result B) (g : A -> B) (l : list A) :
  (forall a, f a = Ok (g a)) -> collect f l = Ok (map g l).
Proof.
  intro H. induction l as [|a t IH]; simpl; [reflexivity |].
  rewrite H. simpl. rewrite IH. reflexivity.
Qed.

Lemma entity_of_match_ok (ty : string) (m : Match) :
  entity_of_match ty m = Ok (of_match ty m).
Proof. reflexivity. Qed.

(** The detector never raises. *)
Lemma detect_with_regex_total (text : string) :
  _detect_with_regex text = Ok (regex_entities text).
Proof.
  unfold _detect_with_regex, patterns, _detect_with_regex_loop.
  rewrite !(collect_ok _ _ _ (entity_of_match_ok _)).
  simpl. unfold regex_entities. now rewrite app_nil_r.
Qed.

Lemma of_match_valid (ty : string) (r : regex) (text : string) (m : Match) :
  (1 <= min_len r)%nat -> In m (finditer r text) ->
  valid_span text (of_match ty m).
Proof.
  intros Hr Hm. destruct (finditer_spans r text m Hm) as [H1 H2].
  unfold valid_span, of_match. simpl. lia.
Qed.

Lemma regex_entity_facts (text : string) (e : PIIEntity.t) :
  In e (regex_entities text) ->
  PIIEntity.confidence e = 1.0
  /\ regex_type (PIIEntity.entity_type e)
  /\ PIIEntity.replacement e = placeholder e
  /\ valid_span text e.
Proof.
  unfold regex_entities, regex_type. intro H.
  apply in_app_or in H. destruct H as [H | H];
    [| apply in_app_or in H; destruct H as [H | H]];
    apply in_map_iff in H; destruct H as (m & <- & Hm);
    (split; [reflexivity |]); (split; [auto |]);
    (split; [reflexivity |]).
  - apply (of_match_valid _ email_pattern); [vm_compute; lia | exact Hm].
  - apply (of_match_valid _ phone_pattern); [vm_compute; lia | exact Hm].
  - apply (of_match_valid _ url_pattern); [vm_compute; lia | exact Hm].
Qed.

(** C3 (amended).  [_detect_with_regex] always returns; each entity it
    produces has type EMAIL, PHONE or URL, confidence exactly 1.0 (the
    top of the 0-1 scale on which the detector reports, not 100), a
    non-empty span inside the text, and the type-tagged placeholder as
    replacement.  When the spans of an entity list that contains them
    do not overlap, redaction replaces every span with its replacement
    and leaves the text around the spans untouched. *)
Theorem regex_entities_certain_and_tagged :
  forall text,
    exists ents,
      _detect_with_regex text = Ok ents
      /\ (forall e, In e ents ->
            PIIEntity.confidence e == 1
            /\ regex_type (PIIEntity.entity_type e)
            /\ PIIEntity.replacement e = placeholder e
            /\ valid_span text e)
      /\ (forall others,
            Forall (valid_span text) (ents ++ others) ->
            non_overlapping (ents ++ others) ->
            redact text (ents ++ others)
            = substitute text (ents ++ others)).
Proof.
  intro text. exists (regex_entities text).
  split; [apply detect_with_regex_total |].
  split.
  - intros e He.
    destruct (regex_entity_facts text e He) as (H1 & H2 & H3 & H4).
    rewrite H1. repeat split; try assumption; apply H4.
  - intros others Hv Hn. now apply redact_substitute.
Qed.

Lemma regex_entities_certain_and_tagged_witness :
  exists ents,
    _detect_with_regex sample.contact_line = Ok ents
    /\ ents = [sample.mail; sample.phone]
    /\ redact sample.contact_line ents = "Contact: [EMAIL], +[PHONE]".
Proof.
  destruct (regex_entities_certain_and_tagged sample.contact_line)
    as (ents & H1 & H2 & H3).
  exists ents.
  assert (E : ents = [sample.mail; sample.phone]).
  { vm_compute in H1. injection H1 as <-. reflexivity. }
  split; [exact H1 |]. split; [exact E |].
  specialize (H3 []). rewrite app_nil_r in H3. rewrite H3; subst ents.
  - reflexivity.
  - repeat constructor; unfold valid_span; simpl; lia.
  - repeat constructor; unfold disjoint; simpl; lia.
Defined.

(** On the contact line the two detected entities carry confidence 1.0,
    so not every regex entity has confidence 100.  On an address made
    of digits the e-mail and the telephone detectors claim overlapping
    spans, and redaction leaves "[PHONE]" only: the e-mail address is
    not replaced by its own placeholder. *)
Lemma regex_confidence_is_one_not_hundred :
  _detect_with_regex sample.contact_line = Ok [sample.mail; sample.phone]
  /\ PIIEntity.confidence sample.mail == 1
  /\ ~ (forall text ents e,
          _detect_with_regex text = Ok ents -> In e ents ->
          PIIEntity.confidence e == 100)
  /\ _detect_with_regex sample.digits_mail
     = Ok [entity "EMAIL" "1234567@x.com" 0 13 1.0;
           entity "PHONE" "1234567" 0 7 1.0]
  /\ redact sample.digits_mail
       [entity "EMAIL" "1234567@x.com" 0 13 1.0;
        entity "PHONE" "1234567" 0 7 1.0]
     = "[PHONE]".
Proof.
  assert (H : _detect_with_regex sample.contact_line
              = Ok [sample.mail; sample.phone]) by (vm_compute; reflexivity).
  split; [exact H |]. split; [reflexivity |]. split.
  - intro Hall.
    specialize (Hall sample.contact_line _ sample.mail H (or_introl eq_refl)).
    vm_compute in Hall. discriminate.
  - split; vm_compute; reflexivity.
Qed.

End RegexDetectors.

(** ** Merging of statistical spans (src/pii_redactor.py, [detect_pii]) *)

Section SpanMerging.

Import pii_redactor.

Local Open Scope Z_scope.

Lemma overlaps_occupied_true (s e : Z) (occupied : list (Z * Z)) :
  overlaps_occupied s e occupied = true
  <-> exists s' e', In (s', e') occupied /\ ~ (e <= s' \/ s >= e').
Proof.
  unfold overlaps_occupied. rewrite existsb_exists. split.
  - intros ([s' e'] & Hin & H). exists s', e'. split; [exact Hin |].
    simpl in H. apply negb_true_iff, orb_false_iff in H.
    destruct H as [H1 H2].
    apply Z.leb_gt in H1. rewrite Z.geb_leb in H2.
    apply Z.leb_gt in H2. lia.
  - intros (s' & e' & Hin & H). exists (s', e'). split; [exact Hin |].
    simpl. apply negb_true_iff, orb_false_iff. split.
    + apply Z.leb_gt. lia.
    + rewrite Z.geb_leb. apply Z.leb_gt. lia.
Qed.

Lemma overlaps_occupied_false (s e : Z) (occupied : list (Z * Z)) :
  overlaps_occupied s e occupied = false
  <-> forall s' e', In (s', e') occupied -> e <= s' \/ s >= e'.
Proof.
  split.
  - intros H s' e' Hin.
    destruct (Z_le_gt_dec e s') as [H1 | H1]; [now left |].
    destruct (Z_ge_lt_dec s e') as [H2 | H2]; [now right |].
    assert (Ht : overlaps_occupied s e occupied = true).
    { apply overlaps_occupied_true. exists s', e'. split; [exact Hin | lia]. }
    congruence.
  - intro H. destruct (overlaps_occupied s e occupied) eqn:E; [| reflexivity].
    apply overlaps_occupied_true in E.
    destruct E as (s' & e' & Hin & Hno). destruct (H s' e' Hin); lia.
Qed.

Lemma kept_tests (occupied : list (Z * Z)) (ent : ner_span) (N : string) :
  kept occupied ent N ->
  is_name_or_location (_normalise_label (entity_group ent)) = true
  /\ overlaps_occupied (start ent) (end_ ent) occupied = false.
Proof.
  intros (HN & Hty & Hocc). split.
  - rewrite HN. unfold is_name_or_location.
    destruct Hty as [-> | ->]; reflexivity.
  - apply overlaps_occupied_false. exact Hocc.
Qed.

(** A span that overlaps an occupied span is dropped. *)
Lemma step_discards (st : loop_state) (ent : ner_span) :
  hits (occupied_spans st) ent -> step st ent = Ok st.
Proof.
  intros (s & e & Hin & H).
  assert (E : overlaps_occupied (start ent) (end_ ent) (occupied_spans st)
              = true).
  { apply overlaps_occupied_true. exists s, e. now split. }
  unfold step. rewrite E.
  destruct (negb (is_name_or_location _)); reflexivity.
Qed.

(** A span of any other type is ignored. *)
Lemma step_ignores (st : loop_state) (ent : ner_span) :
  is_name_or_location (_normalise_label (entity_group ent)) = false ->
  step st ent = Ok st.
Proof.
  intro H. unfold step. rewrite H. reflexivity.
Qed.

Lemma step_merges (st : loop_state) (ent : ner_span) (N : string)
    (b : buffer) :
  kept (occupied_spans st) ent N ->
  current_entity st = Some b -> b_entity_type b = N ->
  start ent <= b_end_char b + 1 ->
  step st ent
  = Ok {| pii_entities := pii_entities st;
          occupied_spans := occupied_spans st;
          current_entity := Some (merge b ent) |}.
Proof.
  intros Hk Hc Hty Hadj.
  destruct (kept_tests _ _ _ Hk) as [E1 E2].
  destruct Hk as (HN & _).
  unfold step. rewrite E1, E2, Hc. simpl.
  rewrite HN, Hty, String.eqb_refl. simpl.
  destruct (start ent >? b_end_char b + 1) eqn:E; [| reflexivity].
  apply Z.gtb_lt in E. lia.
Qed.

Lemma step_starts_new (st : loop_state) (ent : ner_span) (N : string)
    (b : buffer) (e : PIIEntity.t) :
  kept (occupied_spans st) ent N ->
  current_entity st = Some b -> b_entity_type b = N ->
  b_end_char b + 2 <= start ent ->
  entity_of_buffer b = Ok e ->
  step st ent
  = Ok {| pii_entities := pii_entities st ++ [e];
          occupied_spans :=
            occupied_spans st ++ [(b_start_char b, b_end_char b)];
          current_entity := Some (new_buffer N ent) |}.
Proof.
  intros Hk Hc Hty Hgap He.
  destruct (kept_tests _ _ _ Hk) as [E1 E2].
  destruct Hk as (HN & _).
  unfold step. rewrite E1, E2, Hc. simpl.
  rewrite HN, Hty, String.eqb_refl. simpl.
  assert (E : (start ent >? b_end_char b + 1) = true).
  { apply Z.gtb_lt. lia. }
  rewrite E. unfold flush. rewrite Hc, He. reflexivity.
Qed.

Lemma step_opens (st : loop_state) (ent : ner_span) (N : string) :
  kept (occupied_spans st) ent N -> current_entity st = None ->
  step st ent
  = Ok {| pii_entities := pii_entities st;
          occupied_spans := occupied_spans st;
          current_entity := Some (new_buffer N ent) |}.
Proof.
  intros Hk Hc.
  destruct (kept_tests _ _ _ Hk) as [E1 E2].
  destruct Hk as (HN & _).
  unfold step. rewrite E1, E2, Hc. simpl. unfold flush. rewrite Hc.
  simpl. now rewrite HN.
Qed.

Lemma merge_text (b : buffer) (ent : ner_span) :
  (entity_group ent = b_entity_group b ->
   b_text (merge b ent) = (b_text b ++ word ent)%string)
  /\ (entity_group ent <> b_entity_group b ->
      b_text (merge b ent) = (b_text b ++ " " ++ word ent)%string).
Proof.
  unfold merge. simpl. split; intro H.
  - apply String.eqb_eq in H. now rewrite H.
  - apply String.eqb_neq in H. now rewrite H.
Qed.

(** *** The maximum *)

Lemma max_cases (a b : Q) :
  (Py.max a b = a /\ (b <= a)%Q) \/ (Py.max a b = b /\ (a < b)%Q).
Proof.
  unfold Py.max. destruct (Qgtb b a) eqn:E.
  - right. split; [reflexivity | now apply Qgtb_gt].
  - left. split; [reflexivity | now apply Qgtb_le].
Qed.

Lemma max_of_bounds (l : list Q) (q : Q) :
  (q <= max_of q l)%Q
  /\ (forall x, In x l -> (x <= max_of q l)%Q)
  /\ In (max_of q l) (q :: l).
Proof.
  unfold max_of. revert q. induction l as [|a t IH]; intro q; simpl.
  - split; [apply Qle_refl |]. split; [intros x [] | now left].
  - destruct (IH (Py.max q a)) as (H1 & H2 & H3).
    destruct (max_cases q a) as [[E Hle] | [E Hlt]]; rewrite E in *.
    + split; [exact H1 |]. split.
      * intros x [<- | Hx]; [| now apply H2].
        apply Qle_trans with q; assumption.
      * destruct H3 as [H3 | H3]; [now left | now right; right].
    + split; [apply Qle_trans with a; [now apply Qlt_le_weak | exact H1] |].
      split.
      * intros x [<- | Hx]; [exact H1 | now apply H2].
      * destruct H3 as [H3 | H3]; [now right; left | now right; right].
Qed.

(** *** A run of adjacent spans *)

Lemma last_nonempty {A} (l : list A) (d d' : A) :
  l <> [] -> last l d = last l d'.
Proof.
  induction l as [|a t IH]; intro H; [congruence |].
  destruct t as [|a' t']; [reflexivity |].
  change (last (a' :: t') d = last (a' :: t') d').
  apply IH. discriminate.
Qed.

Lemma merge_fold_facts (toks : list ner_span) (b : buffer) :
  b_entity_type (fold_left merge toks b) = b_entity_type b
  /\ b_start_char (fold_left merge toks b) = b_start_char b
  /\ b_replacement (fold_left merge toks b) = b_replacement b
  /\ b_end_char (fold_left merge toks b)
     = last (map end_ toks) (b_end_char b)
  /\ b_confidence (fold_left merge toks b)
     = max_of (b_confidence b) (map score toks).
Proof.
  revert b. induction toks as [|t r IH]; intro b.
  - repeat split.
  - destruct (IH (merge b t)) as (H1 & H2 & H3 & H4 & H5).
    change (fold_left merge (t :: r) b) with (fold_left merge r (merge b t)).
    rewrite H1, H2, H3, H4, H5.
    repeat split.
    destruct r as [|n r']; [reflexivity |].
    change (last (map end_ (t :: n :: r')) (b_end_char b))
      with (last (map end_ (n :: r')) (b_end_char b)).
    apply last_nonempty. discriminate.
Qed.

Lemma run_loop_merges (toks : list ner_span) (st : loop_state)
    (N : string) (b : buffer) :
  current_entity st = Some b -> b_entity_type b = N ->
  adjacent_run (occupied_spans st) N (b_end_char b) toks ->
  run_loop st toks
  = Ok {| pii_entities := pii_entities st;
          occupied_spans := occupied_spans st;
          current_entity := Some (fold_left merge toks b) |}.
Proof.
  revert st b. induction toks as [|t r IH]; intros st b Hc Hty Hrun; simpl.
  - destruct st. simpl in *. now subst.
  - destruct Hrun as (Hk & Hadj & Hrest).
    rewrite (step_merges st t N b Hk Hc Hty Hadj). simpl.
    rewrite (IH {| pii_entities := pii_entities st;
                   occupied_spans := occupied_spans st;
                   current_entity := Some (merge b t) |} (merge b t)
               eq_refl Hty Hrest).
    reflexivity.
Qed.

Lemma entity_of_buffer_ok (b : buffer) :
  (0 <= b_confidence b)%Q -> (b_confidence b <= 100)%Q ->
  entity_of_buffer b
  = Ok {| PIIEntity.entity_type := b_entity_type b;
          PIIEntity.text := b_text b;
          PIIEntity.start_char := b_start_char b;
          PIIEntity.end_char := b_end_char b;
          PIIEntity.confidence := b_confidence b;
          PIIEntity.replacement := b_replacement b |}.
Proof.
  intros H1 H2. unfold entity_of_buffer, PIIEntity.new.
  apply Qleb_le in H1, H2. now rewrite H1, H2.
Qed.

(** A run of adjacent spans comes out of [detect_pii] as one entity,
    after the regex entities. *)
Lemma detect_pii_run (self : PIIDetector) (text : string) (N : string)
    (first : ner_span) (rest : list ner_span) :
  ner self text = Ok (first :: rest) ->
  kept (regex_spans text) first N ->
  adjacent_run (regex_spans text) N (end_ first) rest ->
  (0 <= max_of (score first) (map score rest))%Q ->
  (max_of (score first) (map score rest) <= 100)%Q ->
  detect_pii self text
  = Ok (regex_entities text ++ [merged_entity N first rest]).
Proof.
  intros Hner Hk Hrun Hlo Hhi.
  unfold detect_pii. rewrite detect_with_regex_total. cbn [bind].
  rewrite Hner. cbn [bind].
  fold (regex_spans text).
  set (st0 := {| pii_entities := regex_entities text;
                 occupied_spans := regex_spans text;
                 current_entity := None |}).
  change (run_loop st0 (first :: rest))
    with (st' <- step st0 first ;; run_loop st' rest).
  rewrite (step_opens st0 first N Hk eq_refl). cbn [bind].
  rewrite (run_loop_merges rest
             {| pii_entities := pii_entities st0;
                occupied_spans := occupied_spans st0;
                current_entity := Some (new_buffer N first) |}
             N (new_buffer N first) eq_refl eq_refl Hrun).
  cbn [bind]. unfold flush. cbn [current_entity].
  destruct (merge_fold_facts rest (new_buffer N first))
    as (H1 & H2 & H3 & H4 & H5).
  rewrite entity_of_buffer_ok; [| rewrite H5; exact Hlo | rewrite H5; exact Hhi].
  cbn [bind pii_entities]. rewrite H1, H2, H3, H4, H5.
  reflexivity.
Qed.

(** C6.  In [detect_pii]: a statistical span that overlaps an occupied
    span is discarded.  A kept span of the buffer's normalised type
    (NAME or LOCATION) is merged into the buffer when it starts at most
    one character after the buffer's [end_char]; when the gap is two
    characters or more the buffer is flushed as an entity and the span
    opens a new buffer.  Merging appends the word with no separator when
    the span's sub-label equals the sub-label of the previous token and
    after a single space otherwise.  The confidence of a merged buffer
    is the maximum of the confidences merged so far, so a run of
    adjacent spans becomes one entity whose confidence is the largest
    score of the run. *)
Theorem detect_pii_merges_adjacent_spans :
  (forall st ent,
      hits (occupied_spans st) ent -> step st ent = Ok st)
  /\ (forall st ent N b,
        kept (occupied_spans st) ent N ->
        current_entity st = Some b -> b_entity_type b = N ->
        (start ent <= b_end_char b + 1 ->
         step st ent
         = Ok {| pii_entities := pii_entities st;
                 occupied_spans := occupied_spans st;
                 current_entity := Some (merge b ent) |})
        /\ (b_end_char b + 2 <= start ent ->
            forall e, entity_of_buffer b = Ok e ->
            step st ent
            = Ok {| pii_entities := pii_entities st ++ [e];
                    occupied_spans :=
                      occupied_spans st
                      ++ [(b_start_char b, b_end_char b)];
                    current_entity := Some (new_buffer N ent) |}))
  /\ (forall b ent,
        (entity_group ent = b_entity_group b ->
         b_text (merge b ent) = (b_text b ++ word ent)%string)
        /\ (entity_group ent <> b_entity_group b ->
            b_text (merge b ent) = (b_text b ++ " " ++ word ent)%string)
        /\ b_entity_group (merge b ent) = entity_group ent
        /\ b_end_char (merge b ent) = end_ ent
        /\ b_confidence (merge b ent)
           = Py.max (b_confidence b) (score ent))
  /\ (forall self text N first rest,
        ner self text = Ok (first :: rest) ->
        kept (regex_spans text) first N ->
        adjacent_run (regex_spans text) N (end_ first) rest ->
        (0 <= max_of (score first) (map score rest))%Q ->
        (max_of (score first) (map score rest) <= 100)%Q ->
        detect_pii self text
        = Ok (regex_entities text ++ [merged_entity N first rest])
        /\ PIIEntity.confidence (merged_entity N first rest)
           = max_of (score first) (map score rest))
  /\ (forall q l,
        (q <= max_of q l)%Q
        /\ (forall x, In x l -> (x <= max_of q l)%Q)
        /\ In (max_of q l) (q :: l)).
Proof.
  split; [exact step_discards |].
  split.
  { intros st ent N b Hk Hc Hty. split.
    - intro Hadj. apply (step_merges st ent N b); assumption.
    - intros Hgap e He. apply (step_starts_new st ent N b e); assumption. }
  split.
  { intros b ent. destruct (merge_text b ent) as [H1 H2].
    repeat split; assumption. }
  split.
  { intros self text N first rest Hner Hk Hrun Hlo Hhi.
    split; [now apply detect_pii_run | reflexivity]. }
  intros q l. apply max_of_bounds.
Qed.

Lemma detect_pii_merges_adjacent_spans_witness :
  detect_pii (detector_returning [sample.john; sample.smith]) "John Smith"
  = Ok [{| PIIEntity.entity_type := "NAME";
           PIIEntity.text := "John Smith";
           PIIEntity.start_char := 0;
           PIIEntity.end_char := 10;
           PIIEntity.confidence := 0.95;
           PIIEntity.replacement := "[NAME]" |}]
  /\ detect_pii (detector_returning [sample.jo; sample.hn]) "John"
     = Ok [{| PIIEntity.entity_type := "NAME";
              PIIEntity.text := "John";
              PIIEntity.start_char := 0;
              PIIEntity.end_char := 4;
              PIIEntity.confidence := 0.95;
              PIIEntity.replacement := "[NAME]" |}]
  /\ step {| pii_entities := []; occupied_spans := [];
             current_entity := Some (new_buffer "NAME" sample.john) |}
       sample.smith_far
     = Ok {| pii_entities := [entity "NAME" "John" 0 4 0.9];
             occupied_spans := [(0, 4)];
             current_entity := Some (new_buffer "NAME" sample.smith_far) |}
  /\ step {| pii_entities := []; occupied_spans := [(3, 8)];
             current_entity := None |} sample.smith
     = Ok {| pii_entities := []; occupied_spans := [(3, 8)];
             current_entity := None |}.
Proof.
  destruct detect_pii_merges_adjacent_spans as (H1 & H2 & _ & H4 & _).
  split; [| split; [| split]].
  - destruct (H4 (detector_returning [sample.john; sample.smith])
                "John Smith" "NAME" sample.john [sample.smith])
      as [H _].
    + reflexivity.
    + split; [reflexivity |]. split; [now left |].
      intros s e Hin. vm_compute in Hin. contradiction.
    + split; [| split; [simpl; lia | exact I]].
      split; [reflexivity |]. split; [now left |].
      intros s e Hin. vm_compute in Hin. contradiction.
    + vm_compute. discriminate.
    + vm_compute. discriminate.
    + rewrite H. reflexivity.
  - destruct (H4 (detector_returning [sample.jo; sample.hn])
                "John" "NAME" sample.jo [sample.hn])
      as [H _].
    + reflexivity.
    + split; [reflexivity |]. split; [now left |].
      intros s e Hin. vm_compute in Hin. contradiction.
    + split; [| split; [simpl; lia | exact I]].
      split; [reflexivity |]. split; [now left |].
      intros s e Hin. vm_compute in Hin. contradiction.
    + vm_compute. discriminate.
    + vm_compute. discriminate.
    + rewrite H. reflexivity.
  - destruct (H2 {| pii_entities := []; occupied_spans := [];
                    current_entity := Some (new_buffer "NAME" sample.john) |}
                sample.smith_far "NAME" (new_buffer "NAME" sample.john))
      as [_ Hnew].
    + split; [reflexivity |]. split; [now left |]. intros s e [].
    + reflexivity.
    + reflexivity.
    + apply (Hnew ltac:(simpl; lia) (entity "NAME" "John" 0 4 0.9)).
      reflexivity.
  - apply H1. exists 3, 8. split; [now left |]. simpl. lia.
Defined.

End SpanMerging.

(** ** The pipeline (src/orchestrator.py) *)

Section Orchestrator.

Import agents orchestrator.

(** When the redaction stage raises and every other stage succeeds, the
    run goes on with the original text up to the construction of the
    report, which rejects the class object bound to
    [candidate_details]. *)
Lemma analyse_redaction_failure (env : Env)
    (resume_source job_source candidate_id job_id : string)
    (progress_callback : string -> result unit) (w : world)
    (resume_text job_text : string) (e : exn)
    (parsed_resume : ParsedResume.t) (parsed_job : ParsedJob.t)
    (fit : FitAnalysis.t) (summary : SummaryGenerated.t) (t : thread) :
  let cid := if truthy candidate_id then candidate_id
             else ("cand_" ++ strftime env (now env))%string in
  let jid := if truthy job_id then job_id
             else ("job_" ++ strftime env (now env))%string in
  load_document env resume_source = Ok resume_text ->
  load_document env job_source = Ok job_text ->
  (forall msg, progress_callback msg = Ok tt) ->
  pii_redactor.process_resume (pii_detector (self w)) (now env)
    (strftime env (now env)) resume_text cid = Raise e ->
  parse_resume (the_agents env) resume_text cid = Ok parsed_resume ->
  parse_job (the_agents env) job_text jid = Ok parsed_job ->
  match_candidate_to_job (the_agents env) parsed_resume parsed_job = Ok fit ->
  generate_summary (the_agents env) fit parsed_resume parsed_job None None
  = Ok (summary, t) ->
  analyse env resume_source job_source candidate_id job_id
    (Some progress_callback) w
  = (Raise (ValidationError "candidate_details"),
     {| self := {| pii_detector := pii_detector (self w);
                   message_thread := Some t |};
        reports := reports w;
        delivered :=
          delivered w
          ++ ["**Status:** Resume loaded ... **Now:** Loading job ad";
              "**Status:** Job loaded ... **Now:** Redacting resume";
              "**Status:** Resume Redaction failed";
              "**Status:** Resume parsed ... **Now:** Parsing job ad";
              "**Status:** Job ad parsed ... **Now:** Computing fit";
              "**Status:** Candidate fit analysed ... **Now:** Generating summary"]
     |}).
Proof.
  intros cid jid Hr Hj Hcb Hred Hpr Hpj Hfit Hsum.
  unfold analyse. fold cid. fold jid.
  unfold bindM, try_exceptM, lift, call, ret, raise, get_self,
    set_message_thread, alloc.
  repeat (progress (rewrite ?Hr, ?Hj, ?Hcb, ?Hred, ?Hpr, ?Hpj, ?Hfit, ?Hsum;
                    cbn [self fst snd RedacteddResume.redacted_text
                         AnalysisReport.new])).
  cbn [reports delivered]. rewrite <- !app_assoc. reflexivity.
Qed.

(** However the other stages fare, a run whose redaction stage raised
    returns no report. *)
Lemma analyse_redaction_failure_never_completes (env : Env)
    (resume_source job_source candidate_id job_id : string)
    (progress_callback : option (string -> result unit)) (w : world)
    (resume_text : string) (e : exn) :
  let cid := if truthy candidate_id then candidate_id
             else ("cand_" ++ strftime env (now env))%string in
  load_document env resume_source = Ok resume_text ->
  pii_redactor.process_resume (pii_detector (self w)) (now env)
    (strftime env (now env)) resume_text cid = Raise e ->
  forall ref w',
    analyse env resume_source job_source candidate_id job_id
      progress_callback w
    <> (Ok ref, w').
Proof.
  intros cid Hr Hred ref w'.
  unfold analyse. fold cid.
  unfold bindM, try_exceptM, lift, call, ret, raise, get_self,
    set_message_thread, alloc.
  rewrite Hr.
  destruct progress_callback as [cb |]; [| discriminate].
  repeat first
    [ discriminate
    | progress cbn [self fst snd AnalysisReport.new
                    RedacteddResume.redacted_text]
    | rewrite Hred
    | match goal with
      | |- context [match cb ?m with _ => _ end] => destruct (cb m)
      | |- context [match load_document ?a ?b with _ => _ end] =>
          destruct (load_document a b)
      | |- context [match parse_resume ?a ?b ?c with _ => _ end] =>
          destruct (parse_resume a b c)
      | |- context [match parse_job ?a ?b ?c with _ => _ end] =>
          destruct (parse_job a b c)
      | |- context [match match_candidate_to_job ?a ?b ?c with _ => _ end] =>
          destruct (match_candidate_to_job a b c)
      | |- context [match generate_summary ?a ?b ?c ?d ?f ?g with _ => _ end] =>
          destruct (generate_summary a b c d f g) as [[? ?] | ?]
      end ].
Qed.

(** With a working redaction stage the same run returns a report that
    carries the contact card. *)
Lemma analyse_completes (env : Env)
    (resume_source job_source candidate_id job_id : string)
    (progress_callback : string -> result unit) (w : world)
    (resume_text job_text : string)
    (redacted : RedacteddResume.t) (detail : CandidateDetail.t)
    (parsed_resume : ParsedResume.t) (parsed_job : ParsedJob.t)
    (fit : FitAnalysis.t) (summary : SummaryGenerated.t) (t : thread) :
  let cid := if truthy candidate_id then candidate_id
             else ("cand_" ++ strftime env (now env))%string in
  let jid := if truthy job_id then job_id
             else ("job_" ++ strftime env (now env))%string in
  load_document env resume_source = Ok resume_text ->
  load_document env job_source = Ok job_text ->
  (forall msg, progress_callback msg = Ok tt) ->
  pii_redactor.process_resume (pii_detector (self w)) (now env)
    (strftime env (now env)) resume_text cid = Ok (redacted, detail) ->
  parse_resume (the_agents env) (RedacteddResume.redacted_text redacted) cid
  = Ok parsed_resume ->
  parse_job (the_agents env) job_text jid = Ok parsed_job ->
  match_candidate_to_job (the_agents env) parsed_resume parsed_job = Ok fit ->
  generate_summary (the_agents env) fit parsed_resume parsed_job None None
  = Ok (summary, t) ->
  exists w',
    analyse env resume_source job_source candidate_id job_id
      (Some progress_callback) w
    = (Ok (List.length (reports w)), w')
    /\ reports w'
       = reports w
         ++ [{| AnalysisReport.candidate_details := detail;
                AnalysisReport.job_id := jid;
                AnalysisReport.summary := summary;
                AnalysisReport.fit_analysis := fit;
                AnalysisReport.resume := parsed_resume;
                AnalysisReport.job := parsed_job;
                AnalysisReport.generated_at := now env |}]
    /\ message_thread (self w') = Some t.
Proof.
  intros cid jid Hr Hj Hcb Hred Hpr Hpj Hfit Hsum.
  unfold analyse. fold cid. fold jid.
  unfold bindM, try_exceptM, lift, call, ret, raise, get_self,
    set_message_thread, alloc.
  repeat (progress (rewrite ?Hr, ?Hj, ?Hcb, ?Hred, ?Hpr, ?Hpj, ?Hfit, ?Hsum;
                    cbn [self fst snd RedacteddResume.redacted_text
                         AnalysisReport.new reports delivered])).
  eexists. split; [reflexivity |]. split; reflexivity.
Qed.

(** C2.  A run of [analyse] whose redaction stage raises does not return
    a report.  When every other stage succeeds the run does go on with
    the original text, parses, matches and summarises, and then fails
    in the construction of the report: the handler binds
    [candidate_details] to the class [CandidateDetail] itself rather
    than to an empty instance, which the report's validation rejects. *)
Theorem analyse_redaction_failure_is_fatal :
  (forall env resume_source job_source candidate_id job_id
          progress_callback w resume_text e,
      load_document env resume_source = Ok resume_text ->
      pii_redactor.process_resume (pii_detector (self w)) (now env)
        (strftime env (now env)) resume_text
        (if truthy candidate_id then candidate_id
         else ("cand_" ++ strftime env (now env))%string)
      = Raise e ->
      forall ref w',
        analyse env resume_source job_source candidate_id job_id
          progress_callback w
        <> (Ok ref, w'))
  /\ analyse sample.env "resume.txt" "job.txt" "c_001" "j_001"
       (Some sample.sink)
       (sample.fresh (detector_raising (ProviderError "model unavailable")))
     = (Raise (ValidationError "candidate_details"),
        {| self :=
             {| pii_detector :=
                  detector_raising (ProviderError "model unavailable");
                message_thread := Some ["first summary"] |};
           reports := [];
           delivered :=
             ["**Status:** Resume loaded ... **Now:** Loading job ad";
              "**Status:** Job loaded ... **Now:** Redacting resume";
              "**Status:** Resume Redaction failed";
              "**Status:** Resume parsed ... **Now:** Parsing job ad";
              "**Status:** Job ad parsed ... **Now:** Computing fit";
              "**Status:** Candidate fit analysed ... **Now:** Generating summary"]
        |}).
Proof.
  split.
  - intros env rs js cid jid cb w text e Hr Hred.
    exact (analyse_redaction_failure_never_completes env rs js cid jid cb w
             text e Hr Hred).
  - reflexivity.
Qed.

Lemma analyse_redaction_failure_is_fatal_witness :
  fst (analyse sample.env "resume.txt" "job.txt" "c_001" "j_001"
         (Some sample.sink)
         (sample.fresh (detector_raising (ProviderError "model unavailable"))))
  = Raise (ValidationError "candidate_details")
  /\ analyse sample.env "resume.txt" "job.txt" "c_001" "j_001"
       (Some sample.sink)
       (sample.fresh (detector_raising (ProviderError "model unavailable")))
     <> (Ok 0%nat, sample.completed).
Proof.
  destruct analyse_redaction_failure_is_fatal as [H E].
  split.
  - rewrite E. reflexivity.
  - apply (H sample.env "resume.txt" "job.txt" "c_001" "j_001"
             (Some sample.sink)
             (sample.fresh
                (detector_raising (ProviderError "model unavailable")))
             sample.contact_line (ProviderError "model unavailable"));
      reflexivity.
Defined.

(** *** Regeneration *)

Lemma nth_error_update_same {A} (l : list A) (i : nat) (f : A -> A) (a : A) :
  nth_error l i = Some a -> nth_error (update l i f) i = Some (f a).
Proof.
  revert i. induction l as [|x t IH]; intros [|i] H; simpl in *;
    try discriminate.
  - now injection H as ->.
  - now apply IH.
Qed.

Lemma nth_error_update_other {A} (l : list A) (i j : nat) (f : A -> A) :
  i <> j -> nth_error (update l i f) j = nth_error l j.
Proof.
  revert i j. induction l as [|x t IH]; intros [|i] [|j] H; simpl;
    try reflexivity; try congruence.
  apply IH. congruence.
Qed.

Lemma length_update {A} (l : list A) (i : nat) (f : A -> A) :
  List.length (update l i f) = List.length l.
Proof.
  revert i. induction l as [|x t IH]; intros [|i]; simpl; try reflexivity.
  now rewrite IH.
Qed.

(** C9.  [regenerate_summary] on the report behind [ref]: when the
    summarisation call, which receives the stored message thread as its
    history, returns a summary and a new history, the call returns that
    summary, the report's [summary] field holds it, its
    [candidate_details], [job_id], [fit_analysis], [resume], [job] and
    [generated_at] are unchanged, no other report is touched, and the
    stored message thread is the new history.  When the summarisation
    call raises, nothing is changed and the error is re-raised as
    "Summary generation failed". *)
Theorem regenerate_summary_replaces_only_summary :
  forall env w ref report recruiter_feedback,
    nth_error (reports w) ref = Some report ->
    (forall summary new_thread,
        generate_summary (the_agents env)
          (AnalysisReport.fit_analysis report) (AnalysisReport.resume report)
          (AnalysisReport.job report) (Some recruiter_feedback)
          (message_thread (self w))
        = Ok (summary, new_thread) ->
        exists w' report',
          regenerate_summary env ref recruiter_feedback w = (Ok summary, w')
          /\ nth_error (reports w') ref = Some report'
          /\ AnalysisReport.summary report' = summary
          /\ AnalysisReport.candidate_details report'
             = AnalysisReport.candidate_details report
          /\ AnalysisReport.job_id report' = AnalysisReport.job_id report
          /\ AnalysisReport.fit_analysis report'
             = AnalysisReport.fit_analysis report
          /\ AnalysisReport.resume report' = AnalysisReport.resume report
          /\ AnalysisReport.job report' = AnalysisReport.job report
          /\ AnalysisReport.generated_at report'
             = AnalysisReport.generated_at report
          /\ (forall other, other <> ref ->
                nth_error (reports w') other = nth_error (reports w) other)
          /\ List.length (reports w') = List.length (reports w)
          /\ message_thread (self w') = Some new_thread
          /\ pii_detector (self w') = pii_detector (self w)
          /\ delivered w' = delivered w)
    /\ (forall e,
          generate_summary (the_agents env)
            (AnalysisReport.fit_analysis report)
            (AnalysisReport.resume report) (AnalysisReport.job report)
            (Some recruiter_feedback) (message_thread (self w))
          = Raise e ->
          regenerate_summary env ref recruiter_feedback w
          = (Raise (Exception ("Summary generation failed: " ++ exn_text e)),
             w)).
Proof.
  intros env w ref report fb Href. split.
  - intros summary new_thread Hgen.
    eexists. exists (AnalysisReport.set_summary report summary).
    unfold regenerate_summary, bindM, try_exceptM, lift, deref, get_self,
      assign_summary, set_message_thread, ret.
    rewrite Href, Hgen. cbn [self reports delivered fst snd].
    split; [reflexivity |].
    cbn [self reports delivered pii_detector message_thread].
    split;
      [exact (nth_error_update_same (reports w) ref
                (fun r => AnalysisReport.set_summary r summary) report Href) |].
    repeat (split; [reflexivity |]).
    split; [intros other Ho; apply nth_error_update_other; congruence |].
    split; [apply length_update |].
    repeat split.
  - intros e Hgen.
    unfold regenerate_summary, bindM, try_exceptM, lift, deref, get_self,
      assign_summary, set_message_thread, ret, raise.
    rewrite Href, Hgen. reflexivity.
Qed.

Lemma regenerate_summary_replaces_only_summary_witness :
  (exists w' report',
      regenerate_summary sample.env 0 "Leadership exposure seems limited."
        sample.completed
      = (Ok (SummaryGenerated.set_ids sample.revised_summary "c_001" "j_001"),
         w')
      /\ nth_error (reports w') 0 = Some report'
      /\ AnalysisReport.fit_analysis report'
         = AnalysisReport.fit_analysis sample.report
      /\ message_thread (self w')
         = Some ["first summary"; "Leadership exposure seems limited."])
  /\ regenerate_summary sample.env_offline 0
       "Leadership exposure seems limited." sample.completed
     = (Raise (Exception "Summary generation failed: model unavailable"),
        sample.completed).
Proof.
  destruct (regenerate_summary_replaces_only_summary sample.env
              sample.completed 0 sample.report
              "Leadership exposure seems limited." eq_refl) as [Hok _].
  destruct (regenerate_summary_replaces_only_summary sample.env_offline
              sample.completed 0 sample.report
              "Leadership exposure seems limited." eq_refl) as [_ Hfail].
  split.
  - destruct (Hok (SummaryGenerated.set_ids sample.revised_summary
                     "c_001" "j_001")
                ["first summary"; "Leadership exposure seems limited."]
                eq_refl)
      as (w' & r' & H1 & H2 & _ & _ & _ & H3 & _ & _ & _ & _ & _ & H4 & _).
    exists w', r'. repeat split; assumption.
  - apply (Hfail (ProviderError "model unavailable")). reflexivity.
Defined.

End Orchestrator.

(** ** Further properties of the scoring tools *)

Section ScoreBounds.

Import experience_evaluator overall_scoring.


(** Rounding keeps the order. *)
Lemma round_half_even_monotone (x y : Q) :
  x <= y -> (round_half_even x <= round_half_even y)%Z.
Proof.
  intro Hxy.
  destruct (Z_le_gt_dec (round_half_even x) (round_half_even y))
    as [H | H]; [exact H | exfalso].
  pose proof (round_half_even_near x) as [_ Hx].
  pose proof (round_half_even_near y) as [Hy _].
  assert (Hz : (round_half_even y + 1 <= round_half_even x)%Z) by lia.
  rewrite Zle_Qle, inject_Z_plus in Hz. change (inject_Z 1) with 1 in Hz.
  assert (E : x == y) by lra.
  apply round_half_even_compat in E. lia.
Qed.

Lemma round2_monotone (x y : Q) : x <= y -> round2 x <= round2 y.
Proof.
  intro H. unfold round2.
  assert (Hm : (round_half_even (x * 100) <= round_half_even (y * 100))%Z).
  { apply round_half_even_monotone. lra. }
  rewrite Zle_Qle in Hm.
  apply Qle_shift_div_l; [reflexivity |].
  setoid_replace (inject_Z (round_half_even (x * 100)) / 100 * 100)
    with (inject_Z (round_half_even (x * 100))) by field.
  exact Hm.
Qed.

Lemma round2_integer (z : Z) : round2 (inject_Z z) == inject_Z z.
Proof.
  apply round2_fixed with (z := (z * 100)%Z).
  rewrite inject_Z_mult. reflexivity.
Qed.

(** Rounding does not leave an interval with whole-number ends. *)
Lemma round2_between (lo hi : Z) (x : Q) :
  inject_Z lo <= x -> x <= inject_Z hi ->
  inject_Z lo <= round2 x /\ round2 x <= inject_Z hi.
Proof.
  intros H1 H2. split.
  - rewrite <- (round2_integer lo). now apply round2_monotone.
  - rewrite <- (round2_integer hi). now apply round2_monotone.
Qed.



Lemma combined_is_rounded (y k : Q) :
  field "combined_score" (combine_experience_scores y k)
  = Some (VFloat (round2 (y * 0.4 + k * 0.6))).
Proof. reflexivity. Qed.





End ScoreBounds.

(** ** Further properties of the matchers *)

Section MatcherInvariants.

Import skill_evaluator education_evaluator experience_evaluator.

Lemma getitem_ok_In {A} (l : list A) (i : nat) (a : A) :
  getitem l i = Ok a -> In a l.
Proof.
  unfold getitem. destruct (nth_error l i) as [x|] eqn:E; [| discriminate].
  intro H. injection H as <-. apply (nth_error_In _ _ E).
Qed.

Lemma getitem_empty {A} (i : nat) : @getitem A [] i = Raise IndexError.
Proof. unfold getitem. now destruct i. Qed.

(** X4.  Whatever the embedding provider answers, a result of
    [evaluate_single_skill] is consistent: "match" comes with
    similarity 1.0 and the job skill itself (lexical match) or with a
    similarity of at least 0.80 and one of the candidate's skills,
    "transferable" with a similarity strictly between 0.50 and 0.80,
    "missing" with the integer 0; no other classification occurs. *)
Theorem evaluate_single_skill_consistent :
  forall m job_skill candidate_skills v,
    evaluate_single_skill m job_skill candidate_skills = Ok v ->
    (v = skill_result job_skill job_skill "match" (VFloat 1.0)
     /\ exists c, In c candidate_skills /\ _norm c = _norm job_skill)
    \/ exists best s,
         In best candidate_skills
         /\ ((v = skill_result job_skill best "match" (VFloat s)
              /\ 0.80 <= s)
             \/ (v = skill_result job_skill best "transferable" (VFloat s)
                 /\ 0.50 < s /\ s < 0.80)
             \/ (v = skill_result job_skill best "missing" (VInt 0)
                 /\ s <= 0.50)).
Proof.
  intros m job cands v H. unfold evaluate_single_skill in H.
  destruct (contains (_norm job) (map _norm cands)) eqn:Ec.
  - left. injection H as <-. split; [reflexivity |].
    now apply contains_map_norm.
  - right.
    destruct (encode m (_norm job)) as [x|]; [| discriminate].
    cbn [bind] in H.
    destruct (encode_batch m (map _norm cands)) as [xs|]; [| discriminate].
    cbn [bind] in H.
    destruct (similarity m x xs) as [sims|]; [| discriminate].
    cbn [bind] in H.
    destruct (argmax sims) as [i|]; [| discriminate]. cbn [bind] in H.
    destruct (getitem sims i) as [s|]; [| discriminate]. cbn [bind] in H.
    cbn [semantic_match skill_transferable_min THRESHOLDS] in H.
    destruct (getitem cands i) as [best|] eqn:Eb.
    + exists best, s. split; [exact (getitem_ok_In _ _ _ Eb) |].
      destruct (Qgeb s 0.80) eqn:E1.
      * left. injection H as <-. split; [reflexivity | now apply Qgeb_ge].
      * destruct (Qgtb s 0.50) eqn:E2; simpl in H.
        -- destruct (Qltb s 0.80) eqn:E3; simpl in H.
           ++ right; left. injection H as <-.
              split; [reflexivity |].
              split; [now apply Qgtb_gt | now apply Qltb_lt].
           ++ apply Qgeb_lt in E1. apply Qltb_ge in E3. lra.
        -- right; right. injection H as <-.
           split; [reflexivity | now apply Qgtb_le].
    + destruct (Qgeb s 0.80); [discriminate |].
      destruct (Qgtb s 0.50 && Qltb s 0.80); discriminate.
Qed.

Lemma evaluate_single_skill_consistent_witness :
  exists best s,
    In best ["java"; "golang"; "Go lang"]
    /\ 0.80 <= s
    /\ evaluate_single_skill (constant_model [0.3; 0.9; 0.9]) "go"
         ["java"; "golang"; "Go lang"]
       = Ok (skill_result "go" best "match" (VFloat s)).
Proof.
  destruct (evaluate_single_skill_consistent
              (constant_model [0.3; 0.9; 0.9]) "go"
              ["java"; "golang"; "Go lang"]
              (skill_result "go" "golang" "match" (VFloat 0.9)) eq_refl)
    as [[H _] | (best & s & Hin & H)].
  - discriminate.
  - exists best, s. split; [exact Hin |].
    destruct H as [[E Hs] | [[E _] | [E _]]]; try discriminate.
    split; [exact Hs |]. rewrite <- E. reflexivity.
Defined.

(** X5.  With an empty list of candidate skills [evaluate_single_skill]
    returns no result, whatever the embedding provider does: the call
    raises; when the provider answers with the empty similarity row the
    error is the [ValueError] of the arg-max over an empty array. *)
Theorem evaluate_single_skill_empty_candidates :
  (forall m job_skill, exists e,
      evaluate_single_skill m job_skill [] = Raise e)
  /\ (forall m job_skill,
        answers m (_norm job_skill) [] [] ->
        evaluate_single_skill m job_skill []
        = Raise (ValueError "attempt to get an argmax of an empty sequence")).
Proof.
  split.
  - intros m job. unfold evaluate_single_skill. cbn [map contains existsb].
    destruct (encode m (_norm job)) as [x|e]; [| now exists e].
    cbn [bind].
    destruct (encode_batch m []) as [xs|e]; [| now exists e]. cbn [bind].
    destruct (similarity m x xs) as [sims|e]; [| now exists e]. cbn [bind].
    destruct (argmax sims) as [i|e]; [| now exists e]. cbn [bind].
    destruct (getitem sims i) as [s|e]; [| now exists e]. cbn [bind].
    rewrite getitem_empty. exists IndexError.
    destruct (Qgeb s _); [reflexivity |].
    destruct (Qgtb s _ && Qltb s _); reflexivity.
  - intros m job (x & xs & Hx & Hxs & Hs).
    unfold evaluate_single_skill. cbn [map contains existsb].
    rewrite Hx. cbn [bind]. rewrite Hxs. cbn [bind]. rewrite Hs.
    reflexivity.
Qed.

Lemma evaluate_single_skill_empty_candidates_witness :
  evaluate_single_skill (constant_model []) "python" []
  = Raise (ValueError "attempt to get an argmax of an empty sequence").
Proof.
  destruct evaluate_single_skill_empty_candidates as [_ H].
  apply H. exists "python", []. repeat split.
Defined.

(** X6.  The scoring table of [score_education_and_qualification] on a
    candidate list that has a first item, and on a present requirement:
    a missing requirement ([None] or empty) scores 70 and reports the
    candidate's first item; a present requirement against the empty
    list scores 50; a normalised-equal item scores 100 and reports the
    requirement itself; otherwise the first maximum [s] of the
    similarity row decides: 100 from 0.80, 70 strictly between 0.50 and
    0.80, 0 up to 0.50, reporting the item at that position. *)
Theorem education_scoring_table :
  (forall m requirement first others kind,
      (requirement = None \/ requirement = Some EmptyString) ->
      score_education_and_qualification m requirement (first :: others) kind
      = Ok (education_result kind VNone (VStr first) (VFloat 70.0)
              ("Job does not specify " ++ kind ++ " requirement.")))
  /\ (forall m required kind,
        required <> EmptyString ->
        score_education_and_qualification m (Some required) [] kind
        = Ok (education_result kind (VStr required) VNone (VFloat 50.0)
                ("Candidate " ++ kind ++ " not specified.")))
  /\ (forall m required kind candidates,
        required <> EmptyString ->
        (exists c, In c candidates /\ _norm c = _norm required) ->
        score_education_and_qualification m (Some required) candidates kind
        = Ok (education_result kind (VStr required) (VStr required)
                (VInt 100)
                ("Job does not specify " ++ kind ++ " requirement.")))
  /\ (forall m required kind candidates sims,
        required <> EmptyString ->
        ~ (exists c, In c candidates /\ _norm c = _norm required) ->
        answers m (_norm required) (map _norm candidates) sims ->
        List.length sims = List.length candidates ->
        candidates <> [] ->
        exists i s best,
          first_max sims i s /\ nth_error candidates i = Some best
          /\ (0.80 <= s ->
              score_education_and_qualification m (Some required)
                candidates kind
              = Ok (education_result kind (VStr required) (VStr best)
                      (VInt 100) "Candidate meets requirement."))
          /\ (0.50 < s -> s < 0.80 ->
              score_education_and_qualification m (Some required)
                candidates kind
              = Ok (education_result kind (VStr required) (VStr best)
                      (VInt 70) "Candidate partially meets requirement."))
          /\ (s <= 0.50 ->
              score_education_and_qualification m (Some required)
                candidates kind
              = Ok (education_result kind (VStr required) (VStr best)
                      (VInt 0) "Candidate does not meet requirement."))).
Proof.
  split.
  { intros m requirement first others kind H.
    apply education_no_requirement. now apply requirement_missing_iff. }
  split; [exact education_empty_candidates |].
  split.
  { intros m required kind candidates. apply education_exact. }
  intros m required kind candidates sims. apply education_semantic.
Qed.

Lemma education_scoring_table_witness :
  score_education_and_qualification failing_model None
    ["BSc Computer Science"; "AWS certificate"] "Education"
  = Ok (education_result "Education" VNone (VStr "BSc Computer Science")
          (VFloat 70.0) "Job does not specify Education requirement.")
  /\ score_education_and_qualification failing_model (Some "MSc")
       ["PhD"; " msc "] "Education"
     = Ok (education_result "Education" (VStr "MSc") (VStr "MSc") (VInt 100)
             "Job does not specify Education requirement.").
Proof.
  destruct education_scoring_table as (H1 & _ & H3 & _).
  split.
  - apply H1. now left.
  - apply H3; [discriminate |].
    exists " msc ". split; [simpl; tauto | reflexivity].
Defined.

Lemma required_key_not_score (kind : string) :
  String.eqb "score" (kind ++ "_required") = false.
Proof.
  apply String.eqb_neq. intro E.
  apply (f_equal String.length) in E.
  rewrite <- !length_list_ascii, list_ascii_of_string_app, length_app in E.
  simpl in E. lia.
Qed.

(** X7.  Whatever the embedding provider answers, a result of
    [score_education_and_qualification] carries one of the four scores
    0, 50, 70 and 100. *)
Theorem education_score_values :
  forall m requirement candidates kind v,
    score_education_and_qualification m requirement candidates kind = Ok v ->
    has_number "score" v 0 \/ has_number "score" v 50
    \/ has_number "score" v 70 \/ has_number "score" v 100.
Proof.
  intros m requirement candidates kind v H.
  assert (Hi : forall a b z n q', inject_Z z == q' ->
             has_number "score"
               (VDict [((kind ++ "_required")%string, a);
                       ("best_candidate_match", b);
                       ("score", VInt z); ("note", n)])
               q').
  { intros a b z n q' Hq. exists (VInt z), (inject_Z z).
    repeat split; try reflexivity; try exact Hq.
    cbn [field lookup]. rewrite required_key_not_score. reflexivity. }
  assert (Hf : forall a b q n q', q == q' ->
             has_number "score"
               (VDict [((kind ++ "_required")%string, a);
                       ("best_candidate_match", b);
                       ("score", VFloat q); ("note", n)])
               q').
  { intros a b q n q' Hq. exists (VFloat q), q.
    repeat split; try reflexivity; try exact Hq.
    cbn [field lookup]. rewrite required_key_not_score. reflexivity. }
  unfold score_education_and_qualification in H.
  destruct (requirement_missing requirement).
  - destruct (getitem candidates 0) as [first|]; [| discriminate].
    injection H as <-. right; right; left. apply Hf; reflexivity.
  - destruct requirement as [required|]; [| discriminate].
    destruct candidates as [|c0 cs].
    + injection H as <-. right; left. apply Hf; reflexivity.
    + destruct (contains _ _).
      * injection H as <-. right; right; right. apply Hi; reflexivity.
      * destruct (encode m _) as [x|]; [| discriminate]. cbn [bind] in H.
        destruct (encode_batch m _) as [xs|]; [| discriminate].
        cbn [bind] in H.
        destruct (similarity m x xs) as [sims|]; [| discriminate].
        cbn [bind] in H.
        destruct (argmax sims) as [i|]; [| discriminate]. cbn [bind] in H.
        destruct (getitem sims i) as [s|]; [| discriminate].
        cbn [bind] in H.
        destruct (getitem (c0 :: cs) i) as [best|].
        -- destruct (Qgeb s _).
           ++ injection H as <-. right; right; right. apply Hi; reflexivity.
           ++ destruct (Qgtb s _ && Qltb s _); injection H as <-.
              ** right; right; left. apply Hi; reflexivity.
              ** left. apply Hi; reflexivity.
        -- destruct (Qgeb s _); [discriminate |].
           destruct (Qgtb s _ && Qltb s _); discriminate.
Qed.

Lemma education_score_values_witness :
  has_number "score"
    (education_result "Qualification" (VStr "PMP") VNone (VFloat 50.0)
       "Candidate Qualification not specified.") 50.
Proof.
  destruct (education_score_values failing_model (Some "PMP") []
              "Qualification"
              (education_result "Qualification" (VStr "PMP") VNone
                 (VFloat 50.0) "Candidate Qualification not specified.")
              eq_refl)
    as [H | [H | [H | H]]];
    try (exfalso; destruct H as (x & n & Hx & Hn & Hq);
         vm_compute in Hx; injection Hx as <-; injection Hn as <-;
         vm_compute in Hq; discriminate).
  exact H.
Defined.

Lemma kind_specified (k : string) :
  ~ blank k -> kind_unspecified (Some k) = false.
Proof.
  intro Hk. destruct (kind_unspecified (Some k)) eqn:E; [| reflexivity].
  apply kind_unspecified_iff in E.
  destruct E as [E | (s & E & Hs)]; [discriminate |].
  injection E as <-. contradiction.
Qed.

(** X8.  The scoring table of [score_experience_kind] where no
    statement raises; the function then prints nothing.  A requirement
    that is [None], empty or blank scores 70 with similarity 0 and
    reports the candidate's first text; a requirement against an empty
    history scores 30; a requirement that occurs verbatim among the
    candidate's texts scores 100 with similarity 1.0; otherwise the
    first maximum [s] of the similarity row gives 100 from 0.80 and
    [100 * s] below, so no score lies in the interval [80, 100).  The
    requirement is stored under "ad_kind" in the first three cases and
    under "ad_required_kind" in the last. *)
Theorem experience_kind_scoring_table :
  (forall m k first others,
      (k = None \/ exists s, k = Some s /\ blank s) ->
      score_experience_kind m k (first :: others)
      = Ok (kind_result "ad_kind" VNone (VStr first) 70.0 0.0, []))
  /\ (forall m k,
        ~ blank k ->
        score_experience_kind m (Some k) []
        = Ok (kind_result "ad_kind" (VStr k) VNone 30.0 0.0, []))
  /\ (forall m k texts,
        ~ blank k -> In k texts ->
        score_experience_kind m (Some k) texts
        = Ok (kind_result "ad_kind" (VStr k) (VStr k) 100.0 1.0, []))
  /\ (forall m k texts sims,
        ~ blank k -> ~ In k texts ->
        answers m (_norm k) (map _norm texts) sims ->
        List.length sims = List.length texts ->
        texts <> [] ->
        exists i s best,
          first_max sims i s /\ nth_error texts i = Some best
          /\ (0.80 <= s ->
              score_experience_kind m (Some k) texts
              = Ok (kind_result "ad_required_kind" (VStr k) (VStr best)
                      100.0 s, []))
          /\ (s < 0.80 ->
              score_experience_kind m (Some k) texts
              = Ok (kind_result "ad_required_kind" (VStr k) (VStr best)
                      (s * 100) s, [])
              /\ s * 100 < 80)).
Proof.
  split.
  { intros m k first others Hk. apply kind_returns_dictionary.
    apply kind_unspecified_iff in Hk.
    unfold score_experience_kind_body. rewrite Hk. reflexivity. }
  split.
  { intros m k Hk. apply kind_returns_dictionary.
    unfold score_experience_kind_body. rewrite (kind_specified k Hk).
    reflexivity. }
  split.
  { intros m k texts Hk Hin. apply kind_returns_dictionary.
    unfold score_experience_kind_body. rewrite (kind_specified k Hk).
    destruct texts as [|t ts]; [contradiction |].
    apply contains_In in Hin. rewrite Hin. reflexivity. }
  intros m k texts sims Hk Hin Hans Hlen Hne.
  destruct (semantic_stage _ _ _ _ _ texts Hans Hlen Hne)
    as (i & s & best & Hmax & Hb & Hrun).
  exists i, s, best. split; [exact Hmax |]. split; [exact Hb |].
  assert (Ec : contains k texts = false).
  { destruct (contains k texts) eqn:E; [| reflexivity].
    apply contains_In in E. contradiction. }
  assert (Hbody : score_experience_kind_body m (Some k) texts
                  = Ok (kind_result "ad_required_kind" (VStr k) (VStr best)
                          (if Qgeb s 0.80 then 100.0 else s * 100) s)).
  { unfold score_experience_kind_body. rewrite (kind_specified k Hk).
    destruct texts as [|t ts]; [congruence |].
    rewrite Ec, Hrun, (getitem_nth _ _ _ _ Hb). reflexivity. }
  split.
  - intro Hs. apply kind_returns_dictionary. rewrite Hbody.
    apply Qgeb_ge in Hs. now rewrite Hs.
  - intro Hs. split; [| lra].
    apply kind_returns_dictionary. rewrite Hbody.
    apply Qgeb_lt in Hs. now rewrite Hs.
Qed.

Lemma experience_kind_scoring_table_witness :
  score_experience_kind failing_model (Some "  ") ["led a team"; "built APIs"]
  = Ok (kind_result "ad_kind" VNone (VStr "led a team") 70.0 0.0, [])
  /\ score_experience_kind failing_model (Some "built APIs")
       ["led a team"; "built APIs"]
     = Ok (kind_result "ad_kind" (VStr "built APIs") (VStr "built APIs")
             100.0 1.0, []).
Proof.
  destruct experience_kind_scoring_table as (H1 & _ & H3 & _).
  split.
  - apply H1. right. exists "  ". split; [reflexivity |].
    intros a Ha. simpl in Ha. destruct Ha as [<- | [<- | []]]; reflexivity.
  - apply H3.
    + intro Hb. specialize (Hb "b"%char (or_introl eq_refl)). discriminate.
    + simpl. tauto.
Defined.

End MatcherInvariants.

(** ** Text normalisation ([_norm], defined in each tool module) *)

Section Normalisation.

Lemma lower_char_idempotent (c : ascii) :
  lower_char (lower_char c) = lower_char c.
Proof. destruct c as [[] [] [] [] [] [] [] []]; reflexivity. Qed.

Lemma lower_upper_char (c : ascii) : lower_char (upper_char c) = lower_char c.
Proof. destruct c as [[] [] [] [] [] [] [] []]; reflexivity. Qed.

Lemma isspace_lower_char (c : ascii) : isspace (lower_char c) = isspace c.
Proof. destruct c as [[] [] [] [] [] [] [] []]; reflexivity. Qed.

Lemma space_is_space (c : ascii) : Ascii.eqb c " " = true -> isspace c = true.
Proof. intro H. apply Ascii.eqb_eq in H. now subst. Qed.

Lemma lower_upper (s : string) : lower (upper s) = lower s.
Proof.
  unfold lower, upper. induction s as [|c t IH]; simpl; [reflexivity |].
  now rewrite lower_upper_char, IH.
Qed.

Lemma lowered_lower (s : string) : lowered (lower s).
Proof.
  unfold lowered, lower. induction s as [|c t IH]; simpl; [intros a [] |].
  intros a [<- | Ha]; [apply lower_char_idempotent | now apply IH].
Qed.

Lemma lowered_tail (c : ascii) (t : string) :
  lowered (String c t) -> lower_char c = c /\ lowered t.
Proof.
  unfold lowered. simpl. intro H. split; [apply H; now left |].
  intros a Ha. apply H. now right.
Qed.

Lemma lowered_lstrip (s : string) : lowered s -> lowered (lstrip s).
Proof.
  induction s as [|c t IH]; simpl; [trivial |].
  intro H. destruct (isspace c); [| exact H].
  apply IH. now apply lowered_tail in H.
Qed.

Lemma rstrip_cons (c : ascii) (t : string) :
  rstrip (String c t)
  = match rstrip t with
    | EmptyString => if isspace c then EmptyString else String c EmptyString
    | r => String c r
    end.
Proof. reflexivity. Qed.

Lemma lowered_rstrip (s : string) : lowered s -> lowered (rstrip s).
Proof.
  induction s as [|c t IH]; [trivial |].
  intro H. apply lowered_tail in H. destruct H as [Hc Ht].
  specialize (IH Ht). rewrite rstrip_cons.
  destruct (rstrip t) as [|c' r].
  - destruct (isspace c); [intros a [] |].
    intros a [<- | []]. exact Hc.
  - intros a [<- | Ha]; [exact Hc | now apply IH].
Qed.

(** What [rstrip] leaves alone. *)
Lemma rstrip_fixed_cons (c : ascii) (t : string) :
  rstrip (String c t) = String c t ->
  (t = EmptyString /\ isspace c = false)
  \/ (t <> EmptyString /\ rstrip t = t).
Proof.
  rewrite rstrip_cons. destruct (rstrip t) as [|c' r] eqn:E.
  - destruct (isspace c); [discriminate |].
    intro H. injection H as <-. now left.
  - intro H. injection H as Ht. right. split.
    + rewrite <- Ht. discriminate.
    + exact Ht.
Qed.

Lemma rstrip_idempotent (s : string) : rstrip (rstrip s) = rstrip s.
Proof.
  induction s as [|c t IH]; [reflexivity |].
  rewrite rstrip_cons. destruct (rstrip t) as [|c' r] eqn:E.
  - destruct (isspace c) eqn:Ec; [reflexivity |].
    rewrite rstrip_cons. simpl. now rewrite Ec.
  - rewrite rstrip_cons, IH. reflexivity.
Qed.

Lemma lstrip_starts (s : string) :
  lstrip s = EmptyString
  \/ exists c t, lstrip s = String c t /\ isspace c = false.
Proof.
  induction s as [|c t IH]; simpl; [now left |].
  destruct (isspace c) eqn:E; [exact IH |].
  right. exists c, t. now split.
Qed.

Lemma strip_starts (s : string) :
  strip s = EmptyString
  \/ exists c t, strip s = String c t /\ isspace c = false.
Proof.
  unfold strip. destruct (lstrip_starts s) as [E | (c & t & E & Hc)].
  - rewrite E. now left.
  - rewrite E, rstrip_cons. right.
    destruct (rstrip t) as [|c' r].
    + rewrite Hc. exists c, EmptyString. now split.
    + exists c, (String c' r). now split.
Qed.

Lemma not_space (c : ascii) : isspace c = false -> Ascii.eqb c " " = false.
Proof.
  intro H. destruct (Ascii.eqb c " ") eqn:E; [| reflexivity].
  apply space_is_space in E. congruence.
Qed.

Lemma space_collapses (c : ascii) (b : bool) (t : string) :
  isspace c = true ->
  collapse_spaces b (String c t)
  = if b then collapse_spaces true t
    else String " " (collapse_spaces true t).
Proof. intro H. simpl. now rewrite H. Qed.

(** Collapsing a lower-case string that does not end in white space. *)
Lemma collapse_single_spaced (u : string) :
  lowered u -> rstrip u = u -> u <> EmptyString ->
  single_spaced false (collapse_spaces false u) = true
  /\ single_spaced true (collapse_spaces true u) = true
  /\ (forall c t, u = String c t -> isspace c = false ->
        single_spaced true (collapse_spaces false u) = true).
Proof.
  induction u as [|c t IH]; intros Hl Hr Hne; [congruence |].
  apply lowered_tail in Hl. destruct Hl as [Hc Ht].
  destruct (rstrip_fixed_cons c t Hr) as [[E Hs] | [Hne' Hr']].
  - subst t. simpl. rewrite Hs. simpl.
    rewrite (not_space c Hs), Hs, Hc, Ascii.eqb_refl. simpl.
    repeat split; intros; reflexivity.
  - destruct (IH Ht Hr' Hne') as (IHa & IHb & _).
    destruct (isspace c) eqn:Es.
    + rewrite !(space_collapses c _ t Es). simpl.
      split; [exact IHb |]. split; [exact IHb |].
      intros c0 t0 E Hc0. injection E as <- <-. congruence.
    + simpl. rewrite Es. simpl.
      rewrite (not_space c Es), Es, Hc, Ascii.eqb_refl. simpl.
      repeat split; intros; exact IHa.
Qed.

Lemma norm_normalised (s : string) : normalised (_norm s) = true.
Proof.
  unfold _norm.
  assert (Hl : lowered (strip (lower s))).
  { apply lowered_rstrip, lowered_lstrip, lowered_lower. }
  assert (Hr : rstrip (strip (lower s)) = strip (lower s)).
  { apply rstrip_idempotent. }
  destruct (strip_starts (lower s)) as [E | (c & t & E & Hc)].
  - rewrite E. reflexivity.
  - assert (Hne : strip (lower s) <> EmptyString) by (rewrite E; discriminate).
    destruct (collapse_single_spaced _ Hl Hr Hne) as (_ & _ & H).
    specialize (H c t E Hc).
    rewrite E in *. simpl in *. rewrite Hc in *. exact H.
Qed.

Lemma single_spaced_cons (b : bool) (c : ascii) (t : string) :
  single_spaced b (String c t) = true ->
  (c = " "%char /\ b = false /\ single_spaced true t = true)
  \/ (isspace c = false /\ lower_char c = c
      /\ single_spaced false t = true).
Proof.
  simpl. destruct (Ascii.eqb c " ") eqn:E.
  - apply Ascii.eqb_eq in E. intro H. apply andb_true_iff in H.
    destruct H as [H1 H2]. left. apply negb_true_iff in H1. now repeat split.
  - intro H. apply andb_true_iff in H. destruct H as [H H3].
    apply andb_true_iff in H. destruct H as [H1 H2].
    right. apply negb_true_iff in H1. apply Ascii.eqb_eq in H2.
    now repeat split.
Qed.

Lemma single_spaced_lower (t : string) (b : bool) :
  single_spaced b t = true -> lower t = t.
Proof.
  revert b. unfold lower. induction t as [|c t IH]; intros b H;
    [reflexivity |].
  simpl. destruct (single_spaced_cons b c t H)
    as [(-> & _ & H') | (_ & Hc & H')].
  - now rewrite (IH _ H').
  - now rewrite Hc, (IH _ H').
Qed.

Lemma single_spaced_lstrip (t : string) :
  single_spaced true t = true -> lstrip t = t.
Proof.
  destruct t as [|c t]; [reflexivity |]. intro H.
  destruct (single_spaced_cons true c t H)
    as [(_ & Hb & _) | (Hs & _ & _)]; [discriminate |].
  simpl. now rewrite Hs.
Qed.

Lemma single_spaced_rstrip (t : string) (b : bool) :
  single_spaced b t = true -> rstrip t = t.
Proof.
  revert b. induction t as [|c t IH]; intros b H; [reflexivity |].
  rewrite rstrip_cons.
  destruct (single_spaced_cons b c t H)
    as [(-> & _ & H') | (Hs & _ & H')]; rewrite (IH _ H').
  - destruct t; [discriminate | reflexivity].
  - destruct t; [now rewrite Hs | reflexivity].
Qed.

Lemma single_spaced_collapse (t : string) (b : bool) :
  single_spaced b t = true ->
  collapse_spaces false t = t
  /\ (b = true -> collapse_spaces true t = t).
Proof.
  revert b. induction t as [|c t IH]; intros b H; [now split |].
  destruct (single_spaced_cons b c t H)
    as [(-> & Hb & H') | (Hs & _ & H')].
  - destruct (IH _ H') as [_ IHt]. subst b. simpl.
    split; [now rewrite (IHt eq_refl) | discriminate].
  - destruct (IH _ H') as [IHf _]. simpl. rewrite Hs, IHf. now split.
Qed.

Lemma norm_fixes_normalised (t : string) :
  normalised t = true -> _norm t = t.
Proof.
  destruct t as [|c t]; [reflexivity |].
  unfold normalised. intro H. unfold _norm, strip.
  rewrite (single_spaced_lower _ _ H), (single_spaced_lstrip _ H),
    (single_spaced_rstrip _ _ H).
  apply (single_spaced_collapse _ _ H).
Qed.

Lemma blank_lower (s : string) : blank (lower s) <-> blank s.
Proof.
  unfold blank, lower. induction s as [|c t IH]; simpl; [reflexivity |].
  split; intros H a [<- | Ha].
  - rewrite <- isspace_lower_char. apply H. now left.
  - apply (proj1 IH); [| exact Ha]. intros a' Ha'. apply H. now right.
  - rewrite isspace_lower_char. apply H. now left.
  - apply (proj2 IH); [| exact Ha]. intros a' Ha'. apply H. now right.
Qed.

Lemma collapse_empty (u : string) :
  collapse_spaces false u = EmptyString <-> u = EmptyString.
Proof.
  destruct u as [|c t]; simpl; [reflexivity |].
  destruct (isspace c); split; discriminate.
Qed.

(** X9.  [_norm] computes a normal form: its result consists of
    lower-case words separated by single spaces, with no white space at
    either end; such a text is left unchanged, so [_norm] is
    idempotent.  Upper and lower case are not distinguished, and the
    result is empty exactly for a text that is empty or blank. *)
Theorem norm_normal_form :
  (forall s, normalised (_norm s) = true)
  /\ (forall t, normalised t = true -> _norm t = t)
  /\ (forall s, _norm (_norm s) = _norm s)
  /\ (forall s, _norm (upper s) = _norm s)
  /\ (forall s, _norm s = EmptyString <-> blank s).
Proof.
  split; [exact norm_normalised |].
  split; [exact norm_fixes_normalised |].
  split; [intro s; apply norm_fixes_normalised, norm_normalised |].
  split; [intro s; unfold _norm; now rewrite lower_upper |].
  intro s. unfold _norm.
  rewrite collapse_empty, strip_empty_iff. apply blank_lower.
Qed.

Lemma norm_normal_form_witness :
  _norm "machine learning" = "machine learning"
  /\ _norm (_norm "  Machine   LEARNING ") = "machine learning".
Proof.
  destruct norm_normal_form as (_ & H2 & H3 & _). split.
  - apply H2. reflexivity.
  - rewrite H3. reflexivity.
Defined.

End Normalisation.

(** ** Labels of the token classifier ([_normalise_label]) *)

Section Labels.

Import pii_redactor.

Lemma upper_char_idempotent (c : ascii) :
  upper_char (upper_char c) = upper_char c.
Proof. destruct c as [[] [] [] [] [] [] [] []]; reflexivity. Qed.

Lemma upper_lower_char (c : ascii) : upper_char (lower_char c) = upper_char c.
Proof. destruct c as [[] [] [] [] [] [] [] []]; reflexivity. Qed.

Lemma upper_idempotent (s : string) : upper (upper s) = upper s.
Proof.
  unfold upper. induction s as [|c t IH]; simpl; [reflexivity |].
  now rewrite upper_char_idempotent, IH.
Qed.

Lemma upper_lower (s : string) : upper (lower s) = upper s.
Proof.
  unfold upper, lower. induction s as [|c t IH]; simpl; [reflexivity |].
  now rewrite upper_lower_char, IH.
Qed.

Ltac by_key u k :=
  let E := fresh "E" in
  destruct (String.eqb u k) eqn:E;
  [apply String.eqb_eq in E; subst u | ].

(** What the table does to an upper-case label. *)
Lemma mapping_cases (u : string) :
  (In u kept_labels
   /\ (get u mapping u = "NAME" \/ get u mapping u = "LOCATION"))
  \/ (~ In u kept_labels
      /\ (get u mapping u = "EMAIL" \/ get u mapping u = "PHONE"
          \/ get u mapping u = "URL"
          \/ (get u mapping u = u /\ u <> "NAME" /\ u <> "LOCATION"))).
Proof.
  unfold mapping, get, kept_labels.
  by_key u "PERSON"; [left; simpl; tauto |].
  by_key u "FIRSTNAME"; [left; simpl; tauto |].
  by_key u "LASTNAME"; [left; simpl; tauto |].
  by_key u "NAME"; [left; simpl; tauto |].
  by_key u "EMAIL";
    [right; split; [simpl; intuition discriminate | tauto] |].
  by_key u "PHONE_NUM";
    [right; split; [simpl; intuition discriminate | tauto] |].
  by_key u "URL";
    [right; split; [simpl; intuition discriminate | tauto] |].
  by_key u "ADDRESS"; [left; simpl; tauto |].
  by_key u "LOCATION"; [left; simpl; tauto |].
  by_key u "LOC"; [left; simpl; tauto |].
  by_key u "GPE"; [left; simpl; tauto |].
  right. apply String.eqb_neq in E, E0, E1, E2, E6, E7, E8, E9.
  split.
  - simpl. intuition congruence.
  - right; right; right. repeat split; congruence.
Qed.

Lemma kept_label_iff (label : string) :
  is_name_or_location (_normalise_label label) = true
  <-> In (upper label) kept_labels.
Proof.
  unfold _normalise_label.
  destruct (mapping_cases (upper label)) as [[Hin H] | [Hout H]].
  - split; [intros _; exact Hin | intros _].
    destruct H as [-> | ->]; reflexivity.
  - split; [| intro; contradiction].
    unfold is_name_or_location.
    destruct H as [-> | [-> | [-> | (-> & H1 & H2)]]];
      try discriminate.
    apply String.eqb_neq in H1, H2. rewrite H1, H2. discriminate.
Qed.

(** X10.  [_normalise_label] ignores the case of the label.  A label is
    kept by [detect_pii] (normalised to NAME or LOCATION) exactly when
    its upper-case form is PERSON, FIRSTNAME, LASTNAME, NAME, ADDRESS,
    LOCATION, LOC or GPE; every other label, including the classifier's
    own EMAIL, PHONE_NUM and URL, is dropped.  Normalising twice is the
    same as normalising once. *)
Theorem normalise_label_kept :
  (forall label,
      is_name_or_location (_normalise_label label) = true
      <-> In (upper label) kept_labels)
  /\ (forall label,
        _normalise_label (lower label) = _normalise_label label
        /\ _normalise_label (upper label) = _normalise_label label)
  /\ (forall label,
        _normalise_label (_normalise_label label) = _normalise_label label).
Proof.
  split; [| split].
  - apply kept_label_iff.
  - intro label. unfold _normalise_label.
    now rewrite upper_lower, upper_idempotent.
  - intro label. unfold _normalise_label at 2 3.
    destruct (mapping_cases (upper label)) as [[_ H] | [_ H]].
    + destruct H as [-> | ->]; reflexivity.
    + destruct H as [-> | [-> | [-> | (E & _)]]]; try reflexivity.
      rewrite E. unfold _normalise_label.
      now rewrite upper_idempotent, E.
Qed.

Lemma normalise_label_kept_witness :
  is_name_or_location (_normalise_label "FirstName") = true
  /\ is_name_or_location (_normalise_label "PHONE_NUM") = false.
Proof.
  destruct normalise_label_kept as (H & _). split.
  - apply H. simpl. tauto.
  - destruct (is_name_or_location (_normalise_label "PHONE_NUM")) eqn:E;
      [| reflexivity].
    apply H in E. simpl in E. intuition discriminate.
Defined.

End Labels.

(** ** The shape of the detector's output ([detect_pii]) *)

Section DetectorOutput.

Import pii_redactor.

Lemma is_name_or_location_true (n : string) :
  is_name_or_location n = true -> n = "NAME" \/ n = "LOCATION".
Proof.
  unfold is_name_or_location. intro H. apply orb_true_iff in H.
  destruct H as [H | H]; apply String.eqb_eq in H; auto.
Qed.

Lemma entity_of_buffer_statistical (b : buffer) (e : PIIEntity.t) :
  well_tagged b -> entity_of_buffer b = Ok e -> statistical e.
Proof.
  intros [Hty Hrep]. unfold entity_of_buffer, PIIEntity.new.
  destruct (Qleb 0 (b_confidence b)) eqn:E1; [| discriminate].
  destruct (Qleb (b_confidence b) 100) eqn:E2; [| discriminate].
  simpl. intro H. injection H as <-.
  apply Qleb_le in E1, E2. unfold statistical, placeholder. simpl.
  repeat split; assumption.
Qed.

Lemma flush_extends (base : list PIIEntity.t) (st st' : loop_state) :
  extends base st -> flush st = Ok st' ->
  extends base st' /\ current_entity st' = current_entity st.
Proof.
  intros [(extra & Hp & Hall) Hb] H. unfold flush in H.
  destruct (current_entity st) as [b|] eqn:Ec.
  - destruct (entity_of_buffer b) as [e|] eqn:Ee; [| discriminate].
    simpl in H. injection H as <-. simpl. split; [| reflexivity].
    split.
    + exists (extra ++ [e]). rewrite Hp, app_assoc. split; [reflexivity |].
      apply Forall_app. split; [exact Hall |].
      constructor; [| constructor].
      apply (entity_of_buffer_statistical b); [now apply Hb | exact Ee].
    + intros b' E. injection E as <-. now apply Hb.
  - injection H as <-. split; [| exact Ec].
    split; [now exists extra |]. intros b E. congruence.
Qed.

Lemma step_extends (base : list PIIEntity.t) (st st' : loop_state)
    (ent : ner_span) :
  extends base st -> step st ent = Ok st' -> extends base st'.
Proof.
  intros Hst H. unfold step in H.
  destruct (is_name_or_location (_normalise_label (entity_group ent)))
    eqn:En; simpl in H; [| injection H as <-; exact Hst].
  destruct (overlaps_occupied _ _ _); [injection H as <-; exact Hst |].
  destruct (starts_new _ _ _).
  - destruct (flush st) as [st1|] eqn:Ef; [| discriminate].
    simpl in H. injection H as <-.
    destruct (flush_extends base st st1 Hst Ef) as [[Hp _] _].
    split; [exact Hp |]. simpl. intros b E. injection E as <-.
    split; [now apply is_name_or_location_true | reflexivity].
  - destruct (current_entity st) as [b|] eqn:Ec;
      [| injection H as <-; exact Hst].
    injection H as <-. destruct Hst as [Hp Hb].
    split; [exact Hp |]. simpl. intros b' E. injection E as <-.
    exact (Hb b Ec).
Qed.

Lemma run_loop_extends (base : list PIIEntity.t) (entities : list ner_span) :
  forall st st',
    extends base st -> run_loop st entities = Ok st' -> extends base st'.
Proof.
  induction entities as [|ent rest IH]; intros st st' Hst H; simpl in H.
  - injection H as <-. exact Hst.
  - destruct (step st ent) as [st1|] eqn:Es; [| discriminate].
    simpl in H. apply (IH st1 st'); [| exact H].
    now apply (step_extends base st st1 ent).
Qed.

Lemma run_loop_ignores (entities : list ner_span) (st : loop_state) :
  Forall (fun ent => ~ In (upper (entity_group ent)) kept_labels) entities ->
  run_loop st entities = Ok st.
Proof.
  induction 1 as [|ent rest Hent _ IH]; [reflexivity |].
  simpl. rewrite step_ignores; [exact IH |].
  destruct (is_name_or_location (_normalise_label (entity_group ent))) eqn:E;
    [| reflexivity].
  apply kept_label_iff in E. contradiction.
Qed.

End DetectorOutput.

(** X11 ([detect_pii]).  Whatever the token classifier answers, a
    returned list starts with the entities of the three regular
    expressions, in their order, and everything after them is of type
    NAME or LOCATION, is replaced by its type in square brackets, and has
    a confidence between 0 and 100.  An exception of the classifier is
    not caught: it leaves [detect_pii] unchanged.  When the classifier
    answers only labels other than the six that stand for a name or a
    location, the result is exactly the regex entities. *)
Theorem detect_pii_shape (self : pii_redactor.PIIDetector) (text : string) :
  (forall ents,
      pii_redactor.detect_pii self text = Ok ents ->
      exists extra,
        ents = regex_entities text ++ extra /\ Forall statistical extra)
  /\ (forall e,
         pii_redactor.ner self text = Raise e ->
         pii_redactor.detect_pii self text = Raise e)
  /\ (forall spans,
         pii_redactor.ner self text = Ok spans ->
         Forall (fun ent =>
                   ~ In (upper (pii_redactor.entity_group ent)) kept_labels)
           spans ->
         pii_redactor.detect_pii self text = Ok (regex_entities text)).
Proof.
  unfold pii_redactor.detect_pii. rewrite detect_with_regex_total.
  cbn [bind]. split; [| split].
  - intros ents H.
    destruct (pii_redactor.ner self text) as [spans|]; [| discriminate].
    cbn [bind] in H.
    destruct (pii_redactor.run_loop _ spans) as [st|] eqn:Er;
      [| discriminate].
    cbn [bind] in H.
    destruct (pii_redactor.flush st) as [st'|] eqn:Ef; [| discriminate].
    cbn [bind] in H. injection H as <-.
    assert (H0 : extends (regex_entities text)
                   {| pii_redactor.pii_entities := regex_entities text;
                      pii_redactor.occupied_spans :=
                        map (fun e => (PIIEntity.start_char e,
                                       PIIEntity.end_char e))
                          (regex_entities text);
                      pii_redactor.current_entity := None |}).
    { split.
      - exists []. rewrite app_nil_r. split; [reflexivity | constructor].
      - simpl. intros b E. discriminate. }
    pose proof (run_loop_extends _ spans _ _ H0 Er) as H1.
    destruct (flush_extends _ _ _ H1 Ef) as [[Hp _] _]. exact Hp.
  - intros e H. rewrite H. reflexivity.
  - intros spans H Hall. rewrite H. cbn [bind].
    rewrite (run_loop_ignores spans _ Hall). reflexivity.
Qed.

Lemma detect_pii_shape_witness :
  pii_redactor.detect_pii (detector_raising TypeError) sample.contact_line
  = Raise TypeError
  /\ pii_redactor.detect_pii
       (detector_returning [span "EMAIL" "jane@x.com" 9 19 0.9])
       sample.contact_line
     = Ok (regex_entities sample.contact_line).
Proof.
  split.
  - apply (proj1 (proj2 (detect_pii_shape (detector_raising TypeError)
                           sample.contact_line))).
    reflexivity.
  - apply (proj2 (proj2 (detect_pii_shape
                           (detector_returning
                              [span "EMAIL" "jane@x.com" 9 19 0.9])
                           sample.contact_line))
             [span "EMAIL" "jane@x.com" 9 19 0.9]).
    + reflexivity.
    + constructor; [| constructor].
      unfold kept_labels. simpl. intuition discriminate.
Defined.

(** ** What the regex entities say about the text *)

Section RegexEntities.

Import pii_redactor re re_facts.

Lemma inside_start (s : string) : inside (list_ascii_of_string s) (at_start s).
Proof. reflexivity. Qed.

Lemma skipn_next {A} (p : nat) (L : list A) (a : A) (t : list A) :
  skipn p L = a :: t -> skipn (S p) L = t.
Proof.
  intro H. change (S p) with (1 + p)%nat.
  rewrite <- skipn_skipn, H. reflexivity.
Qed.

Lemma inside_advance (L : list ascii) (c c' : cursor) :
  inside L c -> advance c = Some c' ->
  inside L c' /\ pos c' = S (pos c).
Proof.
  unfold inside, advance. intros H E.
  destruct (rest c) as [|a t] eqn:Er; [discriminate |].
  injection E as <-. simpl. split; [| reflexivity].
  symmetry. apply (skipn_next _ _ a). now symmetry.
Qed.

Lemma inside_skip_one (L : list ascii) (c : cursor) :
  inside L c -> inside L (skip 1 c) /\ (pos c <= pos (skip 1 c))%nat.
Proof.
  intro H. simpl. destruct (advance c) as [c'|] eqn:E.
  - destruct (inside_advance L c c' H E) as [H1 H2]. split; [exact H1 | lia].
  - split; [exact H | lia].
Qed.

Lemma inside_advanced (L : list ascii) (m : nat) (c c' : cursor) :
  inside L c -> advanced m c c' -> inside L c' /\ (pos c + m <= pos c')%nat.
Proof.
  unfold inside. intros H (n & H1 & H2 & H3 & H4). split; [| lia].
  rewrite H4, H, skipn_skipn, H3. f_equal. lia.
Qed.

(** A match starts at or after the position the search started from. *)
Lemma finditer_from_starts (r : regex) (fuel : nat) :
  forall c m, In m (finditer_from fuel r c) -> (pos c <= start m)%nat.
Proof.
  induction fuel as [|fuel IH]; intros c m Hin; simpl in Hin;
    [contradiction |].
  destruct (run r c (fun c' => Some c')) as [c'|] eqn:E.
  - destruct (run_advances r c _ c' E) as (c1 & (n & H1 & H2 & H3 & H4) & Hk).
    injection Hk as ->.
    destruct (pos c <? pos c')%nat.
    + destruct Hin as [<- | Hin]; [simpl; lia |].
      pose proof (IH c' m Hin). lia.
    + destruct Hin as [<- | Hin]; [simpl; lia |].
      pose proof (IH (skip 1 c) m Hin).
      assert (pos c <= pos (skip 1 c))%nat; [| lia].
      simpl. destruct (advance c) as [c2|] eqn:Ea; [| lia].
      unfold advance in Ea. destruct (rest c); [discriminate |].
      injection Ea as <-. simpl. lia.
  - destruct (advance c) as [c'|] eqn:Ea; [| contradiction].
    pose proof (IH c' m Hin).
    unfold advance in Ea. destruct (rest c); [discriminate |].
    injection Ea as <-. simpl in *. lia.
Qed.

(** The group of a match is the part of the subject between its
    bounds. *)
Lemma finditer_from_groups (r : regex) (L : list ascii) (fuel : nat) :
  forall c m,
    inside L c -> In m (finditer_from fuel r c) ->
    group m
    = string_of_list_ascii (firstn (end_ m - start m) (skipn (start m) L)).
Proof.
  induction fuel as [|fuel IH]; intros c m Hc Hin; simpl in Hin;
    [contradiction |].
  destruct (run r c (fun c' => Some c')) as [c'|] eqn:E.
  - destruct (run_advances r c _ c' E) as (c1 & Hadv & Hk).
    injection Hk as ->.
    destruct (inside_advanced L _ c c' Hc Hadv) as [Hc' _].
    destruct (pos c <? pos c')%nat.
    + destruct Hin as [<- | Hin]; [simpl; now rewrite Hc |].
      now apply (IH c' m).
    + destruct Hin as [<- | Hin]; [simpl; now rewrite Hc |].
      apply (IH (skip 1 c) m); [| exact Hin].
      now apply inside_skip_one.
  - destruct (advance c) as [c'|] eqn:Ea; [| contradiction].
    apply (IH c' m); [| exact Hin].
    now apply (inside_advance L c c').
Qed.

(** Matches come in the order of the text, each ending before the next
    one starts. *)
Lemma finditer_from_sorted (r : regex) (fuel : nat) :
  forall c,
    StronglySorted (fun a b => (end_ a <= start b)%nat)
      (finditer_from fuel r c).
Proof.
  induction fuel as [|fuel IH]; intro c; simpl; [constructor |].
  destruct (run r c (fun c' => Some c')) as [c'|] eqn:E.
  - destruct (run_advances r c _ c' E) as (c1 & (n & H1 & H2 & H3 & H4) & Hk).
    injection Hk as ->.
    destruct (pos c <? pos c')%nat eqn:El.
    + constructor; [apply IH |]. apply Forall_forall. intros b Hb. simpl.
      now apply (finditer_from_starts r fuel c').
    + constructor; [apply IH |]. apply Forall_forall. intros b Hb. simpl.
      apply Nat.ltb_ge in El.
      pose proof (finditer_from_starts r fuel (skip 1 c) b Hb) as Hs.
      assert (pos c <= pos (skip 1 c))%nat; [| lia].
      simpl. destruct (advance c) as [c2|] eqn:Ea; [| lia].
      unfold advance in Ea. destruct (rest c); [discriminate |].
      injection Ea as <-. simpl. lia.
  - destruct (advance c) as [c'|]; [apply IH | constructor].
Qed.

Lemma length_string_of_list_ascii (l : list ascii) :
  String.length (string_of_list_ascii l) = List.length l.
Proof.
  now rewrite <- length_list_ascii, list_ascii_of_string_of_list_ascii.
Qed.

Lemma slice_chars (text : string) (s e : nat) :
  (s <= e)%nat -> (e <= String.length text)%nat ->
  slice text (Z.of_nat s) (Z.of_nat e)
  = string_of_list_ascii
      (firstn (e - s) (skipn s (list_ascii_of_string text))).
Proof.
  intros Hse He. unfold slice, slice_from, slice_to.
  rewrite list_ascii_of_string_of_list_ascii.
  rewrite !clamp_nonneg by lia. rewrite !Nat2Z.id.
  rewrite firstn_min, skipn_min, skipn_firstn_comm. reflexivity.
Qed.

Lemma of_match_reads (ty : string) (r : regex) (text : string) (m : Match) :
  In m (finditer r text) ->
  PIIEntity.text (of_match ty m)
  = slice text (PIIEntity.start_char (of_match ty m))
      (PIIEntity.end_char (of_match ty m))
  /\ Z.of_nat (String.length (PIIEntity.text (of_match ty m)))
     = (PIIEntity.end_char (of_match ty m)
        - PIIEntity.start_char (of_match ty m))%Z
  /\ (Z.of_nat (min_len r)
      <= PIIEntity.end_char (of_match ty m)
         - PIIEntity.start_char (of_match ty m))%Z.
Proof.
  intro Hm. destruct (finditer_spans r text m Hm) as [H1 H2].
  pose proof (finditer_from_groups r (list_ascii_of_string text) _
                (at_start text) m (inside_start text) Hm) as Hg.
  unfold of_match. simpl. split; [| split].
  - rewrite slice_chars by lia. exact Hg.
  - rewrite Hg, length_string_of_list_ascii, length_firstn, length_skipn.
    rewrite length_list_ascii. lia.
  - lia.
Qed.

(** X12 ([_detect_with_regex]).  The [text] of every entity the regex
    detectors return is the slice of the input between the entity's
    [start_char] and [end_char]; its length is the width of the span,
    which is at least six characters for an e-mail address or a
    telephone number and at least five for a URL. *)
Theorem detect_with_regex_reads_text (text : string)
    (ents : list PIIEntity.t) :
  _detect_with_regex text = Ok ents ->
  Forall
    (fun e =>
       PIIEntity.text e
       = slice text (PIIEntity.start_char e) (PIIEntity.end_char e)
       /\ Z.of_nat (String.length (PIIEntity.text e))
          = (PIIEntity.end_char e - PIIEntity.start_char e)%Z
       /\ (least_span (PIIEntity.entity_type e)
           <= PIIEntity.end_char e - PIIEntity.start_char e)%Z)
    ents.
Proof.
  rewrite detect_with_regex_total. intro H. injection H as <-.
  apply Forall_forall. intros e He. unfold regex_entities in He.
  apply in_app_or in He. destruct He as [He | He];
    [| apply in_app_or in He; destruct He as [He | He]];
    apply in_map_iff in He; destruct He as (m & <- & Hm).
  - destruct (of_match_reads "EMAIL" _ text m Hm) as (H1 & H2 & H3).
    repeat split; [exact H1 | exact H2 |].
    change (least_span _) with (Z.of_nat (min_len email_pattern)). exact H3.
  - destruct (of_match_reads "PHONE" _ text m Hm) as (H1 & H2 & H3).
    repeat split; [exact H1 | exact H2 |].
    change (least_span _) with (Z.of_nat (min_len phone_pattern)). exact H3.
  - destruct (of_match_reads "URL" _ text m Hm) as (H1 & H2 & H3).
    repeat split; [exact H1 | exact H2 |].
    change (least_span _) with (Z.of_nat (min_len url_pattern)). exact H3.
Qed.

Lemma detect_with_regex_reads_text_witness :
  Forall
    (fun e =>
       PIIEntity.text e
       = slice sample.contact_line (PIIEntity.start_char e)
           (PIIEntity.end_char e)
       /\ Z.of_nat (String.length (PIIEntity.text e))
          = (PIIEntity.end_char e - PIIEntity.start_char e)%Z
       /\ (least_span (PIIEntity.entity_type e)
           <= PIIEntity.end_char e - PIIEntity.start_char e)%Z)
    [sample.mail; sample.phone].
Proof.
  apply (detect_with_regex_reads_text sample.contact_line).
  vm_compute. reflexivity.
Defined.

Lemma sorted_matches_in_order (ty : string) (ms : list Match) :
  StronglySorted (fun a b => (end_ a <= start b)%nat) ms ->
  StronglySorted
    (fun a b => (PIIEntity.end_char a <= PIIEntity.start_char b)%Z)
    (map (of_match ty) ms).
Proof.
  induction 1 as [|m ms Hs IH Hm]; simpl; constructor; [exact IH |].
  apply Forall_map. revert Hm. apply Forall_impl. intros b Hb.
  unfold of_match. simpl. lia.
Qed.

Lemma in_text_order_app (l1 l2 : list PIIEntity.t) :
  in_text_order l1 -> in_text_order l2 ->
  (forall a b, In a l1 -> In b l2 ->
               PIIEntity.entity_type a <> PIIEntity.entity_type b) ->
  in_text_order (l1 ++ l2).
Proof.
  unfold in_text_order. intros H1 H2 Hd.
  induction H1 as [|a l Ha Hl IH]; simpl; [exact H2 |].
  constructor.
  - apply Forall_app. split; [exact Ha |].
    apply Forall_forall. intros b Hb E. exfalso.
    apply (Hd a b); [now left | exact Hb | exact E].
  - apply IH. intros x y Hx Hy. apply Hd; [now right | exact Hy].
Qed.

Lemma matches_in_text_order (ty : string) (r : regex) (text : string) :
  in_text_order (map (of_match ty) (finditer r text)).
Proof.
  pose proof (sorted_matches_in_order ty _
                (finditer_from_sorted r (S (String.length text))
                   (at_start text))) as H.
  unfold in_text_order. fold (finditer r text) in H.
  induction H as [|a l Hs IH Ha]; constructor; [| exact IH].
  revert Ha. apply Forall_impl. intros b Hb _. exact Hb.
Qed.

(** X13 ([_detect_with_regex]).  Two entities of the same type never
    overlap, and they are listed in the order in which they occur in
    the text: the earlier one ends where the later one starts, or
    before.  (Entities of different types may overlap: an address made
    of digits is reported as an e-mail address and as a telephone
    number.) *)
Theorem detect_with_regex_same_type_in_order (text : string)
    (ents : list PIIEntity.t) :
  _detect_with_regex text = Ok ents -> in_text_order ents.
Proof.
  rewrite detect_with_regex_total. intro H. injection H as <-.
  unfold regex_entities.
  apply in_text_order_app; [apply matches_in_text_order | |].
  - apply in_text_order_app; try apply matches_in_text_order.
    intros a b Ha Hb.
    apply in_map_iff in Ha, Hb.
    destruct Ha as (m & <- & _), Hb as (m' & <- & _). discriminate.
  - intros a b Ha Hb. apply in_map_iff in Ha. destruct Ha as (m & <- & _).
    apply in_app_or in Hb.
    destruct Hb as [Hb | Hb]; apply in_map_iff in Hb;
      destruct Hb as (m' & <- & _); discriminate.
Qed.

Lemma detect_with_regex_same_type_in_order_witness :
  in_text_order (regex_entities sample.digits_mail)
  /\ List.length (regex_entities sample.digits_mail) = 2%nat.
Proof.
  split; [| vm_compute; reflexivity].
  apply (detect_with_regex_same_type_in_order sample.digits_mail).
  apply detect_with_regex_total.
Defined.

End RegexEntities.

(** ** The contact card and the size of the redacted text
    ([process_resume]) *)

Section ContactCard.

Import pii_redactor.

Lemma truthy_false (s : string) : truthy s = false -> s = EmptyString.
Proof. destruct s; [reflexivity | discriminate]. Qed.

Ltac fill_cases e d :=
  unfold fill;
  destruct (String.eqb (PIIEntity.entity_type e) "NAME") eqn:En;
  destruct (String.eqb (PIIEntity.entity_type e) "EMAIL") eqn:Em;
  destruct (String.eqb (PIIEntity.entity_type e) "PHONE") eqn:Ep;
  destruct (String.eqb (PIIEntity.entity_type e) "LOCATION") eqn:El;
  destruct (String.eqb (PIIEntity.entity_type e) "URL") eqn:Eu;
  try (apply String.eqb_eq in En; rewrite En in *; discriminate);
  try (apply String.eqb_eq in Em; rewrite Em in *; discriminate);
  try (apply String.eqb_eq in Ep; rewrite Ep in *; discriminate);
  try (apply String.eqb_eq in El; rewrite El in *; discriminate);
  destruct (truthy (CandidateDetail.name d)) eqn:Tn;
  destruct (truthy (CandidateDetail.email d)) eqn:Te;
  destruct (truthy (CandidateDetail.phone d)) eqn:Tp;
  destruct (truthy (CandidateDetail.location d)) eqn:Tl;
  destruct (CandidateDetail.url d) eqn:Tu;
  destruct (truthy (PIIEntity.text e)) eqn:Tt;
  cbn;
  rewrite ?Tn, ?Te, ?Tp, ?Tl, ?Tu, ?Tt, ?app_nil_r; cbn;
  try reflexivity;
  try (apply truthy_false in Tt; rewrite Tt);
  try (apply truthy_false in Tn; rewrite Tn);
  try (apply truthy_false in Te; rewrite Te);
  try (apply truthy_false in Tp; rewrite Tp);
  try (apply truthy_false in Tl; rewrite Tl);
  try reflexivity.

Lemma fill_fields (e : PIIEntity.t) (d : CandidateDetail.t)
    (rest : list PIIEntity.t) :
  CandidateDetail.id (fill d e) = CandidateDetail.id d
  /\ pick (CandidateDetail.name (fill d e)) "NAME" rest
     = pick (CandidateDetail.name d) "NAME" (e :: rest)
  /\ pick (CandidateDetail.email (fill d e)) "EMAIL" rest
     = pick (CandidateDetail.email d) "EMAIL" (e :: rest)
  /\ pick (CandidateDetail.phone (fill d e)) "PHONE" rest
     = pick (CandidateDetail.phone d) "PHONE" (e :: rest)
  /\ pick (CandidateDetail.location (fill d e)) "LOCATION" rest
     = pick (CandidateDetail.location d) "LOCATION" (e :: rest)
  /\ (CandidateDetail.url (fill d e)
      = CandidateDetail.url d ++ texts_of "URL" [e])%list.
Proof.
  unfold pick, texts_of. cbn [first_text filter map].
  repeat split; fill_cases e d.
Qed.

Lemma fold_fill_fields (ents : list PIIEntity.t) :
  forall d,
    CandidateDetail.id (fold_left fill ents d) = CandidateDetail.id d
    /\ CandidateDetail.name (fold_left fill ents d)
       = pick (CandidateDetail.name d) "NAME" ents
    /\ CandidateDetail.email (fold_left fill ents d)
       = pick (CandidateDetail.email d) "EMAIL" ents
    /\ CandidateDetail.phone (fold_left fill ents d)
       = pick (CandidateDetail.phone d) "PHONE" ents
    /\ CandidateDetail.location (fold_left fill ents d)
       = pick (CandidateDetail.location d) "LOCATION" ents
    /\ (CandidateDetail.url (fold_left fill ents d)
        = CandidateDetail.url d ++ texts_of "URL" ents)%list.
Proof.
  induction ents as [|e rest IH]; intro d.
  - unfold pick, texts_of. simpl. rewrite app_nil_r.
    repeat split;
      match goal with
      | |- ?x = (if truthy ?x then _ else _) => destruct x; reflexivity
      end.
  - simpl fold_left.
    destruct (IH (fill d e)) as (H0 & H1 & H2 & H3 & H4 & H5).
    destruct (fill_fields e d rest) as (G0 & G1 & G2 & G3 & G4 & G5).
    rewrite H0, H1, H2, H3, H4, H5, G0, G1, G2, G3, G4, G5.
    repeat split.
    rewrite <- app_assoc. f_equal.
    unfold texts_of. simpl.
    destruct (String.eqb (PIIEntity.entity_type e) "URL"); reflexivity.
Qed.

(** X14 ([process_resume]).  The contact card that comes with the
    redacted resume carries the resume's identifier, which is the given
    candidate identifier or, when that is empty, [cand_] followed by
    the time stamp.  Its name, e-mail address, telephone number and
    location are the texts of the first detected entity of type NAME,
    EMAIL, PHONE and LOCATION that has a text (the empty string when
    there is none), and its URL list holds the texts of all entities of
    type URL, in the order of detection.  The resume keeps the original
    text. *)
Theorem process_resume_contact_card (self : PIIDetector) (now : datetime)
    (stamp text candidate_id : string) (r : RedacteddResume.t)
    (d : CandidateDetail.t) :
  process_resume self now stamp text candidate_id = Ok (r, d) ->
  RedacteddResume.id r
  = (if truthy candidate_id then candidate_id else "cand_" ++ stamp)%string
  /\ RedacteddResume.original_text r = text
  /\ CandidateDetail.id d = RedacteddResume.id r
  /\ CandidateDetail.name d
     = first_text "NAME" (RedacteddResume.pii_entities r)
  /\ CandidateDetail.email d
     = first_text "EMAIL" (RedacteddResume.pii_entities r)
  /\ CandidateDetail.phone d
     = first_text "PHONE" (RedacteddResume.pii_entities r)
  /\ CandidateDetail.location d
     = first_text "LOCATION" (RedacteddResume.pii_entities r)
  /\ CandidateDetail.url d
     = texts_of "URL" (RedacteddResume.pii_entities r).
Proof.
  unfold process_resume.
  destruct (detect_pii self text) as [ents | e]; simpl; [| discriminate].
  intro H. injection H as <- <-. simpl.
  destruct (fold_fill_fields ents
              (CandidateDetail.new
                 (if truthy candidate_id then candidate_id
                  else ("cand_" ++ stamp)%string)))
    as (H0 & H1 & H2 & H3 & H4 & H5).
  repeat split; assumption.
Qed.

Lemma process_resume_contact_card_witness :
  exists r d,
    process_resume (detector_returning [sample.john; sample.smith])
      0%Z "20240101_120000"
      "John Smith, jane@x.com, www.a.org/x and b.org/y"
      EmptyString
    = Ok (r, d)
    /\ CandidateDetail.id d = "cand_20240101_120000"
    /\ CandidateDetail.name d = "John Smith"
    /\ CandidateDetail.email d = "jane@x.com"
    /\ CandidateDetail.phone d = EmptyString
    /\ CandidateDetail.url d = ["www.a.org/x"; "b.org/y"].
Proof.
  destruct (process_resume (detector_returning [sample.john; sample.smith])
              0%Z "20240101_120000"
              "John Smith, jane@x.com, www.a.org/x and b.org/y"
              EmptyString)
    as [[r d] | e] eqn:E; [| vm_compute in E; discriminate].
  exists r, d. split; [reflexivity |].
  destruct (process_resume_contact_card _ _ _ _ _ _ _ E)
    as (H0 & _ & H1 & H2 & H3 & H4 & _ & H5).
  rewrite H1, H2, H3, H4, H5, H0.
  vm_compute in E. injection E as <- _. vm_compute. repeat split.
Defined.

End ContactCard.

(** ** The size of the redacted text ([process_resume]) *)

Section RedactedSize.

Import pii_redactor.

Local Open Scope Z_scope.

Lemma total_growth_perm (l l' : list PIIEntity.t) :
  Permutation l l' -> total_growth l = total_growth l'.
Proof.
  induction 1 as [| x l l' _ IH | x y l | l l' l'' _ IH1 _ IH2]; simpl;
    unfold total_growth in *; simpl; lia.
Qed.

Lemma splice_chars_exact_length (a : list ascii) (e : PIIEntity.t) :
  within (List.length a) e ->
  Z.of_nat (List.length (splice_chars a e))
  = Z.of_nat (List.length a) + growth e.
Proof.
  unfold within, splice_chars, growth. intros [H1 H2].
  rewrite !length_app, length_skipn, firstn_length_le by lia.
  rewrite length_list_ascii. lia.
Qed.

Lemma fold_splice_length (ds : list PIIEntity.t) :
  chain ds ->
  forall a,
    Forall (within (List.length a)) ds ->
    Z.of_nat (List.length (fold_left splice_chars ds a))
    = Z.of_nat (List.length a) + total_growth ds.
Proof.
  unfold chain. induction 1 as [|e r Hr IH He]; intros a Hw; simpl.
  - unfold total_growth. simpl. lia.
  - pose proof (Forall_inv Hw) as Hwe.
    rewrite IH.
    + rewrite splice_chars_exact_length by exact Hwe.
      unfold total_growth. simpl. lia.
    + apply Forall_forall. intros e' He'.
      rewrite Forall_forall in He. specialize (He e' He').
      apply Forall_inv_tail in Hw. rewrite Forall_forall in Hw.
      destruct (Hw e' He') as [H1 H2].
      pose proof (splice_chars_length a e Hwe) as Hlen.
      unfold within in *. lia.
Qed.

(** X15 ([process_resume], the redaction loop).  With no entity the
    text is returned as it is.  For entities whose spans are non-empty
    spans of the text and do not overlap, the redacted text is longer
    than the original by the sum, over the entities, of the length of
    the replacement minus the width of the span. *)
Theorem redact_length (text : string) (l : list PIIEntity.t) :
  redact text [] = text
  /\ (Forall (valid_span text) l -> non_overlapping l ->
      Z.of_nat (String.length (redact text l))
      = Z.of_nat (String.length text) + total_growth l).
Proof.
  split; [reflexivity |]. intros Hv Hn.
  pose proof (sorted_desc_perm l) as Hp.
  assert (Hv' : Forall (valid_span text) (sorted_desc l)).
  { rewrite Forall_forall in Hv |- *. intros x Hx. apply Hv.
    apply (Permutation_in _ (Permutation_sym Hp) Hx). }
  unfold redact.
  rewrite <- length_list_ascii, fold_splice_as_chars.
  - rewrite fold_splice_length.
    + rewrite length_list_ascii. f_equal. symmetry.
      now apply total_growth_perm.
    + now apply (sorted_desc_chain text).
    + rewrite Forall_forall in Hv' |- *. intros e He.
      destruct (Hv' e He) as [H1 H2]. rewrite length_list_ascii.
      unfold within. lia.
  - rewrite Forall_forall in Hv' |- *. intros e He.
    destruct (Hv' e He) as [H1 H2]. lia.
Qed.

Lemma redact_length_witness :
  Z.of_nat (String.length
              (redact sample.contact_line
                 [sample.name; sample.mail; sample.phone]))
  = Z.of_nat (String.length sample.contact_line)
    + total_growth [sample.name; sample.mail; sample.phone]
  /\ total_growth [sample.name; sample.mail; sample.phone] = -7.
Proof.
  split; [| reflexivity].
  apply (proj2 (redact_length sample.contact_line
                  [sample.name; sample.mail; sample.phone])).
  - repeat constructor; unfold valid_span; simpl; lia.
  - repeat constructor; unfold disjoint; simpl; lia.
Defined.

End RedactedSize.

(** ** The pipeline ([MatchingOrchestrator.analyse]) *)

Section Pipeline.

Import agents orchestrator.

Lemma quiet_step_refl (w : world) : quiet_step w w.
Proof.
  repeat split. exists []. now rewrite app_nil_r.
Qed.

Lemma quiet_step_trans (w1 w2 w3 : world) :
  quiet_step w1 w2 -> quiet_step w2 w3 -> quiet_step w1 w3.
Proof.
  intros (H1 & H2 & m1 & H3) (G1 & G2 & m2 & G3). repeat split.
  - congruence.
  - congruence.
  - exists (m1 ++ m2). rewrite G3, H3, app_assoc. reflexivity.
Qed.

Lemma quiet_ret {A} (a : A) : quiet (ret a).
Proof. intros w r w' H. injection H as _ <-. apply quiet_step_refl. Qed.

Lemma quiet_raise {A} (e : exn) : quiet (@raise A e).
Proof. intros w r w' H. injection H as _ <-. apply quiet_step_refl. Qed.

Lemma quiet_lift {A} (x : result A) : quiet (lift x).
Proof. intros w r w' H. injection H as _ <-. apply quiet_step_refl. Qed.

Lemma quiet_get_self : quiet get_self.
Proof. intros w r w' H. injection H as _ <-. apply quiet_step_refl. Qed.

Lemma quiet_set_message_thread (t : thread) : quiet (set_message_thread t).
Proof.
  intros w r w' H. injection H as _ <-. repeat split.
  exists []. simpl. now rewrite app_nil_r.
Qed.

Lemma quiet_call (cb : option (string -> result unit)) (msg : string) :
  quiet (call cb msg).
Proof.
  intros w r w' H. unfold call in H.
  destruct cb as [f|]; [| injection H as _ <-; apply quiet_step_refl].
  destruct (f msg); injection H as _ <-; [| apply quiet_step_refl].
  repeat split. now exists [msg].
Qed.

Lemma quiet_bind {A B} (m : M A) (k : A -> M B) :
  quiet m -> (forall a, quiet (k a)) -> quiet (bindM m k).
Proof.
  intros Hm Hk w r w' H. unfold bindM in H.
  destruct (m w) as [[a | e] w1] eqn:E.
  - apply (quiet_step_trans w w1 w'); [apply (Hm _ _ _ E) |].
    apply (Hk a _ _ _ H).
  - injection H as _ <-. apply (Hm _ _ _ E).
Qed.

Lemma quiet_try {A} (body : M A) (handler : exn -> M A) :
  quiet body -> (forall e, quiet (handler e)) ->
  quiet (try_exceptM body handler).
Proof.
  intros Hm Hk w r w' H. unfold try_exceptM in H.
  destruct (body w) as [[a | e] w1] eqn:E.
  - injection H as _ <-. apply (Hm _ _ _ E).
  - apply (quiet_step_trans w w1 w'); [apply (Hm _ _ _ E) |].
    apply (Hk e _ _ _ H).
Qed.

Lemma appends_alloc (r : AnalysisReport.t) : appends_on_return (alloc r).
Proof.
  intros w res w' H. injection H as <- <-. simpl.
  split; [reflexivity |]. split.
  - exists []. now rewrite app_nil_r.
  - split; [reflexivity | now exists r].
Qed.

Lemma appends_bind {A} (m : M A) (k : A -> M nat) :
  quiet m -> (forall a, appends_on_return (k a)) ->
  appends_on_return (bindM m k).
Proof.
  intros Hm Hk w r w' H. unfold bindM in H.
  destruct (m w) as [[a | e] w1] eqn:E.
  - destruct (Hm _ _ _ E) as (H1 & H2 & m1 & H3).
    destruct (Hk a _ _ _ H) as (G2 & (m2 & G3) & G1).
    split; [congruence |]. split.
    + exists (m1 ++ m2). rewrite G3, H3, app_assoc. reflexivity.
    + rewrite H1 in G1. exact G1.
  - injection H as <- <-.
    destruct (Hm _ _ _ E) as (H1 & H2 & H3). repeat split; assumption.
Qed.

Ltac quiet_tac :=
  repeat first
    [ apply quiet_ret | apply quiet_raise | apply quiet_lift
    | apply quiet_get_self | apply quiet_set_message_thread
    | apply quiet_call
    | apply quiet_bind; [| intro]
    | apply quiet_try; [| intro] ].

(** X16 ([analyse], [progress_callback=None]).  Called without a
    progress sink, which is the default, [analyse] never gets past the
    first stage: whether the resume loads or not, the first status
    update calls [None], the handler of the stage does so again, and
    the run ends with that type error, having changed nothing. *)
Theorem analyse_without_callback_raises (env : Env)
    (resume_source job_source candidate_id job_id : string) (w : world) :
  analyse env resume_source job_source candidate_id job_id None w
  = (Raise TypeError, w).
Proof.
  unfold analyse, bindM, try_exceptM, lift, call.
  destruct (load_document env resume_source); reflexivity.
Qed.

(** X17 ([analyse], stage 1).  With a sink that accepts every status
    line: when the resume cannot be loaded the run raises a
    [ValueError] that names the source and carries the text of the
    error, after the one status line for the failure; when the resume
    loads and the job cannot be loaded, likewise for the job, after two
    status lines.  No report is made and the orchestrator is as
    before. *)
Theorem analyse_load_failures (env : Env)
    (resume_source job_source candidate_id job_id : string)
    (progress_callback : string -> result unit) (w : world) (e : exn) :
  (forall msg, progress_callback msg = Ok tt) ->
  (load_document env resume_source = Raise e ->
   analyse env resume_source job_source candidate_id job_id
     (Some progress_callback) w
   = (Raise (ValueError ("Failed to load resume from " ++ resume_source
                           ++ ": " ++ exn_text e)),
      told w ["**Status:** Resume load failed"]))
  /\ (forall resume_text,
         load_document env resume_source = Ok resume_text ->
         load_document env job_source = Raise e ->
         analyse env resume_source job_source candidate_id job_id
           (Some progress_callback) w
         = (Raise (ValueError ("Failed to load job from " ++ job_source
                                 ++ ": " ++ exn_text e)),
            told w ["**Status:** Resume loaded ... **Now:** Loading job ad";
                    "**Status:** Job load failed"])).
Proof.
  intro Hcb. split.
  - intro Hr. unfold analyse, bindM, try_exceptM, lift, call, raise, told.
    rewrite Hr, Hcb. reflexivity.
  - intros resume_text Hr Hj.
    unfold analyse, bindM, try_exceptM, lift, call, raise, ret, told.
    rewrite Hr, Hcb. cbn [delivered self reports].
    rewrite Hj, Hcb. cbn [delivered self reports].
    rewrite <- app_assoc. reflexivity.
Qed.

Lemma analyse_load_failures_witness :
  analyse sample.env "missing.pdf" "job.txt" "c_001" "j_001"
    (Some sample.sink) (sample.fresh (detector_returning []))
  = (Raise (ValueError
              "Failed to load resume from missing.pdf: Document not found: missing.pdf"),
     told (sample.fresh (detector_returning []))
       ["**Status:** Resume load failed"]).
Proof.
  apply (proj1 (analyse_load_failures sample.env "missing.pdf" "job.txt"
                  "c_001" "j_001" sample.sink
                  (sample.fresh (detector_returning []))
                  (Exception "Document not found: missing.pdf")
                  (fun msg => eq_refl))).
  reflexivity.
Defined.

(** X18 ([analyse], stage 1).  The status update sits inside the [try]
    of the stage: when the resume loads but the sink rejects the status
    line, the run reports a failure to load the resume, with the text
    of the sink's error. *)
Theorem analyse_sink_failure_blamed_on_load (env : Env)
    (resume_source job_source candidate_id job_id : string)
    (progress_callback : string -> result unit) (w : world)
    (resume_text : string) (e : exn) :
  load_document env resume_source = Ok resume_text ->
  progress_callback "**Status:** Resume loaded ... **Now:** Loading job ad"
  = Raise e ->
  progress_callback "**Status:** Resume load failed" = Ok tt ->
  analyse env resume_source job_source candidate_id job_id
    (Some progress_callback) w
  = (Raise (ValueError ("Failed to load resume from " ++ resume_source
                          ++ ": " ++ exn_text e)),
     told w ["**Status:** Resume load failed"]).
Proof.
  intros Hr Hfail Hok.
  unfold analyse, bindM, try_exceptM, lift, call, raise, told.
  rewrite Hr, Hfail, Hok. reflexivity.
Qed.

Lemma analyse_sink_failure_blamed_on_load_witness :
  analyse sample.env "resume.txt" "job.txt" "c_001" "j_001"
    (Some (fun msg =>
             if String.eqb msg "**Status:** Resume load failed"
             then Ok tt else Raise (Exception "widget is gone")))
    (sample.fresh (detector_returning []))
  = (Raise (ValueError
              "Failed to load resume from resume.txt: widget is gone"),
     told (sample.fresh (detector_returning []))
       ["**Status:** Resume load failed"]).
Proof.
  apply (analyse_sink_failure_blamed_on_load sample.env "resume.txt"
           "job.txt" "c_001" "j_001" _ _ sample.contact_line
           (Exception "widget is gone"));
    reflexivity.
Defined.

Lemma analyse_appends (env : Env)
    (resume_source job_source candidate_id job_id : string)
    (progress_callback : option (string -> result unit)) :
  appends_on_return
    (analyse env resume_source job_source candidate_id job_id
       progress_callback).
Proof.
  unfold analyse.
  apply appends_bind; [quiet_tac | intro resume_text].
  apply appends_bind; [quiet_tac | intro job_text].
  apply appends_bind; [quiet_tac | intros [processed_resume details]].
  apply appends_bind; [quiet_tac | intro parsed_resume].
  apply appends_bind; [quiet_tac | intro parsed_job].
  apply appends_bind; [quiet_tac | intro fit_analysis].
  apply appends_bind; [quiet_tac | intro summary].
  apply appends_bind; [quiet_tac | intro report].
  apply appends_alloc.
Qed.

(** X19 ([analyse]).  Whatever the collaborators do, a run never
    changes or removes an existing report and never replaces the
    detector; status lines are only added.  A run that raises leaves
    the reports as they were; a run that returns has appended exactly
    one report and returns its position. *)
Theorem analyse_frame (env : Env)
    (resume_source job_source candidate_id job_id : string)
    (progress_callback : option (string -> result unit))
    (w w' : world) (r : result nat) :
  analyse env resume_source job_source candidate_id job_id
    progress_callback w
  = (r, w') ->
  pii_detector (self w') = pii_detector (self w)
  /\ (exists msgs, delivered w' = delivered w ++ msgs)
  /\ match r with
     | Ok ref =>
         ref = List.length (reports w)
         /\ exists report, reports w' = reports w ++ [report]
     | Raise _ => reports w' = reports w
     end.
Proof.
  apply (analyse_appends env resume_source job_source candidate_id job_id
           progress_callback).
Qed.

Lemma analyse_frame_witness :
  reports
    (snd (analyse sample.env "resume.txt" "nowhere" "c_001" "j_001"
            (Some sample.sink) sample.completed))
  = reports sample.completed
  /\ exists msgs,
       delivered
         (snd (analyse sample.env "resume.txt" "nowhere" "c_001" "j_001"
                 (Some sample.sink) sample.completed))
       = delivered sample.completed ++ msgs.
Proof.
  destruct (analyse sample.env "resume.txt" "nowhere" "c_001" "j_001"
              (Some sample.sink) sample.completed)
    as [r w'] eqn:E.
  destruct (analyse_frame _ _ _ _ _ _ _ _ _ E) as (_ & H2 & H3).
  destruct r as [ref | e]; [vm_compute in E; discriminate |].
  simpl snd. split; assumption.
Defined.

End Pipeline.

(** ** Identifiers (src/agents, [analyse]) *)

Section Identifiers.

Import agents orchestrator.

Lemma parse_resume_id (a : Agents) (resume_text candidate_id : string)
    (r : ParsedResume.t) :
  parse_resume a resume_text candidate_id = Ok r ->
  ParsedResume.candidate_id r = candidate_id.
Proof.
  unfold parse_resume. destruct (resume_agent a _); simpl; [| discriminate].
  intro H. injection H as <-. reflexivity.
Qed.

Lemma parse_job_id (a : Agents) (job_ad_text job_id : string)
    (j : ParsedJob.t) :
  parse_job a job_ad_text job_id = Ok j -> ParsedJob.job_id j = job_id.
Proof.
  unfold parse_job. destruct (job_agent a _); simpl; [| discriminate].
  intro H. injection H as <-. reflexivity.
Qed.

Lemma match_ids (a : Agents) (resume : ParsedResume.t) (job : ParsedJob.t)
    (f : FitAnalysis.t) :
  match_candidate_to_job a resume job = Ok f ->
  FitAnalysis.candidate_id f = ParsedResume.candidate_id resume
  /\ FitAnalysis.job_id f = ParsedJob.job_id job.
Proof.
  unfold match_candidate_to_job.
  destruct (matcher_agent a _); simpl; [| discriminate].
  intro H. injection H as <-. split; reflexivity.
Qed.

Lemma summary_ids (a : Agents) (fit : FitAnalysis.t)
    (resume : ParsedResume.t) (job : ParsedJob.t)
    (feedback : option string) (history : option thread)
    (s : SummaryGenerated.t) (t : thread) :
  generate_summary a fit resume job feedback history = Ok (s, t) ->
  SummaryGenerated.candidate_id s = ParsedResume.candidate_id resume
  /\ SummaryGenerated.job_id s = ParsedJob.job_id job.
Proof.
  unfold generate_summary.
  destruct feedback as [fb |];
    (destruct (summary_agent a _ _) as [[s0 t0] |]; simpl; [| discriminate];
     intro H; injection H as <- <-; split; reflexivity).
Qed.

(** X20 (src/agents).  The identifiers of what the four agent
    functions return never come from the model: [parse_resume] and
    [parse_job] return the identifier they were given,
    [match_candidate_to_job] and [generate_summary] those of the resume
    and of the job they were given.  An exception of the model run is
    passed on unchanged.  Without recruiter feedback
    [generate_summary] does not use the message history. *)
Theorem agent_outputs_carry_given_ids (a : Agents) :
  (forall resume_text candidate_id,
      match parse_resume a resume_text candidate_id with
      | Ok r => ParsedResume.candidate_id r = candidate_id
      | Raise e =>
          resume_agent a (ParseResume candidate_id resume_text) = Raise e
      end)
  /\ (forall job_ad_text job_id,
         match parse_job a job_ad_text job_id with
         | Ok j => ParsedJob.job_id j = job_id
         | Raise e => job_agent a (ParseJob job_id job_ad_text) = Raise e
         end)
  /\ (forall resume job,
         match match_candidate_to_job a resume job with
         | Ok f =>
             FitAnalysis.candidate_id f = ParsedResume.candidate_id resume
             /\ FitAnalysis.job_id f = ParsedJob.job_id job
         | Raise e => matcher_agent a (Match resume job) = Raise e
         end)
  /\ (forall fit resume job feedback history,
         match generate_summary a fit resume job feedback history with
         | Ok (s, _) =>
             SummaryGenerated.candidate_id s
             = ParsedResume.candidate_id resume
             /\ SummaryGenerated.job_id s = ParsedJob.job_id job
         | Raise e =>
             match feedback with
             | None => summary_agent a (Summarise resume job fit) None
             | Some f => summary_agent a (Revise resume job fit f) history
             end = Raise e
         end)
  /\ (forall fit resume job history,
         generate_summary a fit resume job None history
         = generate_summary a fit resume job None None).
Proof.
  repeat split.
  - intros t c. destruct (parse_resume a t c) as [r | e] eqn:E.
    + now apply (parse_resume_id a t c).
    + unfold parse_resume in E.
      destruct (resume_agent a _); [discriminate | exact E].
  - intros t c. destruct (parse_job a t c) as [r | e] eqn:E.
    + now apply (parse_job_id a t c).
    + unfold parse_job in E.
      destruct (job_agent a _); [discriminate | exact E].
  - intros r j. destruct (match_candidate_to_job a r j) as [f | e] eqn:E.
    + now apply (match_ids a r j).
    + unfold match_candidate_to_job in E.
      destruct (matcher_agent a _); [discriminate | exact E].
  - intros f r j fb h.
    destruct (generate_summary a f r j fb h) as [[s t] | e] eqn:E.
    + now apply (summary_ids a f r j fb h s t).
    + unfold generate_summary in E.
      destruct fb as [fb |];
        (destruct (summary_agent a _ _) as [[s0 t0] |];
         [discriminate | exact E]).
Qed.

Lemma bindM_ok {A B} (m : M A) (k : A -> M B) (w w' : world) (b : B) :
  bindM m k w = (Ok b, w') ->
  exists a w1, m w = (Ok a, w1) /\ k a w1 = (Ok b, w').
Proof.
  unfold bindM. destruct (m w) as [[a | e] w1]; [| discriminate].
  intro H. now exists a, w1.
Qed.

(** A stage of the pipeline: the call, then the status line; the
    handler sends its own status line and raises. *)
Lemma stage_ok {A} (x : result A) (cb : option (string -> result unit))
    (msg msg' : string) (wrap : exn -> exn) (w w' : world) (a : A) :
  try_exceptM
    (r <<- lift x ;; _ <<- call cb msg ;; ret r)
    (fun e => _ <<- call cb msg' ;; raise (wrap e)) w
  = (Ok a, w') ->
  x = Ok a /\ self w' = self w /\ reports w' = reports w.
Proof.
  unfold try_exceptM, bindM, lift, call, ret, raise.
  destruct x as [a0 | e]; destruct cb as [f |];
    try destruct (f msg); try destruct (f msg');
    intro H; try discriminate; injection H as <- <-; repeat split.
Qed.

Lemma truthy_cand (stamp : string) : truthy ("cand_" ++ stamp)%string = true.
Proof. reflexivity. Qed.

Lemma process_resume_id (self : pii_redactor.PIIDetector) (now : datetime)
    (stamp text candidate_id : string) (r : RedacteddResume.t)
    (d : CandidateDetail.t) :
  truthy candidate_id = true ->
  pii_redactor.process_resume self now stamp text candidate_id = Ok (r, d) ->
  CandidateDetail.id d = candidate_id.
Proof.
  intros Ht. unfold pii_redactor.process_resume.
  destruct (pii_redactor.detect_pii self text) as [ents | e]; simpl;
    [| discriminate].
  intro H. injection H as _ <-. rewrite Ht.
  destruct (fold_fill_fields ents (CandidateDetail.new candidate_id))
    as (H0 & _).
  exact H0.
Qed.

(** X21 ([analyse]).  Whatever the collaborators return, a run that
    returns has loaded the resume and gone through a successful
    redaction, whose contact card is the one in the report, and the
    report is consistent: the contact card, the parsed resume, the fit
    analysis and the summary carry the candidate identifier of the run
    (the one given or, when that is empty, [cand_] and the time stamp),
    the report, the parsed job, the fit analysis and the summary carry
    its job identifier, and the orchestrator holds a message thread for
    later revisions. *)
Theorem analyse_report_identifiers (env : Env)
    (resume_source job_source candidate_id job_id : string)
    (progress_callback : option (string -> result unit))
    (w w' : world) (ref : nat) :
  analyse env resume_source job_source candidate_id job_id
    progress_callback w
  = (Ok ref, w') ->
  exists report t,
    nth_error (reports w') ref = Some report
    /\ message_thread (self w') = Some t
    /\ (let cid := if truthy candidate_id then candidate_id
                   else ("cand_" ++ strftime env (now env))%string in
        CandidateDetail.id (AnalysisReport.candidate_details report) = cid
        /\ ParsedResume.candidate_id (AnalysisReport.resume report) = cid
        /\ FitAnalysis.candidate_id (AnalysisReport.fit_analysis report)
           = cid
        /\ SummaryGenerated.candidate_id (AnalysisReport.summary report)
           = cid
        /\ exists resume_text redacted,
             load_document env resume_source = Ok resume_text
             /\ pii_redactor.process_resume (pii_detector (self w))
                  (now env) (strftime env (now env)) resume_text cid
                = Ok (redacted, AnalysisReport.candidate_details report))
    /\ (let jid := if truthy job_id then job_id
                   else ("job_" ++ strftime env (now env))%string in
        AnalysisReport.job_id report = jid
        /\ ParsedJob.job_id (AnalysisReport.job report) = jid
        /\ FitAnalysis.job_id (AnalysisReport.fit_analysis report) = jid
        /\ SummaryGenerated.job_id (AnalysisReport.summary report) = jid).
Proof.
  intro H. unfold analyse in H.
  set (cid := if truthy candidate_id then candidate_id
              else ("cand_" ++ strftime env (now env))%string) in *.
  set (jid := if truthy job_id then job_id
              else ("job_" ++ strftime env (now env))%string) in *.
  assert (Hcid : truthy cid = true).
  { unfold cid. destruct (truthy candidate_id) eqn:E;
      [exact E | apply truthy_cand]. }
  apply bindM_ok in H. destruct H as (resume_text & w1 & H1 & H).
  apply bindM_ok in H. destruct H as (job_text & w2 & H2 & H).
  apply bindM_ok in H. destruct H as ([processed details] & w3 & H3 & H).
  apply bindM_ok in H. destruct H as (parsed_resume & w4 & H4 & H).
  apply bindM_ok in H. destruct H as (parsed_job & w5 & H5 & H).
  apply bindM_ok in H. destruct H as (fit & w6 & H6 & H).
  apply bindM_ok in H. destruct H as (summary & w7 & H7 & H).
  apply bindM_ok in H. destruct H as (report & w8 & H8 & H).
  apply stage_ok in H1, H2, H4, H5, H6.
  destruct H1 as (H1 & S1 & _), H2 as (_ & S2 & _).
  destruct H4 as (H4 & _), H5 as (H5 & _), H6 as (H6 & _).
  (* the report is built from an instance of the contact card *)
  unfold lift in H8. injection H8 as H8 <-.
  destruct details as [detail |]; [| discriminate].
  simpl in H8. injection H8 as <-.
  (* which the redaction stage returned *)
  assert (Hred : exists redacted,
             pii_redactor.process_resume (pii_detector (self w)) (now env)
               (strftime env (now env)) resume_text cid
             = Ok (redacted, detail)).
  { unfold try_exceptM, bindM, get_self, lift, call, ret in H3.
    rewrite S2, S1 in H3.
    destruct (pii_redactor.process_resume _ _ _ _ _) as [[pr d] | e] eqn:E.
    - destruct progress_callback as [f |].
      + destruct (f _); [| destruct (f _); discriminate].
        injection H3 as _ <- _. now exists pr.
      + discriminate.
    - destruct progress_callback as [f |]; [| discriminate].
      destruct (f _); discriminate. }
  destruct Hred as (redacted & Hred).
  pose proof (process_resume_id _ _ _ _ _ _ _ Hcid Hred) as Hd.
  (* the summary stage stored the thread *)
  assert (Hs : exists t,
             generate_summary (the_agents env) fit parsed_resume parsed_job
               None None = Ok (summary, t)
             /\ message_thread (self w7) = Some t).
  { unfold try_exceptM, bindM, lift, set_message_thread, ret, raise in H7.
    destruct (generate_summary _ _ _ _ _ _) as [[s t] | e];
      [| discriminate].
    injection H7 as <- <-. exists t. split; reflexivity. }
  destruct Hs as (t & Hs & Ht).
  injection H as <- <-.
  eexists. exists t. split; [| split; [exact Ht |]].
  - simpl. rewrite nth_error_app2 by lia. rewrite Nat.sub_diag. reflexivity.
  - pose proof (parse_resume_id _ _ _ _ H4) as I1.
    pose proof (parse_job_id _ _ _ _ H5) as I2.
    destruct (match_ids _ _ _ _ H6) as [I3 I4].
    destruct (summary_ids _ _ _ _ _ _ _ _ Hs) as [I5 I6].
    simpl. repeat split; try congruence.
    exists resume_text, redacted. split; assumption.
Qed.

Lemma analyse_report_identifiers_witness :
  exists report t,
    nth_error
      (reports
         (snd (analyse sample.env "resume.txt" "job.txt" EmptyString "j_001"
                 (Some sample.sink) (sample.fresh (detector_returning [])))))
      0
    = Some report
    /\ message_thread
         (self
            (snd (analyse sample.env "resume.txt" "job.txt" EmptyString
                    "j_001" (Some sample.sink)
                    (sample.fresh (detector_returning [])))))
       = Some t
    /\ CandidateDetail.id (AnalysisReport.candidate_details report)
       = "cand_20231114_221320"
    /\ SummaryGenerated.job_id (AnalysisReport.summary report) = "j_001".
Proof.
  destruct (analyse sample.env "resume.txt" "job.txt" EmptyString "j_001"
              (Some sample.sink) (sample.fresh (detector_returning [])))
    as [[ref | e] w'] eqn:E; [| vm_compute in E; discriminate].
  assert (Hr : ref = 0%nat) by (vm_compute in E; congruence).
  subst ref.
  destruct (analyse_report_identifiers _ _ _ _ _ _ _ _ _ E)
    as (report & t & H1 & H2 & (H3 & _) & (_ & _ & _ & H4)).
  exists report, t. simpl snd. repeat split; assumption.
Defined.

End Identifiers.

(** ** Names and locations stay clear of the regex entities
    ([detect_pii]) *)

Section ClearOfRegex.

Import pii_redactor.

Local Open Scope Z_scope.

Variable R : list PIIEntity.t.

(** Every entity of [R] is at least two characters wide. *)
Hypothesis wide :
  forall r, In r R -> PIIEntity.start_char r + 2 <= PIIEntity.end_char r.

Lemma entity_of_buffer_span (b : buffer) (e : PIIEntity.t) :
  entity_of_buffer b = Ok e ->
  PIIEntity.start_char e = b_start_char b
  /\ PIIEntity.end_char e = b_end_char b.
Proof.
  unfold entity_of_buffer, PIIEntity.new.
  destruct (Qleb 0 (b_confidence b)); [| discriminate].
  destruct (Qleb (b_confidence b) 100); [| discriminate].
  simpl. intro H. injection H as <-. split; reflexivity.
Qed.

Lemma flush_guarded (st st' : loop_state) :
  guarded R st -> flush st = Ok st' -> guarded R st'.
Proof.
  intros (Hocc & (extra & Hp & Hall) & Hb) H. unfold flush in H.
  destruct (current_entity st) as [b|] eqn:Ec.
  - destruct (entity_of_buffer b) as [e|] eqn:Ee; [| discriminate].
    simpl in H. injection H as <-. simpl.
    destruct (entity_of_buffer_span b e Ee) as [E1 E2].
    split; [| split].
    + intros r Hr. apply in_or_app. left. now apply Hocc.
    + exists (extra ++ [e]). rewrite Hp, app_assoc.
      split; [reflexivity |].
      apply Forall_app. split; [exact Hall |].
      constructor; [| constructor]. rewrite E1, E2. now apply Hb.
    + intros b' E. injection E as <-. now apply Hb.
  - injection H as <-. split; [exact Hocc |].
    split; [now exists extra |]. intros b E. congruence.
Qed.

Lemma step_guarded (st st' : loop_state) (ent : ner_span) :
  guarded R st -> step st ent = Ok st' -> guarded R st'.
Proof.
  intros Hst H. unfold step in H.
  destruct (negb (is_name_or_location (_normalise_label (entity_group ent))));
    [injection H as <-; exact Hst |].
  destruct (overlaps_occupied (start ent) (end_ ent) (occupied_spans st))
    eqn:Eo; [injection H as <-; exact Hst |].
  assert (Hnew : clear_of R (start ent) (end_ ent)).
  { intros r Hr. destruct Hst as (Hocc & _).
    pose proof (proj1 (overlaps_occupied_false _ _ _) Eo _ _ (Hocc r Hr)).
    lia. }
  destruct (starts_new _ _ _) eqn:En.
  - destruct (flush st) as [st1|] eqn:Ef; [| discriminate].
    simpl in H. injection H as <-.
    destruct (flush_guarded st st1 Hst Ef) as (Hocc & Hp & _).
    split; [exact Hocc |]. split; [exact Hp |].
    simpl. intros b E. injection E as <-. exact Hnew.
  - destruct (current_entity st) as [b|] eqn:Ec;
      [| injection H as <-; exact Hst].
    injection H as <-. destruct Hst as (Hocc & Hp & Hb).
    split; [exact Hocc |]. split; [exact Hp |].
    simpl. intros b' E. injection E as <-. simpl.
    (* the span joins a buffer that ends at most one character before
       it, and no entity of [R] fits in between *)
    unfold starts_new in En. apply orb_false_iff in En.
    destruct En as [_ En]. rewrite Z.gtb_ltb in En.
    apply Z.ltb_ge in En.
    intros r Hr.
    pose proof (Hb b Ec r Hr). pose proof (Hnew r Hr).
    pose proof (wide r Hr). lia.
Qed.

Lemma run_loop_guarded (entities : list ner_span) :
  forall st st',
    guarded R st -> run_loop st entities = Ok st' -> guarded R st'.
Proof.
  induction entities as [|ent rest IH]; intros st st' Hst H; simpl in H.
  - injection H as <-. exact Hst.
  - destruct (step st ent) as [st1|] eqn:Es; [| discriminate].
    simpl in H. apply (IH st1 st'); [| exact H].
    now apply (step_guarded st st1 ent).
Qed.

End ClearOfRegex.

Section ClearOfRegexEntities.

Import pii_redactor.

Local Open Scope Z_scope.

Lemma regex_entities_wide (text : string) (r : PIIEntity.t) :
  In r (regex_entities text) ->
  PIIEntity.start_char r + 2 <= PIIEntity.end_char r.
Proof.
  unfold regex_entities. intro H.
  apply in_app_or in H. destruct H as [H | H];
    [| apply in_app_or in H; destruct H as [H | H]];
    apply in_map_iff in H; destruct H as (m & <- & Hm).
  - destruct (of_match_reads "EMAIL" _ text m Hm) as (_ & _ & H3).
    change (Z.of_nat (re_facts.min_len email_pattern)) with 6 in H3. lia.
  - destruct (of_match_reads "PHONE" _ text m Hm) as (_ & _ & H3).
    change (Z.of_nat (re_facts.min_len phone_pattern)) with 6 in H3. lia.
  - destruct (of_match_reads "URL" _ text m Hm) as (_ & _ & H3).
    change (Z.of_nat (re_facts.min_len url_pattern)) with 5 in H3. lia.
Qed.

(** X22 ([detect_pii]).  No name or location that [detect_pii] reports
    overlaps an e-mail address, telephone number or URL found by the
    regular expressions, whatever spans the token classifier returns
    and in whatever order: a span of the classifier is dropped when it
    overlaps a regex span, and merging spans that lie at most one
    character apart cannot bridge a regex span, which is at least five
    characters wide. *)
Theorem detect_pii_names_clear_of_regex (self : PIIDetector)
    (text : string) (ents : list PIIEntity.t) :
  detect_pii self text = Ok ents ->
  exists extra,
    ents = regex_entities text ++ extra
    /\ forall e r,
         In e extra -> In r (regex_entities text) -> disjoint e r.
Proof.
  unfold detect_pii. rewrite detect_with_regex_total. cbn [bind].
  intro H.
  destruct (ner self text) as [spans|]; [| discriminate].
  cbn [bind] in H.
  destruct (run_loop _ spans) as [st|] eqn:Er; [| discriminate].
  cbn [bind] in H.
  destruct (flush st) as [st'|] eqn:Ef; [| discriminate].
  cbn [bind] in H. injection H as <-.
  assert (H0 : guarded (regex_entities text)
                 {| pii_entities := regex_entities text;
                    occupied_spans :=
                      map (fun e => (PIIEntity.start_char e,
                                     PIIEntity.end_char e))
                        (regex_entities text);
                    current_entity := None |}).
  { split; [| split].
    - intros r Hr. simpl.
      apply (in_map (fun e => (PIIEntity.start_char e,
                               PIIEntity.end_char e)) _ r Hr).
    - exists []. rewrite app_nil_r. split; [reflexivity | constructor].
    - simpl. intros b E. discriminate. }
  pose proof (run_loop_guarded _ (regex_entities_wide text) spans _ _ H0 Er)
    as H1.
  destruct (flush_guarded _ _ _ H1 Ef) as (_ & (extra & Hp & Hall) & _).
  exists extra. split; [exact Hp |].
  intros e r He Hr. rewrite Forall_forall in Hall.
  destruct (Hall e He r Hr) as [H | H]; [left | right]; exact H.
Qed.

Lemma detect_pii_names_clear_of_regex_witness :
  exists extra,
    [sample.mail; sample.phone;
     entity "NAME" "Contact" 0 7 0.9]
    = regex_entities sample.contact_line ++ extra
    /\ forall e r,
         In e extra -> In r (regex_entities sample.contact_line) ->
         disjoint e r.
Proof.
  apply (detect_pii_names_clear_of_regex
           (detector_returning
              [span "FIRSTNAME" "Contact" 0 7 0.9;
               span "LASTNAME" "jane" 9 13 0.8])
           sample.contact_line).
  vm_compute. reflexivity.
Defined.

End ClearOfRegexEntities.

(** ** Durations ([parse_dates_and_duration]) *)

Section Durations.

Import dates.

Lemma days_between_nonneg (e s : moment) :
  (micros s <= micros e)%Z -> (0 <= days_between e s)%Z.
Proof.
  intro H. unfold days_between, day.
  apply Z.div_pos; lia.
Qed.

Lemma round2_compat (x y : Q) : x == y -> round2 x == round2 y.
Proof.
  intro H. unfold round2.
  rewrite (round_half_even_compat (x * 100) (y * 100)); [reflexivity |].
  now rewrite H.
Qed.

Lemma round2_small (x : Q) : 0 <= x -> x < 1 # 200 -> round2 x == 0.
Proof.
  intros H0 H1. unfold round2.
  assert (E : round_half_even (x * 100) = 0%Z).
  { pose proof (round_half_even_near (x * 100)) as [Hlo Hhi].
    assert (Hlt : inject_Z (round_half_even (x * 100)) < 1) by lra.
    assert (Hgt : -1 < inject_Z (round_half_even (x * 100))) by lra.
    change 1 with (inject_Z 1) in Hlt. change (-1) with (inject_Z (-1)) in Hgt.
    rewrite <- Zlt_Qlt in Hlt, Hgt. lia. }
  rewrite E. reflexivity.
Qed.

(** X23 ([parse_dates_and_duration]).  The duration is never negative.
    It is [None], with the note that it could not be computed, when a
    date is missing, empty or not parsed, or when the end lies before
    the start; otherwise it is the number of whole days between the
    two instants divided by 365 and rounded to two decimals: zero for
    less than two days, and exactly [k] for [365 * k] days, so that
    leap days count as extra. *)
Theorem duration_years_cases (env : Env) (start_date end_date : option string)
    (v : value) :
  parse_dates_and_duration env start_date end_date = Ok v ->
  (field "duration_years" v = Some VNone
   /\ has_string "note" v
        "Could not reliably compute duration from provided dates."
   /\ (forall s e,
          fst (_parse env 0 start_date) = Some s ->
          fst (_parse env (snd (_parse env 0 start_date)) end_date)
          = Some e ->
          (micros e < micros s)%Z))
  \/ (exists s e q,
         fst (_parse env 0 start_date) = Some s
         /\ fst (_parse env (snd (_parse env 0 start_date)) end_date)
            = Some e
         /\ (micros s <= micros e)%Z
         /\ field "duration_years" v = Some (VFloat q)
         /\ has_string "note" v
              "Duration computed from parsed start/end dates."
         /\ q == round2 (inject_Z (days_between e s) / 365)
         /\ 0 <= q
         /\ ((micros e - micros s < 2 * day)%Z -> q == 0)
         /\ (forall k,
                days_between e s = (365 * k)%Z -> q == inject_Z k)).
Proof.
  unfold parse_dates_and_duration.
  destruct (_parse env 0 start_date) as [start reads].
  cbn [fst snd].
  destruct (_parse env reads end_date) as [end_ reads'].
  cbn [fst snd].
  destruct start as [s |]; [destruct end_ as [e |] |].
  - unfold lt. destruct (Bool.eqb (aware e) (aware s)); [| discriminate].
    cbn [bind]. destruct (micros e <? micros s)%Z eqn:E.
    + intro H. injection H as <-. left.
      split; [reflexivity |]. split; [reflexivity |].
      intros s' e' Hs He. injection Hs as <-. injection He as <-.
      now apply Z.ltb_lt.
    + intro H. injection H as <-. right. apply Z.ltb_ge in E.
      exists s, e, (round2 (inject_Z (days_between e s) / 365)).
      pose proof (days_between_nonneg e s E) as Hd.
      rewrite Zle_Qle in Hd. change (inject_Z 0) with 0 in Hd.
      repeat split; try reflexivity; try exact E.
      * destruct (round2_between 0 (days_between e s)
                    (inject_Z (days_between e s) / 365)) as [H _].
        -- change (inject_Z 0) with 0.
           apply Qle_shift_div_l; [reflexivity | lra].
        -- apply Qle_shift_div_r; [reflexivity | lra].
        -- exact H.
      * intro Hlt.
        assert (Hone : (days_between e s <= 1)%Z).
        { unfold days_between.
          assert ((micros e - micros s) / day < 2)%Z; [| lia].
          apply Z.div_lt_upper_bound; [reflexivity | lia]. }
        rewrite Zle_Qle in Hone. change (inject_Z 1) with 1 in Hone.
        apply round2_small.
        -- apply Qle_shift_div_l; [reflexivity | lra].
        -- apply Qlt_shift_div_r; [reflexivity | lra].
      * intros k Hk. rewrite Hk.
        transitivity (round2 (inject_Z k)); [| apply round2_integer].
        apply round2_compat. rewrite inject_Z_mult. field.
  - intro H. injection H as <-. left.
    split; [reflexivity |]. split; [reflexivity |]. discriminate.
  - intro H. injection H as <-. left.
    split; [reflexivity |]. split; [reflexivity |]. discriminate.
Qed.

Lemma duration_years_cases_witness :
  exists v s e q,
    parse_dates_and_duration sample_tools.env (Some "Jan 2020")
      (Some "Present")
    = Ok v
    /\ fst (_parse sample_tools.env 0 (Some "Jan 2020")) = Some s
    /\ fst (_parse sample_tools.env 0 (Some "Present")) = Some e
    /\ field "duration_years" v = Some (VFloat q)
    /\ q == 1.1.
Proof.
  destruct (parse_dates_and_duration sample_tools.env (Some "Jan 2020")
              (Some "Present")) as [v | x] eqn:E;
    [| vm_compute in E; discriminate].
  destruct (duration_years_cases _ _ _ _ E)
    as [(H & _) | (s & e & q & Hs & He & _ & Hq & _ & Hv & _)].
  - vm_compute in E. injection E as <-. discriminate.
  - exists v, s, e, q. split; [reflexivity |].
    split; [exact Hs |]. split; [exact He |]. split; [exact Hq |].
    vm_compute in Hs, He. injection Hs as <-. injection He as <-.
    rewrite Hv. vm_compute. reflexivity.
Defined.

Lemma means_now_truthy (d : string) : means_now d -> truthy d = true.
Proof.
  unfold means_now. destruct d; [discriminate | reflexivity].
Qed.

Lemma parse_now (env : Env) (reads : nat) (d : string) :
  means_now d ->
  _parse env reads (Some d)
  = (Some {| micros := now env reads; aware := false |}, S reads).
Proof.
  intro H. unfold _parse. rewrite (means_now_truthy d H).
  unfold means_now in H. cbn [negb]. rewrite H. reflexivity.
Qed.

Lemma parse_parsed (env : Env) (reads : nat) (d : string) (m : moment) :
  truthy d = true -> ~ means_now d -> parser_parse env d = Ok m ->
  _parse env reads (Some d) = (Some m, reads).
Proof.
  intros Ht Hn Hp. unfold _parse. rewrite Ht. cbn [negb].
  unfold means_now in Hn.
  destruct (contains _ _); [congruence |]. now rewrite Hp.
Qed.

(** X24 ([parse_dates_and_duration], an ongoing position).  When the
    start is a date that the parser reads and the end is one of the
    words present, current or now, in any case and with any white
    space around it, the end is the reading of the clock, which knows
    no time zone.  If the start carries a time zone, the comparison of
    the two raises a type error, which the function does not catch.
    If it carries none and does not lie after the reading, the
    duration is computed from the start to the reading. *)
Theorem ongoing_position_duration (env : Env) (start_date end_date : string)
    (s : moment) :
  truthy start_date = true -> ~ means_now start_date ->
  parser_parse env start_date = Ok s ->
  means_now end_date ->
  (aware s = true ->
   parse_dates_and_duration env (Some start_date) (Some end_date)
   = Raise TypeError)
  /\ (aware s = false -> (micros s <= now env 0)%Z ->
      exists v,
        parse_dates_and_duration env (Some start_date) (Some end_date)
        = Ok v
        /\ has_number "duration_years" v
             (round2 (inject_Z ((now env 0 - micros s) / day) / 365))).
Proof.
  intros Ht Hn Hp He. unfold parse_dates_and_duration.
  rewrite (parse_parsed env 0 start_date s Ht Hn Hp).
  rewrite (parse_now env 0 end_date He).
  unfold lt. cbn [aware micros]. split.
  - intros ->. reflexivity.
  - intros -> Hle. cbn [Bool.eqb bind].
    apply Z.ltb_ge in Hle. rewrite Hle.
    eexists. split; [reflexivity |].
    eexists. eexists. split; [reflexivity |]. split; [reflexivity |].
    reflexivity.
Qed.

Lemma ongoing_position_duration_witness :
  parse_dates_and_duration sample_tools.env
    (Some "2020-03-01T00:00:00Z") (Some " Present ")
  = Raise TypeError
  /\ exists v,
       parse_dates_and_duration sample_tools.env (Some "Jan 2020")
         (Some "NOW")
       = Ok v
       /\ has_number "duration_years" v 1.1.
Proof.
  split.
  - apply (proj1 (ongoing_position_duration sample_tools.env
                    "2020-03-01T00:00:00Z" " Present "
                    {| micros := 60 * day; aware := true |}
                    eq_refl ltac:(discriminate) eq_refl eq_refl)).
    reflexivity.
  - destruct (proj2 (ongoing_position_duration sample_tools.env
                       "Jan 2020" "NOW"
                       {| micros := 0; aware := false |}
                       eq_refl ltac:(discriminate) eq_refl eq_refl)
                eq_refl ltac:(vm_compute; discriminate))
      as (v & Hv & x & n & Hx & Hn & Hq).
    exists v. split; [exact Hv |].
    exists x, n. split; [exact Hx |]. split; [exact Hn |].
    rewrite Hq. vm_compute. reflexivity.
Defined.

(** X25 ([parse_dates_and_duration], both dates open).  When both
    dates are words for the present, the parser is not consulted and
    the clock is read twice, first for the start: the duration is
    computed from the two readings when the clock did not go back in
    between, and is [None] when it did. *)
Theorem present_twice_reads_clock_twice (env : Env)
    (start_date end_date : string) :
  means_now start_date -> means_now end_date ->
  exists v,
    parse_dates_and_duration env (Some start_date) (Some end_date) = Ok v
    /\ ((now env 0 <= now env 1)%Z ->
        has_number "duration_years" v
          (round2 (inject_Z ((now env 1 - now env 0) / day) / 365)))
    /\ ((now env 1 < now env 0)%Z ->
        field "duration_years" v = Some VNone).
Proof.
  intros Hs He. unfold parse_dates_and_duration.
  rewrite (parse_now env 0 start_date Hs).
  rewrite (parse_now env 1 end_date He).
  unfold lt. cbn [aware micros Bool.eqb bind].
  destruct (now env 1 <? now env 0)%Z eqn:E.
  - eexists. split; [reflexivity |]. apply Z.ltb_lt in E. split.
    + intro. lia.
    + intros _. reflexivity.
  - eexists. split; [reflexivity |]. apply Z.ltb_ge in E. split.
    + intros _. eexists. eexists.
      split; [reflexivity |]. split; [reflexivity |]. reflexivity.
    + intro. lia.
Qed.

Lemma present_twice_reads_clock_twice_witness :
  exists v,
    parse_dates_and_duration sample_tools.env (Some "current")
      (Some "Now")
    = Ok v
    /\ has_number "duration_years" v 0.
Proof.
  destruct (present_twice_reads_clock_twice sample_tools.env "current" "Now"
              eq_refl eq_refl) as (v & Hv & H1 & _).
  exists v. split; [exact Hv |].
  destruct (H1 ltac:(vm_compute; discriminate))
    as (x & n & Hx & Hn & Hq).
  exists x, n. split; [exact Hx |]. split; [exact Hn |].
  rewrite Hq. vm_compute. reflexivity.
Defined.

End Durations.

(** ** Entailment ([nli_entailment_tool]) *)

Section Entailment.

Import nli_entailment.






End Entailment.

(** ** Failures of the agent stages ([analyse]) *)

Section AgentStages.

Import agents orchestrator.

Variable env : Env.
Variables resume_source job_source candidate_id job_id : string.
Variable progress_callback : string -> result unit.
Variable w : world.
Variables resume_text job_text : string.
Variable redacted : RedacteddResume.t.
Variable detail : CandidateDetail.t.

Hypothesis resume_loads : load_document env resume_source = Ok resume_text.
Hypothesis job_loads : load_document env job_source = Ok job_text.
Hypothesis sink_accepts : forall msg, progress_callback msg = Ok tt.
Hypothesis redaction_works :
  pii_redactor.process_resume (pii_detector (self w)) (now env)
    (strftime env (now env)) resume_text
    (if truthy candidate_id then candidate_id
     else ("cand_" ++ strftime env (now env))%string)
  = Ok (redacted, detail).

Ltac run_stages :=
  unfold analyse;
  unfold bindM, try_exceptM, lift, call, ret, raise, get_self, told;
  repeat (progress (rewrite ?resume_loads, ?job_loads, ?sink_accepts,
                      ?redaction_works;
                    cbn [self fst snd RedacteddResume.redacted_text
                         reports delivered])).

Lemma resume_stage_failure (e : exn) :
  parse_resume (the_agents env) (RedacteddResume.redacted_text redacted)
    (if truthy candidate_id then candidate_id
     else ("cand_" ++ strftime env (now env))%string)
  = Raise e ->
  analyse env resume_source job_source candidate_id job_id
    (Some progress_callback) w
  = (Raise (Exception ("Resume parsing failed: " ++ exn_text e)),
     told w ["**Status:** Resume loaded ... **Now:** Loading job ad";
             "**Status:** Job loaded ... **Now:** Redacting resume";
             "**Status:** Resume Redacted ... **Now:** Parsing resume";
             "**Status:** Resume parse failed"]).
Proof.
  intro H. run_stages. rewrite H.
  repeat (progress (rewrite ?sink_accepts; cbn [self reports delivered])).
  rewrite <- !app_assoc. reflexivity.
Qed.

Lemma job_stage_failure (parsed_resume : ParsedResume.t) (e : exn) :
  parse_resume (the_agents env) (RedacteddResume.redacted_text redacted)
    (if truthy candidate_id then candidate_id
     else ("cand_" ++ strftime env (now env))%string)
  = Ok parsed_resume ->
  parse_job (the_agents env) job_text
    (if truthy job_id then job_id
     else ("job_" ++ strftime env (now env))%string) = Raise e ->
  analyse env resume_source job_source candidate_id job_id
    (Some progress_callback) w
  = (Raise (Exception ("Job parsing failed: " ++ exn_text e)),
     told w ["**Status:** Resume loaded ... **Now:** Loading job ad";
             "**Status:** Job loaded ... **Now:** Redacting resume";
             "**Status:** Resume Redacted ... **Now:** Parsing resume";
             "**Status:** Resume parsed ... **Now:** Parsing job ad";
             "**Status:** Job ad parsing failed"]).
Proof.
  intros H1 H. run_stages. rewrite H1.
  repeat (progress (rewrite ?sink_accepts; cbn [self reports delivered])).
  rewrite H.
  repeat (progress (rewrite ?sink_accepts; cbn [self reports delivered])).
  rewrite <- !app_assoc. reflexivity.
Qed.

Lemma matching_stage_failure (parsed_resume : ParsedResume.t)
    (parsed_job : ParsedJob.t) (e : exn) :
  parse_resume (the_agents env) (RedacteddResume.redacted_text redacted)
    (if truthy candidate_id then candidate_id
     else ("cand_" ++ strftime env (now env))%string)
  = Ok parsed_resume ->
  parse_job (the_agents env) job_text
    (if truthy job_id then job_id
     else ("job_" ++ strftime env (now env))%string) = Ok parsed_job ->
  match_candidate_to_job (the_agents env) parsed_resume parsed_job
  = Raise e ->
  analyse env resume_source job_source candidate_id job_id
    (Some progress_callback) w
  = (Raise (Exception ("Matching failed: " ++ exn_text e)),
     told w ["**Status:** Resume loaded ... **Now:** Loading job ad";
             "**Status:** Job loaded ... **Now:** Redacting resume";
             "**Status:** Resume Redacted ... **Now:** Parsing resume";
             "**Status:** Resume parsed ... **Now:** Parsing job ad";
             "**Status:** Job ad parsed ... **Now:** Computing fit";
             "**Status:** Candidate fit analysis failed"]).
Proof.
  intros H1 H2 H. run_stages. rewrite H1.
  repeat (progress (rewrite ?sink_accepts; cbn [self reports delivered])).
  rewrite H2.
  repeat (progress (rewrite ?sink_accepts; cbn [self reports delivered])).
  rewrite H.
  repeat (progress (rewrite ?sink_accepts; cbn [self reports delivered])).
  rewrite <- !app_assoc. reflexivity.
Qed.

Lemma summary_stage_failure (parsed_resume : ParsedResume.t)
    (parsed_job : ParsedJob.t) (fit : FitAnalysis.t) (e : exn) :
  parse_resume (the_agents env) (RedacteddResume.redacted_text redacted)
    (if truthy candidate_id then candidate_id
     else ("cand_" ++ strftime env (now env))%string)
  = Ok parsed_resume ->
  parse_job (the_agents env) job_text
    (if truthy job_id then job_id
     else ("job_" ++ strftime env (now env))%string) = Ok parsed_job ->
  match_candidate_to_job (the_agents env) parsed_resume parsed_job
  = Ok fit ->
  generate_summary (the_agents env) fit parsed_resume parsed_job None None
  = Raise e ->
  analyse env resume_source job_source candidate_id job_id
    (Some progress_callback) w
  = (Raise (Exception ("Summary generation failed: " ++ exn_text e)),
     told w ["**Status:** Resume loaded ... **Now:** Loading job ad";
             "**Status:** Job loaded ... **Now:** Redacting resume";
             "**Status:** Resume Redacted ... **Now:** Parsing resume";
             "**Status:** Resume parsed ... **Now:** Parsing job ad";
             "**Status:** Job ad parsed ... **Now:** Computing fit";
             "**Status:** Candidate fit analysed ... **Now:** Generating summary"]).
Proof.
  intros H1 H2 H3 H. run_stages. rewrite H1.
  repeat (progress (rewrite ?sink_accepts; cbn [self reports delivered])).
  rewrite H2.
  repeat (progress (rewrite ?sink_accepts; cbn [self reports delivered])).
  rewrite H3.
  repeat (progress (rewrite ?sink_accepts; cbn [self reports delivered])).
  rewrite H.
  rewrite <- !app_assoc. reflexivity.
Qed.

End AgentStages.

Section AgentStageFailures.

Import agents orchestrator.

(** X27 ([analyse], stages 3 to 6).  With documents that load, a sink
    that accepts every status line and a redaction that works: the
    first agent stage that raises ends the run with an [Exception]
    whose message names the stage (resume parsing, job parsing,
    matching, summary generation) and carries the text of the error.
    The status lines of the completed stages have been delivered,
    followed by the failure line of the stage, except for the summary
    stage, which sends none.  No report is made and the stored message
    thread is as before. *)
Theorem analyse_agent_stage_failures (env : Env)
    (resume_source job_source candidate_id job_id : string)
    (progress_callback : string -> result unit) (w : world)
    (resume_text job_text : string) (redacted : RedacteddResume.t)
    (detail : CandidateDetail.t) (e : exn) :
  let cid := if truthy candidate_id then candidate_id
             else ("cand_" ++ strftime env (now env))%string in
  let jid := if truthy job_id then job_id
             else ("job_" ++ strftime env (now env))%string in
  let run := analyse env resume_source job_source candidate_id job_id
               (Some progress_callback) w in
  let parsing := parse_resume (the_agents env)
                   (RedacteddResume.redacted_text redacted) cid in
  load_document env resume_source = Ok resume_text ->
  load_document env job_source = Ok job_text ->
  (forall msg, progress_callback msg = Ok tt) ->
  pii_redactor.process_resume (pii_detector (self w)) (now env)
    (strftime env (now env)) resume_text cid
  = Ok (redacted, detail) ->
  (parsing = Raise e ->
   run = (Raise (Exception ("Resume parsing failed: " ++ exn_text e)),
          told w
            ["**Status:** Resume loaded ... **Now:** Loading job ad";
             "**Status:** Job loaded ... **Now:** Redacting resume";
             "**Status:** Resume Redacted ... **Now:** Parsing resume";
             "**Status:** Resume parse failed"]))
  /\ (forall parsed_resume,
         parsing = Ok parsed_resume ->
         parse_job (the_agents env) job_text jid = Raise e ->
         run = (Raise (Exception ("Job parsing failed: " ++ exn_text e)),
                told w
                  ["**Status:** Resume loaded ... **Now:** Loading job ad";
                   "**Status:** Job loaded ... **Now:** Redacting resume";
                   "**Status:** Resume Redacted ... **Now:** Parsing resume";
                   "**Status:** Resume parsed ... **Now:** Parsing job ad";
                   "**Status:** Job ad parsing failed"]))
  /\ (forall parsed_resume parsed_job,
         parsing = Ok parsed_resume ->
         parse_job (the_agents env) job_text jid = Ok parsed_job ->
         match_candidate_to_job (the_agents env) parsed_resume parsed_job
         = Raise e ->
         run = (Raise (Exception ("Matching failed: " ++ exn_text e)),
                told w
                  ["**Status:** Resume loaded ... **Now:** Loading job ad";
                   "**Status:** Job loaded ... **Now:** Redacting resume";
                   "**Status:** Resume Redacted ... **Now:** Parsing resume";
                   "**Status:** Resume parsed ... **Now:** Parsing job ad";
                   "**Status:** Job ad parsed ... **Now:** Computing fit";
                   "**Status:** Candidate fit analysis failed"]))
  /\ (forall parsed_resume parsed_job fit,
         parsing = Ok parsed_resume ->
         parse_job (the_agents env) job_text jid = Ok parsed_job ->
         match_candidate_to_job (the_agents env) parsed_resume parsed_job
         = Ok fit ->
         generate_summary (the_agents env) fit parsed_resume parsed_job
           None None
         = Raise e ->
         run = (Raise (Exception ("Summary generation failed: "
                                    ++ exn_text e)),
                told w
                  ["**Status:** Resume loaded ... **Now:** Loading job ad";
                   "**Status:** Job loaded ... **Now:** Redacting resume";
                   "**Status:** Resume Redacted ... **Now:** Parsing resume";
                   "**Status:** Resume parsed ... **Now:** Parsing job ad";
                   "**Status:** Job ad parsed ... **Now:** Computing fit";
                   "**Status:** Candidate fit analysed ... **Now:** Generating summary"])).
Proof.
  intros cid jid run parsing Hr Hj Hcb Hred.
  split; [| split; [| split]].
  - apply (resume_stage_failure env resume_source job_source candidate_id
             job_id progress_callback w resume_text job_text redacted detail
             Hr Hj Hcb Hred).
  - intros parsed_resume.
    apply (job_stage_failure env resume_source job_source candidate_id
             job_id progress_callback w resume_text job_text redacted detail
             Hr Hj Hcb Hred).
  - intros parsed_resume parsed_job.
    apply (matching_stage_failure env resume_source job_source candidate_id
             job_id progress_callback w resume_text job_text redacted detail
             Hr Hj Hcb Hred).
  - intros parsed_resume parsed_job fit.
    apply (summary_stage_failure env resume_source job_source candidate_id
             job_id progress_callback w resume_text job_text redacted detail
             Hr Hj Hcb Hred).
Qed.

Lemma analyse_agent_stage_failures_witness :
  analyse sample.env_offline "resume.txt" "job.txt" "c_001" "j_001"
    (Some sample.sink) (sample.fresh (detector_returning []))
  = (Raise (Exception "Summary generation failed: model unavailable"),
     told (sample.fresh (detector_returning []))
       ["**Status:** Resume loaded ... **Now:** Loading job ad";
        "**Status:** Job loaded ... **Now:** Redacting resume";
        "**Status:** Resume Redacted ... **Now:** Parsing resume";
        "**Status:** Resume parsed ... **Now:** Parsing job ad";
        "**Status:** Job ad parsed ... **Now:** Computing fit";
        "**Status:** Candidate fit analysed ... **Now:** Generating summary"]).
Proof.
  destruct (pii_redactor.process_resume (detector_returning [])
              (now sample.env_offline)
              (strftime sample.env_offline (now sample.env_offline))
              sample.contact_line "c_001")
    as [[redacted detail] | x] eqn:E; [| vm_compute in E; discriminate].
  apply (proj2 (proj2 (proj2
           (analyse_agent_stage_failures sample.env_offline "resume.txt"
              "job.txt" "c_001" "j_001" sample.sink
              (sample.fresh (detector_returning []))
              sample.contact_line "Engineer wanted" redacted detail
              (ProviderError "model unavailable")
              eq_refl eq_refl (fun msg => eq_refl) E)))
         (ParsedResume.set_candidate_id sample.resume "c_001")
         (ParsedJob.set_job_id sample.job "j_001")
         (FitAnalysis.set_ids sample.fit "c_001" "j_001"));
    reflexivity.
Defined.

End AgentStageFailures.
